(** * pagser: the reflective struct binder of parse.go

    A shallow embedding of the binder ([ParseSelection], [doParse],
    [doParsePointer], [doParseStruct], [doParseSlice]), of the function
    resolution ([findAndExecFunc], [findMethod], [execMethod]) and of the
    two value casters ([setRefectValue] of parse.go and [setFieldValue] of
    the alternate version of the same file).

    Modelling conventions.
    - Go's [reflect.Value] of an addressable location is a [Place] into the
      bind target (or into a slice that was allocated by the binder and is
      not attached to the target yet), together with its static type.  The
      target is a tree: two pointers of the target do not share a pointee.
    - A Go panic (a reflect call on the wrong kind, an index out of range,
      an unassignable [Set]) is the outcome [Panic].
    - Every [fmt.Errorf] call site of the source is one constructor of
      [error].
    - A method with a value receiver is a function of the struct and the
      node; one with a pointer receiver also returns the struct as it
      leaves it.  Registered functions see the node and their arguments.
    - Types are structural: a struct type has a name under which its
      methods are declared, other types have none; struct fields are
      exported; [int], [uint] and [uintptr] are 64 bits wide; a type does
      not contain itself.
    - The selection engine, the tokenizer, [strings.TrimSpace] and the cast
      library are parameters ([Externals]). *)

From Stdlib Require Import ZArith Lia Bool.
From stdpp Require Import base option list strings gmap.

Set Warnings "-register-all".
Local Open Scope Z_scope.

(** ** reflect.Kind, in the numbering of package reflect *)

Inductive Kind :=
| Invalid | Bool | Int | Int8 | Int16 | Int32 | Int64
| Uint | Uint8 | Uint16 | Uint32 | Uint64 | Uintptr
| Float32 | Float64 | Complex64 | Complex128
| Array | Chan | Func | Interface | Map | Pointer | Slice
| String | Struct | UnsafePointer.

Definition kind_num (k : Kind) : nat :=
  match k with
  | Invalid => 0 | Bool => 1 | Int => 2 | Int8 => 3 | Int16 => 4
  | Int32 => 5 | Int64 => 6 | Uint => 7 | Uint8 => 8 | Uint16 => 9
  | Uint32 => 10 | Uint64 => 11 | Uintptr => 12 | Float32 => 13
  | Float64 => 14 | Complex64 => 15 | Complex128 => 16 | Array => 17
  | Chan => 18 | Func => 19 | Interface => 20 | Map => 21
  | Pointer => 22 | Slice => 23 | String => 24 | Struct => 25
  | UnsafePointer => 26
  end%nat.

Definition kind_eqb (a b : Kind) : bool := Nat.eqb (kind_num a) (kind_num b).
Definition kind_leb (a b : Kind) : bool := Nat.leb (kind_num a) (kind_num b).

(** ** Types *)

Inductive GoType :=
| TBasic (k : Kind)            (* bool, the integers, floats, complex, string *)
| TArray (n : nat) (elem : GoType)
| TChan (elem : GoType)
| TFunc
| TInterface
| TMap (key elem : GoType)
| TPointer (elem : GoType)
| TSlice (elem : GoType)
| TStruct (name : string) (fields : list Field)
with Field :=
| mkField (f_name : string) (f_tag : list (string * string)) (f_type : GoType).

Definition f_name (f : Field) : string := let (n, _, _) := f in n.
Definition f_tag (f : Field) : list (string * string) := let (_, t, _) := f in t.
Definition f_type (f : Field) : GoType := let (_, _, t) := f in t.

(** [is_basic k]: the kinds a [TBasic] type can have. *)
Definition is_basic (k : Kind) : bool :=
  match k with
  | Bool | Int | Int8 | Int16 | Int32 | Int64
  | Uint | Uint8 | Uint16 | Uint32 | Uint64 | Uintptr
  | Float32 | Float64 | Complex64 | Complex128 | String | UnsafePointer => true
  | _ => false
  end.

(** [Type.Kind()] *)
Definition Kind_of (t : GoType) : Kind :=
  match t with
  | TBasic k => if is_basic k then k else Invalid
  | TArray _ _ => Array
  | TChan _ => Chan
  | TFunc => Func
  | TInterface => Interface
  | TMap _ _ => Map
  | TPointer _ => Pointer
  | TSlice _ => Slice
  | TStruct _ _ => Struct
  end.

(** [Type.Elem()]; panics on the kinds that have no element type. *)
Definition Elem_of (t : GoType) : option GoType :=
  match t with
  | TArray _ e | TChan e | TMap _ e | TPointer e | TSlice e => Some e
  | _ => None
  end.

(** The kinds for which the casters convert: the scalar kinds, and the
    element kinds of the slices. *)
Definition handled_scalar (k : Kind) : bool :=
  match k with
  | Bool | Int | Int8 | Int16 | Int32 | Int64
  | Uint | Uint8 | Uint16 | Uint32 | Uint64 | Uintptr
  | Float32 | Float64 | String => true
  | _ => false
  end.

Definition handled_item (k : Kind) : bool :=
  match k with
  | Bool | Int | Int32 | Int64 | Float32 | Float64 | String => true
  | _ => false
  end.

Definition handled (t : GoType) : bool :=
  match t with
  | TSlice elem => handled_item (Kind_of elem)
  | _ => handled_scalar (Kind_of t)
  end.

Fixpoint type_eqb (a b : GoType) {struct a} : bool :=
  match a, b with
  | TBasic k, TBasic k' => kind_eqb k k'
  | TArray n e, TArray n' e' => Nat.eqb n n' && type_eqb e e'
  | TChan e, TChan e' => type_eqb e e'
  | TFunc, TFunc => true
  | TInterface, TInterface => true
  | TMap k e, TMap k' e' => type_eqb k k' && type_eqb e e'
  | TPointer e, TPointer e' => type_eqb e e'
  | TSlice e, TSlice e' => type_eqb e e'
  | TStruct n fs, TStruct n' fs' =>
      String.eqb n n' &&
      (fix fields_eqb (fs fs' : list Field) {struct fs} : bool :=
         match fs, fs' with
         | [], [] => true
         | mkField fn ft fty :: r, mkField fn' ft' fty' :: r' =>
             String.eqb fn fn'
             && bool_decide (ft = ft')
             && type_eqb fty fty'
             && fields_eqb r r'
         | _, _ => false
         end) fs fs'
  | _, _ => false
  end.

(** ** Values *)

Inductive Val :=
| VBool (b : bool)
| VInt (z : Z)                 (* every signed integer kind *)
| VUint (z : Z)                (* every unsigned integer kind *)
| VFloat (bits : Z)            (* IEEE-754 bit pattern; never inspected *)
| VString (s : string)
| VPtr (target : option Val)   (* nil, or the pointee *)
| VSlice (elems : option (list Val))   (* nil, or the elements *)
| VArray (elems : list Val)
| VStruct (fields : list Val)
| VNilIface
| VIfaceOf (t : GoType) (v : Val)
| VOpaque.                     (* complex, chan, func, map, unsafe pointer *)

(** The zero value of a type. *)
Fixpoint zero (t : GoType) : Val :=
  match t with
  | TBasic k =>
      match k with
      | Bool => VBool false
      | Int | Int8 | Int16 | Int32 | Int64 => VInt 0
      | Uint | Uint8 | Uint16 | Uint32 | Uint64 | Uintptr => VUint 0
      | Float32 | Float64 => VFloat 0
      | String => VString ""
      | _ => VOpaque
      end
  | TArray n e => VArray (replicate n (zero e))
  | TPointer _ => VPtr None
  | TSlice _ => VSlice None
  | TStruct _ fs => VStruct (map (fun f => match f with mkField _ _ ty => zero ty end) fs)
  | TInterface => VNilIface
  | TChan _ | TFunc | TMap _ _ => VOpaque
  end.

(** ** The document tree and selections

    The selection engine (goquery) is external.  A selection is the ordered
    list of its nodes ([Selection.Nodes]); [Size] and [EachWithBreak] only
    depend on that list.  [Find] and [Text] are parameters of the binder. *)

Inductive Node :=
| TextNode (data : string)
| Element (tag : string) (attrs : list (string * string)) (children : list Node).

Definition Selection := list Node.

Definition Size (s : Selection) : nat := length s.

(** ** Errors: one constructor per [fmt.Errorf] call site *)

Inductive error :=
| ErrExternal (msg : string)
    (* an error value made outside parse.go: cast library, tokenizer,
       a registered function or a method *)
| ErrNonPointer (t : GoType)                 (* "%v is non-pointer" *)
| ErrNilTarget (t : GoType)                  (* "%v is nil" *)
| ErrNotStruct (t : GoType)                  (* "%v is not a struct" *)
| ErrParseFunc (tagValue : string) (e : error)
    (* "tag=`%v` parse func error: %v" *)
| ErrSetValue (tagValue : string) (e : error)
    (* "tag=`%v` set value error: %v" *)
| ErrParser (tagValue : string) (fieldValue : Val) (e : error)
    (* "tag=`%v` %#v parser error: %v" *)
| ErrCallRegistered (funcName : string) (e : error)
    (* "call registered func %v error: %v" *)
| ErrMethodNotFound (funcName : string)      (* "method not found: %v" *)
| ErrNoReturn (funcName : string)            (* "method %v not return any value" *)
| ErrMethodReturn (funcName : string) (e : error)
    (* "method %v return error: %v" *)
| ErrInvalidTag (tagValue : string) (e : error).
    (* Modelled from the spec: the error of the tokenizer for a malformed
       tag; newTag is outside parse.go, and section 7 of the specification
       has every fatal error carry the offending tag text. *)

(** ** interface{} values: what functions return and the caster receives *)

Inductive iface :=
| INil                                  (* the nil interface *)
| ISelection (s : Selection)            (* a *goquery.Selection *)
| IError (e : error)                    (* a non-nil error value *)
| IValue (t : GoType) (v : Val).        (* any other value, with its dynamic type *)

(** ** Tags, configuration *)

Record tagTokenizer := mkTag {
  Selector : string;
  FuncName : string;
  FuncParams : list string
}.

Record Config := mkConfig {
  TagName : string;
  FuncSymbol : string;
  CastError : bool;
  Debug : bool
}.

(** Modelled from the spec: the constant [ignoreSymbol] is declared outside
    parse.go; sections 4.1 and 6 of the specification give the marker "-". *)
Definition ignoreSymbol : string := "-".

(** [StructTag.Lookup]: the tag of a field as the list of its key/value
    pairs, the first pair of a key wins. *)
Fixpoint Tag_Lookup (tag : list (string * string)) (key : string) : option string :=
  match tag with
  | [] => None
  | (k, v) :: r => if String.eqb k key then Some v else Tag_Lookup r key
  end.

(** ** Places and the state of one bind *)

Inductive Base :=
| Root                (* the value handed to ParseSelection *)
| Temp (k : nat).     (* a slice made by doParseSlice, not yet stored *)

Record Place := mkPlace { p_base : Base; p_path : list nat }.

(** A [reflect.Value] that denotes a location. *)
Record Value := mkValue { rv_place : Place; rv_type : GoType }.

Record State := mkState {
  st_root : Val;
  st_temps : list Val;
  st_mapTags : gmap string tagTokenizer;    (* p.mapTags *)
  st_finds : list (Selection * string);     (* the calls of Find, latest first *)
  st_out : list string                      (* the fields reported under Debug *)
}.

Fixpoint read_val (path : list nat) (v : Val) : option Val :=
  match path with
  | [] => Some v
  | i :: r =>
      match v with
      | VStruct fs => fs !! i ≫= read_val r
      | VSlice (Some l) => l !! i ≫= read_val r
      | VArray l => l !! i ≫= read_val r
      | VPtr (Some x) => match i with O => read_val r x | _ => None end
      | _ => None
      end
  end.

Fixpoint write_val (path : list nat) (new : Val) (v : Val) : option Val :=
  match path with
  | [] => Some new
  | i :: r =>
      match v with
      | VStruct fs =>
          x ← fs !! i; x' ← write_val r new x; Some (VStruct (<[i := x']> fs))
      | VSlice (Some l) =>
          x ← l !! i; x' ← write_val r new x; Some (VSlice (Some (<[i := x']> l)))
      | VArray l =>
          x ← l !! i; x' ← write_val r new x; Some (VArray (<[i := x']> l))
      | VPtr (Some x) =>
          match i with
          | O => x' ← write_val r new x; Some (VPtr (Some x'))
          | _ => None
          end
      | _ => None
      end
  end.

Definition base_val (b : Base) (st : State) : option Val :=
  match b with
  | Root => Some (st_root st)
  | Temp k => st_temps st !! k
  end.

Definition set_base (b : Base) (v : Val) (st : State) : State :=
  match b with
  | Root => mkState v (st_temps st) (st_mapTags st) (st_finds st) (st_out st)
  | Temp k => mkState (st_root st) (<[k := v]> (st_temps st)) (st_mapTags st)
                      (st_finds st) (st_out st)
  end.

Definition read (p : Place) (st : State) : option Val :=
  base_val (p_base p) st ≫= read_val (p_path p).

Definition write (p : Place) (new : Val) (st : State) : option State :=
  b ← base_val (p_base p) st;
  b' ← write_val (p_path p) new b;
  Some (set_base (p_base p) b' st).

(** ** Outcomes and the error-and-state monad of the binder *)

Inductive Outcome (A : Type) :=
| Ok (a : A) (st : State)          (* returned, err == nil *)
| Fail (e : error) (st : State)    (* returned err != nil *)
| Panic.                           (* a run-time panic *)
Arguments Ok {A} a st.
Arguments Fail {A} e st.
Arguments Panic {A}.

Definition M (A : Type) := State -> Outcome A.

Definition ret {A} (a : A) : M A := fun st => Ok a st.
Definition fail {A} (e : error) : M A := fun st => Fail e st.
Definition panic {A} : M A := fun _ => Panic.

Definition bind {A B} (m : M A) (k : A -> M B) : M B :=
  fun st => match m st with
            | Ok a st' => k a st'
            | Fail e st' => Fail e st'
            | Panic => Panic
            end.

(** [catch m h]: run [m]; when it returns an error, continue with [h]. *)
Definition catch {A} (m : M A) (h : error -> M A) : M A :=
  fun st => match m st with
            | Ok a st' => Ok a st'
            | Fail e st' => h e st'
            | Panic => Panic
            end.

Notation "x <- m ;; k" := (bind m (fun x => k))
  (at level 100, m at next level, right associativity).
Notation "m ;;; k" := (bind m (fun _ => k))
  (at level 100, right associativity).

Definition get_state : M State := fun st => Ok st st.

(** Lift a partial state read: [None] is a panic. *)
Definition load (p : Place) : M Val :=
  fun st => match read p st with Some v => Ok v st | None => Panic end.

Definition store (p : Place) (v : Val) : M unit :=
  fun st => match write p v st with Some st' => Ok tt st' | None => Panic end.

(** ** The cast library

    [github.com/spf13/cast] and the slice casts of the repository's own
    utility file are outside parse.go: the casters take them as a record of
    functions.  An [...E] function returns the value together with the
    error, as in Go; a slice result is [None] for the nil slice. *)

Record Caster := mkCaster {
  ToBoolE : iface -> bool * option error;
  ToInt64E : iface -> Z * option error;
  ToUint64E : iface -> Z * option error;
  ToFloat64E : iface -> Z * option error;
  ToStringE : iface -> string * option error;
  ToBoolSliceE : iface -> option (list bool) * option error;
  ToIntSliceE : iface -> option (list Z) * option error;
  toInt32SliceE : iface -> option (list Z) * option error;
  toInt64SliceE : iface -> option (list Z) * option error;
  toFloat32SliceE : iface -> option (list Z) * option error;
  toFloat64SliceE : iface -> option (list Z) * option error;
  ToStringSliceE : iface -> option (list string) * option error;
  ToBool : iface -> bool;
  ToInt64 : iface -> Z;
  ToUint64 : iface -> Z;
  ToFloat64 : iface -> Z;
  ToString : iface -> string;
  ToBoolSlice : iface -> option (list bool);
  ToIntSlice : iface -> option (list Z);
  toInt32Slice : iface -> option (list Z);
  toInt64Slice : iface -> option (list Z);
  toFloat32Slice : iface -> option (list Z);
  toFloat64Slice : iface -> option (list Z);
  ToStringSlice : iface -> option (list string)
}.

(** The contract of the library: the function without [E] returns the value
    of the one with [E] and drops the error
    ([func ToBool(i) bool { v, _ := ToBoolE(i); return v }]). *)
Record lenient_drops_error (c : Caster) : Prop := {
  ToBool_E : forall i, ToBool c i = (ToBoolE c i).1;
  ToInt64_E : forall i, ToInt64 c i = (ToInt64E c i).1;
  ToUint64_E : forall i, ToUint64 c i = (ToUint64E c i).1;
  ToFloat64_E : forall i, ToFloat64 c i = (ToFloat64E c i).1;
  ToString_E : forall i, ToString c i = (ToStringE c i).1;
  ToBoolSlice_E : forall i, ToBoolSlice c i = (ToBoolSliceE c i).1;
  ToIntSlice_E : forall i, ToIntSlice c i = (ToIntSliceE c i).1;
  toInt32Slice_E : forall i, toInt32Slice c i = (toInt32SliceE c i).1;
  toInt64Slice_E : forall i, toInt64Slice c i = (toInt64SliceE c i).1;
  toFloat32Slice_E : forall i, toFloat32Slice c i = (toFloat32SliceE c i).1;
  toFloat64Slice_E : forall i, toFloat64Slice c i = (toFloat64SliceE c i).1;
  ToStringSlice_E : forall i, ToStringSlice c i = (ToStringSliceE c i).1
}.

(** The integers of the library are int64 and uint64 values. *)
Record integers_in_range (c : Caster) : Prop := {
  ToInt64E_range : forall i, - 2 ^ 63 <= (ToInt64E c i).1 < 2 ^ 63;
  ToUint64E_range : forall i, 0 <= (ToUint64E c i).1 < 2 ^ 64
}.

(** ** Integer widths *)

Definition int_bits (k : Kind) : option Z :=
  match k with
  | Int8 => Some 8 | Int16 => Some 16 | Int32 => Some 32
  | Int | Int64 => Some 64
  | _ => None
  end.

Definition uint_bits (k : Kind) : option Z :=
  match k with
  | Uint8 => Some 8 | Uint16 => Some 16 | Uint32 => Some 32
  | Uint | Uint64 | Uintptr => Some 64
  | _ => None
  end.

(** Two's-complement truncation to [bits] bits. *)
Definition wrap_signed (bits x : Z) : Z :=
  (x + 2 ^ (bits - 1)) mod 2 ^ bits - 2 ^ (bits - 1).

Definition wrap_unsigned (bits x : Z) : Z := x mod 2 ^ bits.

(** ** Methods and registered functions *)

(** A registered function, [CallFunc]: [(node, args...) -> (value, error)]. *)
Abbreviation CallFunc := (Selection -> list string -> iface * option error).

(** A method with a value receiver sees a copy of the struct; one with a
    pointer receiver may also change it.  Both return their list of
    results. *)
Definition ValueMethodFn := Val -> Selection -> list iface.
Definition PointerMethodFn := Val -> Selection -> list iface * Val.

(** A method value bound to its receiver, as [MethodByName] returns it. *)
Inductive Callable :=
| ValueMethod (recv : Place) (m : ValueMethodFn)
| PointerMethod (recv : Place) (m : PointerMethodFn).

(** The engine [p]: its configuration and its function registry (the tag
    cache [p.mapTags] changes during a bind and is part of [State]). *)
Record Pagser := mkPagser {
  Config_of : Config;
  mapFuncs_of : gmap string CallFunc
}.

(** What parse.go uses and does not define. *)
Record Externals := mkExternals {
  (* the selection engine *)
  ext_Find : Selection -> string -> Selection;
  ext_Text : Selection -> string;
  (* strings.TrimSpace *)
  ext_TrimSpace : string -> string;
  (* p.newTag, of the tokenizer file *)
  ext_newTag : string -> tagTokenizer + error;
  (* the methods the program declares, by struct name and method name *)
  ext_value_methods : string -> string -> option ValueMethodFn;
  ext_pointer_methods : string -> string -> option PointerMethodFn;
  ext_cast : Caster;
  (* the conversion float32(x) of a float64, on bit patterns *)
  ext_to_float32 : Z -> Z;
  (* Value.Convert for the pairs of types that [Convert] does not define
     itself; None when CanConvert is false *)
  ext_Convert_other : GoType -> Val -> GoType -> option Val
}.

Section Binder.

Variable ext : Externals.
Variable p : Pagser.

Local Abbreviation cfg := (Config_of p).
Local Abbreviation mapFuncs := (mapFuncs_of p).
Local Abbreviation Find := (ext_Find ext).
Local Abbreviation Text := (ext_Text ext).
Local Abbreviation TrimSpace := (ext_TrimSpace ext).
Local Abbreviation newTag := (ext_newTag ext).
Local Abbreviation value_methods := (ext_value_methods ext).
Local Abbreviation pointer_methods := (ext_pointer_methods ext).
Local Abbreviation cast := (ext_cast ext).
Local Abbreviation to_float32 := (ext_to_float32 ext).
Local Abbreviation Convert_other := (ext_Convert_other ext).

(** *** The setters of reflect.Value *)

Definition SetBool (fv : Value) (x : bool) : M unit :=
  match Kind_of (rv_type fv) with
  | Bool => store (rv_place fv) (VBool x)
  | _ => panic
  end.

Definition SetInt (fv : Value) (x : Z) : M unit :=
  match int_bits (Kind_of (rv_type fv)) with
  | Some bits => store (rv_place fv) (VInt (wrap_signed bits x))
  | None => panic
  end.

Definition SetUint (fv : Value) (x : Z) : M unit :=
  match uint_bits (Kind_of (rv_type fv)) with
  | Some bits => store (rv_place fv) (VUint (wrap_unsigned bits x))
  | None => panic
  end.

Definition SetFloat (fv : Value) (x : Z) : M unit :=
  match Kind_of (rv_type fv) with
  | Float32 => store (rv_place fv) (VFloat (to_float32 x))
  | Float64 => store (rv_place fv) (VFloat x)
  | _ => panic
  end.

Definition SetString (fv : Value) (x : string) : M unit :=
  match Kind_of (rv_type fv) with
  | String => store (rv_place fv) (VString x)
  | _ => panic
  end.

(** [fieldValue.Set(reflect.ValueOf(v))]: the zero Value of a nil interface
    panics; the dynamic type must be assignable to the type of the field. *)
Definition SetValue (fv : Value) (v : iface) : M unit :=
  match v with
  | INil => panic
  | IValue t x =>
      if type_eqb t (rv_type fv) then store (rv_place fv) x
      else match rv_type fv with
           | TInterface => store (rv_place fv) (VIfaceOf t x)
           | _ => panic
           end
  | ISelection _ | IError _ =>
      match rv_type fv with
      | TInterface => store (rv_place fv) VOpaque
      | _ => panic
      end
  end.

(** The values of the cast library as interface values. *)
Definition of_bool (b : bool) : iface := IValue (TBasic Bool) (VBool b).
Definition of_int64 (z : Z) : iface := IValue (TBasic Int64) (VInt z).
Definition of_uint64 (z : Z) : iface := IValue (TBasic Uint64) (VUint z).
Definition of_float64 (z : Z) : iface := IValue (TBasic Float64) (VFloat z).
Definition of_string (s : string) : iface := IValue (TBasic String) (VString s).
Definition of_slice {A} (k : Kind) (inj : A -> Val) (l : option (list A)) : iface :=
  IValue (TSlice (TBasic k)) (VSlice (option_map (map inj) l)).

(** Return the error of a strict cast, or go on with its value. *)
Definition strictly {A} (r : A * option error) (k : A -> M unit) : M unit :=
  match r.2 with
  | Some err => fail err
  | None => k r.1
  end.

(** *** setRefectValue (parse.go) *)

Definition setRefectValue (kind : Kind) (fieldValue : Value) (v : iface) : M unit :=
  if kind_eqb kind Bool then
    if CastError cfg then strictly (ToBoolE cast v) (SetBool fieldValue)
    else SetBool fieldValue (ToBool cast v)
  else if kind_leb Int kind && kind_leb kind Int64 then
    if CastError cfg then strictly (ToInt64E cast v) (SetInt fieldValue)
    else SetInt fieldValue (ToInt64 cast v)
  else if kind_leb Uint kind && kind_leb kind Uintptr then
    if CastError cfg then strictly (ToUint64E cast v) (SetUint fieldValue)
    else SetUint fieldValue (ToUint64 cast v)
  else if kind_eqb kind Float32 || kind_eqb kind Float64 then
    if CastError cfg then strictly (ToFloat64E cast v) (SetFloat fieldValue)
    else SetFloat fieldValue (ToFloat64 cast v)
  else if kind_eqb kind String then
    if CastError cfg then strictly (ToStringE cast v) (SetString fieldValue)
    else SetString fieldValue (ToString cast v)
  else if kind_eqb kind Slice || kind_eqb kind Array then
    match Elem_of (rv_type fieldValue) with
    | None => panic
    | Some sliceType =>
        let itemKind := Kind_of sliceType in
        if CastError cfg then
          match itemKind with
          | Bool => strictly (ToBoolSliceE cast v)
                      (fun kv => SetValue fieldValue (of_slice Bool VBool kv))
          | Int => strictly (ToIntSliceE cast v)
                      (fun kv => SetValue fieldValue (of_slice Int VInt kv))
          | Int32 => strictly (toInt32SliceE cast v)
                      (fun kv => SetValue fieldValue (of_slice Int32 VInt kv))
          | Int64 => strictly (toInt64SliceE cast v)
                      (fun kv => SetValue fieldValue (of_slice Int64 VInt kv))
          | Float32 => strictly (toFloat32SliceE cast v)
                      (fun kv => SetValue fieldValue (of_slice Float32 VFloat kv))
          | Float64 => strictly (toFloat64SliceE cast v)
                      (fun kv => SetValue fieldValue (of_slice Float64 VFloat kv))
          | String => strictly (ToStringSliceE cast v)
                      (fun kv => SetValue fieldValue (of_slice String VString kv))
          | _ => SetValue fieldValue v
          end
        else
          match itemKind with
          | Bool => SetValue fieldValue (of_slice Bool VBool (ToBoolSlice cast v))
          | Int => SetValue fieldValue (of_slice Int VInt (ToIntSlice cast v))
          | Int32 => SetValue fieldValue (of_slice Int32 VInt (toInt32Slice cast v))
          | Int64 => SetValue fieldValue (of_slice Int64 VInt (toInt64Slice cast v))
          | Float32 => SetValue fieldValue (of_slice Float32 VFloat (toFloat32Slice cast v))
          | Float64 => SetValue fieldValue (of_slice Float64 VFloat (toFloat64Slice cast v))
          | String => SetValue fieldValue (of_slice String VString (ToStringSlice cast v))
          | _ => SetValue fieldValue v
          end
    end
  else SetValue fieldValue v.

(** *** setFieldValue (the alternate version of parse.go) *)

(** [Value.Convert] to the type [ft] of a value of dynamic type [t];
    [None] when [CanConvert] is false.  Defined here: conversion to
    [interface{}], between integer kinds, between float kinds, and from a
    slice to an array (Go 1.20); every other pair is [Convert_other]. *)
Definition Convert (t : GoType) (x : Val) (ft : GoType) : option Val :=
  match ft with
  | TInterface => Some (VIfaceOf t x)
  | _ =>
    match x, int_bits (Kind_of ft), uint_bits (Kind_of ft) with
    | (VInt z | VUint z), Some bits, _ => Some (VInt (wrap_signed bits z))
    | (VInt z | VUint z), None, Some bits => Some (VUint (wrap_unsigned bits z))
    | _, _, _ =>
      match x, Kind_of t, Kind_of ft with
      | VFloat z, (Float32 | Float64), Float32 => Some (VFloat (to_float32 z))
      | VFloat z, (Float32 | Float64), Float64 => Some (VFloat z)
      | _, _, _ =>
        match t, x, ft with
        | TSlice e, VSlice l, TArray n e' =>
            if type_eqb e e' then
              let l' := default [] l in
              if (n <=? length l')%nat then Some (VArray (take n l')) else None
            else Convert_other t x ft
        | _, _, _ => Convert_other t x ft
        end
      end
    end
  end.

(** The end of setFieldValue: [reflect.ValueOf], the conversion when the
    types differ and one exists, and [Set]. *)
Definition convert_and_Set (fieldValue : Value) (castValueInterface : iface) : M unit :=
  match castValueInterface with
  | INil => panic                    (* Type() of the zero Value *)
  | IValue t x =>
      let fieldType := rv_type fieldValue in
      if negb (type_eqb t fieldType) then
        match Convert t x fieldType with
        | Some x' => SetValue fieldValue (IValue fieldType x')
        | None => SetValue fieldValue castValueInterface
        end
      else SetValue fieldValue castValueInterface
  | ISelection _ | IError _ => SetValue fieldValue castValueInterface
  end.

(** The first switch of setFieldValue: the cast value and the error. *)
Definition castFor (fieldValue : Value) (value : iface) : option (iface * option error) :=
  let pack {A} (inj : A -> iface) (r : A * option error) := Some (inj r.1, r.2) in
  match Kind_of (rv_type fieldValue) with
  | Bool => pack of_bool (ToBoolE cast value)
  | Int | Int8 | Int16 | Int32 | Int64 => pack of_int64 (ToInt64E cast value)
  | Uint | Uint8 | Uint16 | Uint32 | Uint64 | Uintptr =>
      pack of_uint64 (ToUint64E cast value)
  | Float32 | Float64 => pack of_float64 (ToFloat64E cast value)
  | String => pack of_string (ToStringE cast value)
  | Slice | Array =>
      match Elem_of (rv_type fieldValue) with
      | None => None
      | Some elem =>
          match Kind_of elem with
          | Bool => pack (of_slice Bool VBool) (ToBoolSliceE cast value)
          | Int => pack (of_slice Int VInt) (ToIntSliceE cast value)
          | Int32 => pack (of_slice Int32 VInt) (toInt32SliceE cast value)
          | Int64 => pack (of_slice Int64 VInt) (toInt64SliceE cast value)
          | Float32 => pack (of_slice Float32 VFloat) (toFloat32SliceE cast value)
          | Float64 => pack (of_slice Float64 VFloat) (toFloat64SliceE cast value)
          | String => pack (of_slice String VString) (ToStringSliceE cast value)
          | _ => Some (value, None)
          end
      end
  | _ => Some (value, None)
  end.

Definition setFieldValue (fieldValue : Value) (value : iface) : M unit :=
  match castFor fieldValue value with
  | None => panic
  | Some (castValueInterface, err) =>
      match err with
      | Some e => if CastError cfg then fail e
                  else convert_and_Set fieldValue castValueInterface
      | None => convert_and_Set fieldValue castValueInterface
      end
  end.

(** *** Function resolution *)

(** The name under which the methods of a struct type are declared. *)
Definition struct_name (t : GoType) : option string :=
  match t with
  | TStruct name _ => Some name
  | _ => None
  end.

(** [Value.MethodByName] on the value, and on its address. *)
Definition MethodByName (val : Value) (funcName : string) : option Callable :=
  name ← struct_name (rv_type val);
  m ← value_methods name funcName;
  Some (ValueMethod (rv_place val) m).

Definition Addr_MethodByName (val : Value) (funcName : string) : option Callable :=
  name ← struct_name (rv_type val);
  match value_methods name funcName with
  | Some m => Some (ValueMethod (rv_place val) m)
  | None =>
      m ← pointer_methods name funcName;
      Some (PointerMethod (rv_place val) m)
  end.

(** [findMethod].  Every [Value] of the model is a place, hence
    addressable: [val.CanAddr()] holds. *)
Definition findMethod (val : Value) (funcName : string) : option Callable :=
  match MethodByName val funcName with
  | Some callMethod => Some callMethod
  | None =>
      match Addr_MethodByName val funcName with
      | Some callMethod => Some callMethod
      | None => None
      end
  end.

(** The checks of [execMethod] on the returned values. *)
Definition checkReturns (funcName : string) (callReturns : list iface) : M iface :=
  match callReturns with
  | [] => fail (ErrNoReturn funcName)
  | first :: rest =>
      match rest, last callReturns with
      | _ :: _, Some (IError err) => fail (ErrMethodReturn funcName err)
      | _, _ => ret first
      end
  end.

Definition execMethod (callMethod : Callable) (selTag : tagTokenizer)
    (node : Selection) : M iface :=
  match callMethod with
  | ValueMethod recv m =>
      self <- load recv ;;
      checkReturns (FuncName selTag) (m self node)
  | PointerMethod recv m =>
      self <- load recv ;;
      store recv (m self node).2 ;;;
      checkReturns (FuncName selTag) (m self node).1
  end.

(** The loop [for i := size - 1; i >= 0; i--] over the ancestors: [n] is
    the number of entries still to look at, [i = n - 1] the current one. *)
Fixpoint findInStack (stackValues : list Value) (funcName : string) (n : nat)
    : option Callable :=
  match n with
  | O => None
  | S i =>
      match stackValues !! i with
      | Some ancestor =>
          match findMethod ancestor funcName with
          | Some callMethod => Some callMethod
          | None => findInStack stackValues funcName i
          end
      | None => findInStack stackValues funcName i
      end
  end.

Definition findAndExecFunc (val : Value) (stackValues : list Value)
    (selTag : tagTokenizer) (node : Selection) : M iface :=
  if String.eqb (FuncName selTag) "" then
    ret (of_string (TrimSpace (Text node)))
  else
    match findMethod val (FuncName selTag) with
    | Some callMethod => execMethod callMethod selTag node
    | None =>
        match findInStack stackValues (FuncName selTag) (length stackValues) with
        | Some callMethod => execMethod callMethod selTag node
        | None =>
            match mapFuncs !! FuncName selTag with
            | Some cfn =>
                match cfn node (FuncParams selTag) with
                | (_, Some err) => fail (ErrCallRegistered (FuncName selTag) err)
                | (outValue, None) => ret outValue
                end
            | None => fail (ErrMethodNotFound (FuncName selTag))
            end
        end
    end.

(** *** The binder *)

(** [val.Field(i)], [slice.Index(i)] and [reflect.Indirect(val)] as places:
    the [i]-th component, the pointee being component 0. *)
Definition child (p : Place) (i : nat) : Place :=
  mkPlace (p_base p) (p_path p ++ [i]).

(** [selection.Find(selector)], recorded in [st_finds]. *)
Definition find (selection : Selection) (selector : string) : M Selection :=
  fun st => Ok (Find selection selector)
               (mkState (st_root st) (st_temps st) (st_mapTags st)
                        ((selection, selector) :: st_finds st) (st_out st)).

(** The [fmt.Printf] of a field without tag, under [Debug]. *)
Definition printMissingTag (fieldName : string) : M unit :=
  fun st => Ok tt (mkState (st_root st) (st_temps st) (st_mapTags st)
                           (st_finds st) (fieldName :: st_out st)).

(** The tag of a raw tag text: from [p.mapTags], else from [newTag], which
    is then stored. *)
Definition loadTag (tagValue : string) : M tagTokenizer :=
  fun st =>
    match st_mapTags st !! tagValue with
    | Some tag => Ok tag st
    | None =>
        match newTag tagValue with
        | inr err => Fail err st
        | inl tag =>
            Ok tag (mkState (st_root st) (st_temps st)
                            (<[tagValue := tag]> (st_mapTags st))
                            (st_finds st) (st_out st))
        end
    end.

(** The value printed by [%#v] in an error message. *)
Definition snapshot (p : Place) : M Val :=
  fun st => Ok (default VOpaque (read p st)) st.

(** The state after [reflect.MakeSlice] of [len] elements. *)
Definition after_MakeSlice (elem : GoType) (len : nat) (st : State) : State :=
  mkState (st_root st)
          (st_temps st ++ [VSlice (Some (replicate len (zero elem)))])
          (st_mapTags st) (st_finds st) (st_out st).

(** [reflect.MakeSlice]: the new slice is not part of the target yet; the
    result is its number in [st_temps]. *)
Definition MakeSlice (elem : GoType) (len : nat) : M nat :=
  fun st => Ok (length (st_temps st)) (after_MakeSlice elem len st).

(** [slice.Index(i)] panics when [i] is out of range. *)
Definition Index (slice : Place) (i : nat) : M Place :=
  s <- load slice ;;
  match s with
  | VSlice (Some l) => if (i <? length l)%nat then ret (child slice i) else panic
  | _ => panic
  end.

(** [selection.EachWithBreak(f)]: [f] on every node in order, each as a
    selection of its own, until [f] reports an error. *)
Definition EachWithBreak (f : nat -> Selection -> M unit) : list Node -> nat -> M unit :=
  fix each (nodes : list Node) (i : nat) : M unit :=
    match nodes with
    | [] => ret tt
    | n :: rest => f i [n] ;;; each rest (S i)
    end.

(** The recursive call [p.doParse], on the type and the place of a value. *)
Definition Rec := GoType -> Place -> list Value -> Selection -> M unit.

Definition doParsePointer (doParse : Rec) (val : Value) (elem : GoType)
    (stackValues : list Value) (selection : Selection) : M unit :=
  ptr <- load (rv_place val) ;;
  match ptr with
  | VPtr None => store (rv_place val) (VPtr (Some (zero elem)))
  | VPtr (Some _) => ret tt
  | _ => panic
  end ;;;
  doParse elem (child (rv_place val) 0) stackValues selection.

(** The body of the loop of [doParseSlice], on the slice at [slice]. *)
Definition parseItem (doParse : Rec) (slice : Place) (elem : GoType)
    (stackValues : list Value) : nat -> Selection -> M unit :=
  fun i subNode =>
    itemValue <- Index slice i ;; doParse elem itemValue stackValues subNode.

Definition doParseSlice (doParse : Rec) (val : Value) (elem : GoType)
    (stackValues : list Value) (selection : Selection) : M unit :=
  slice <- load (rv_place val) ;;
  match slice with
  | VSlice None =>
      k <- MakeSlice elem (Size selection) ;;
      let slice := mkPlace (Temp k) [] in
      EachWithBreak (parseItem doParse slice elem stackValues) selection 0 ;;;
      made <- load slice ;;
      store (rv_place val) made
  | VSlice (Some _) =>
      EachWithBreak (parseItem doParse (rv_place val) elem stackValues) selection 0
  | _ => panic
  end.

(** The node a tag selects from [selection], and the state after [Find]. *)
Definition node_of (tag : tagTokenizer) (selection : Selection) : Selection :=
  if String.eqb (Selector tag) "" then selection
  else ext_Find ext selection (Selector tag).

Definition after_find (tag : tagTokenizer) (selection : Selection) (st : State) : State :=
  if String.eqb (Selector tag) "" then st
  else mkState (st_root st) (st_temps st) (st_mapTags st)
               ((selection, Selector tag) :: st_finds st) (st_out st).

(** The end of an iteration that goes into the field: the struct joins the
    ancestors, [doParse] runs on the field with [node], an error is wrapped
    with the tag and the value of the field. *)
Definition descend_into (doParse : Rec) (val : Value) (i : nat) (fieldType : Field)
    (tagValue : string) (stackValues : list Value) (node : Selection)
    : M (list Value) :=
  catch (doParse (f_type fieldType) (child (rv_place val) i)
                 (stackValues ++ [val]) node)
        (fun err => fv <- snapshot (child (rv_place val) i) ;;
                    fail (ErrParser tagValue fv err)) ;;;
  ret (stackValues ++ [val]).

(** One iteration of the loop of [doParseStruct], for field [i]; the result
    is the value of [stackValues] at the end of the iteration. *)
Definition doParseField (doParse : Rec) (val : Value) (i : nat) (fieldType : Field)
    (stackValues : list Value) (selection : Selection) : M (list Value) :=
  let fieldValue := mkValue (child (rv_place val) i) (f_type fieldType) in
  match Tag_Lookup (f_tag fieldType) (TagName cfg) with
  | None =>
      (if Debug cfg then printMissingTag (f_name fieldType) else ret tt) ;;;
      ret stackValues
  | Some tagValue =>
      if String.eqb tagValue ignoreSymbol then ret stackValues
      else
        tag <- loadTag tagValue ;;
        node <- (if String.eqb (Selector tag) "" then ret selection
                 else find selection (Selector tag)) ;;
        if String.eqb (FuncName tag) "" then
          descend_into doParse val i fieldType tagValue stackValues node
        else
          callOutValue <- catch (findAndExecFunc val stackValues tag node)
                                (fun callErr => fail (ErrParseFunc tagValue callErr)) ;;
          match callOutValue with
          | ISelection subNode =>
              descend_into doParse val i fieldType tagValue stackValues subNode
          | _ =>
              catch (setRefectValue (Kind_of (f_type fieldType)) fieldValue callOutValue)
                    (fun svErr => fail (ErrSetValue tagValue svErr)) ;;;
              ret stackValues
          end
  end.

Definition doParseStruct (doParse : Rec) (val : Value) (selection : Selection)
    : list Field -> nat -> list Value -> M unit :=
  fix fields_from (fields : list Field) (i : nat) (stackValues : list Value) : M unit :=
    match fields with
    | [] => ret tt
    | fieldType :: rest =>
        stackValues <- doParseField doParse val i fieldType stackValues selection ;;
        fields_from rest (S i) stackValues
    end.

Fixpoint doParseT (t : GoType) (place : Place) (stackValues : list Value)
    (selection : Selection) {struct t} : M unit :=
  match t with
  | TPointer elem =>
      doParsePointer doParseT (mkValue place t) elem stackValues selection
  | TStruct _ fields =>
      doParseStruct doParseT (mkValue place t) selection fields 0 stackValues
  | TSlice elem =>
      doParseSlice doParseT (mkValue place t) elem stackValues selection
  | _ => SetString (mkValue place t) (TrimSpace (Text selection))
  end.

Definition doParse (val : Value) (stackValues : list Value)
    (selection : Selection) : M unit :=
  doParseT (rv_type val) (rv_place val) stackValues selection.

(** *** The entry point *)

Definition rootPlace : Place := mkPlace Root [].

(** [ParseSelection(v, selection)].  The target [v] is an interface value:
    [None] is the nil interface, [Some t] a value of dynamic type [t], held
    in [st_root]. *)
Definition ParseSelection (v : option GoType) (selection : Selection) : M unit :=
  match v with
  | None => panic                    (* val.Type() of the zero Value *)
  | Some t =>
      if negb (kind_eqb (Kind_of t) Pointer) then fail (ErrNonPointer t)
      else
        ptr <- load rootPlace ;;
        match ptr, Elem_of t with
        | VPtr None, _ => fail (ErrNilTarget t)
        | VPtr (Some _), Some elem =>
            if negb (kind_eqb (Kind_of elem) Struct) then fail (ErrNotStruct elem)
            else doParse (mkValue rootPlace t) [] selection
        | _, _ => panic
        end
  end.

End Binder.

(** The state in which a bind into [target] starts. *)
Definition start (target : Val) (mapTags : gmap string tagTokenizer) : State :=
  mkState target [] mapTags [] [].

(** * The vocabulary of the properties *)

(** The text a single node gives to an element of kind string. *)
Definition element_text (ext : Externals) (n : Node) : Val :=
  VString (ext_TrimSpace ext (ext_Text ext [n])).

(** The error carries the raw tag text [tagValue] at its head. *)
Definition wrapped_with (tagValue : string) (e : error) : Prop :=
  match e with
  | ErrParseFunc t _ | ErrSetValue t _ | ErrParser t _ _ | ErrInvalidTag t _ =>
      t = tagValue
  | _ => False
  end.

(** The error is a chain of "parser error" wrappers, one for each enclosing
    field, that ends with the wrapper of the field at which the bind
    failed. *)
Inductive blames : error -> Prop :=
| blames_func (t : string) (e : error) : blames (ErrParseFunc t e)
| blames_set (t : string) (e : error) : blames (ErrSetValue t e)
| blames_tag (t : string) (e : error) : blames (ErrInvalidTag t e)
| blames_parser (t : string) (fv : Val) (e : error) :
    blames e -> blames (ErrParser t fv e).

(** The length of a slice that is not nil. *)
Definition slice_len (v : option Val) : option nat :=
  match v with
  | Some (VSlice (Some l)) => Some (length l)
  | _ => None
  end.

(** From [st] to [st'] every slice under construction keeps its length. *)
Definition temps_kept (st st' : State) : Prop :=
  forall (k n : nat),
    slice_len (st_temps st !! k) = Some n -> slice_len (st_temps st' !! k) = Some n.

(** A place that is not a whole slice under construction. *)
Definition proper (pl : Place) : Prop :=
  match p_base pl with
  | Root => True
  | Temp _ => p_path pl <> []
  end.

Definition proper_stack (stackValues : list Value) : Prop :=
  Forall (fun v => proper (rv_place v)) stackValues.

(** [m] keeps the lengths, and its result satisfies [Q]. *)
Definition keeps {A} (Q : A -> Prop) (m : M A) : Prop :=
  forall st : State,
    match m st with
    | Ok a st' => temps_kept st st' /\ Q a
    | Fail _ st' => temps_kept st st'
    | Panic => True
    end.

(** [doParse] keeps the lengths on the type [t], from places and ancestors
    that are proper. *)
Definition rec_keeps (doParse : Rec) (t : GoType) : Prop :=
  forall (pl : Place) (stackValues : list Value) (selection : Selection),
    proper pl -> proper_stack stackValues ->
    keeps (fun _ => True) (doParse t pl stackValues selection).

Definition proper_callable (c : Callable) : Prop :=
  match c with
  | ValueMethod recv _ | PointerMethod recv _ => proper recv
  end.

(** [vals] written over [l] from index [i] on. *)
Fixpoint overwrite (l : list Val) (i : nat) (vals : list Val) : list Val :=
  match vals with
  | [] => l
  | v :: r => overwrite (<[i := v]> l) (S i) r
  end.

(** ** Relations that every step of a bind keeps *)

(** Every run of [m] takes a state to one that [R] relates to it, and
    returns a result that satisfies [Q]. *)
Definition respects (R : State -> State -> Prop) {A} (Q : A -> Prop) (m : M A) : Prop :=
  forall st : State,
    match m st with
    | Ok a st' => R st st' /\ Q a
    | Fail _ st' => R st st'
    | Panic => True
    end.

(** A struct whose type declares no method with a pointer receiver. *)
Definition quiet (ext : Externals) (v : Value) : Prop :=
  forall (name funcName : string),
    struct_name (rv_type v) = Some name ->
    ext_pointer_methods ext name funcName = None.

(** A receiver that may be written, or that no method writes. *)
Definition receiver_ok (allowed : Place -> Prop) (ext : Externals) (v : Value) : Prop :=
  allowed (rv_place v) \/ quiet ext v.

Definition callable_ok (allowed : Place -> Prop) (c : Callable) : Prop :=
  match c with
  | ValueMethod _ _ => True
  | PointerMethod recv _ => allowed recv
  end.

Definition rec_respects (R : State -> State -> Prop) (allowed : Place -> Prop)
    (ext : Externals) (doParse : Rec) (t : GoType) : Prop :=
  forall (pl : Place) (stackValues : list Value) (selection : Selection),
    allowed pl -> Forall (receiver_ok allowed ext) stackValues ->
    respects R (fun _ => True) (doParse t pl stackValues selection).

(** The state after a call of [Find] is recorded, after a field name is
    printed, after a tag is cached. *)
Definition record_find (selection : Selection) (selector : string) (st : State) : State :=
  mkState (st_root st) (st_temps st) (st_mapTags st)
          ((selection, selector) :: st_finds st) (st_out st).

Definition record_out (fieldName : string) (st : State) : State :=
  mkState (st_root st) (st_temps st) (st_mapTags st) (st_finds st)
          (fieldName :: st_out st).

Definition record_tag (tagValue : string) (tag : tagTokenizer) (st : State) : State :=
  mkState (st_root st) (st_temps st) (<[tagValue := tag]> (st_mapTags st))
          (st_finds st) (st_out st).

(** ** The tag cache, the logs, and what a bind leaves alone *)

(** Every entry of the cache is what [newTag] returns for its key. *)
Definition consistent (ext : Externals) (mapTags : gmap string tagTokenizer) : Prop :=
  forall (tagValue : string) (tag : tagTokenizer),
    mapTags !! tagValue = Some tag -> ext_newTag ext tagValue = inl tag.

(** From [st] to [st'] the cache keeps its entries, and gains only results
    of [newTag]. *)
Definition cache_grows (ext : Externals) (st st' : State) : Prop :=
  (forall (tagValue : string) (tag : tagTokenizer),
      st_mapTags st !! tagValue = Some tag -> st_mapTags st' !! tagValue = Some tag)
  /\ (forall (tagValue : string) (tag : tagTokenizer),
        st_mapTags st' !! tagValue = Some tag ->
        st_mapTags st !! tagValue = Some tag
        \/ (st_mapTags st !! tagValue = None /\ ext_newTag ext tagValue = inl tag)).

(** From [st] to [st'] the list of [Find] calls gains calls with a selector
    that is not empty, and the output gains lines only under [Debug]. *)
Definition logs_grow (p : Pagser) (st st' : State) : Prop :=
  (exists calls : list (Selection * string),
      st_finds st' = calls ++ st_finds st
      /\ Forall (fun call => call.2 <> "") calls)
  /\ (exists names : list string,
        st_out st' = names ++ st_out st
        /\ (Debug (Config_of p) = false -> names = [])).

(** Two places of which neither contains the other: they hang from
    different bases, or their paths part at some component. *)
Definition apart (pl q : Place) : Prop :=
  p_base pl <> p_base q
  \/ exists (common : list nat) (i j : nat) (rest rest' : list nat),
       i <> j
       /\ p_path pl = common ++ i :: rest
       /\ p_path q = common ++ j :: rest'.

(** The place [q] reads the same in [st'] as in [st]. *)
Definition same_at (q : Place) (st st' : State) : Prop := read q st' = read q st.



(** ** Structs of texts *)



(** ** Two runs that differ in the cache only *)

(** Two states with the same target, slices and logs, each with a cache
    that agrees with the tokenizer. *)
Definition agree (ext : Externals) (sa sb : State) : Prop :=
  st_root sa = st_root sb /\ st_temps sa = st_temps sb
  /\ st_finds sa = st_finds sb /\ st_out sa = st_out sb
  /\ consistent ext (st_mapTags sa) /\ consistent ext (st_mapTags sb).

(** Two outcomes of the same kind, with the same result or error, in states
    that agree. *)
Definition alike (ext : Externals) {A} (oa ob : Outcome A) : Prop :=
  match oa, ob with
  | Ok a sa, Ok b sb => a = b /\ agree ext sa sb
  | Fail e sa, Fail e' sb => e = e' /\ agree ext sa sb
  | Panic, Panic => True
  | _, _ => False
  end.

Definition sim (ext : Externals) {A} (m : M A) : Prop :=
  forall sa sb : State, agree ext sa sb -> alike ext (m sa) (m sb).

(** ** Fields the casters do not convert *)

(** The types for which both casters hand the value of the function to
    [Set] as it is: every kind but the scalar ones, and the slices and arrays
    of an element kind without a slice cast. *)
Definition passed_on (t : GoType) : bool :=
  match Kind_of t with
  | Slice | Array =>
      match Elem_of t with
      | Some elem => negb (handled_item (Kind_of elem))
      | None => false
      end
  | k => negb (handled_scalar k)
  end.

(** * A small program and document, after the repository's test file

    A selection engine that knows tag-name selectors only, a table of tags
    in place of the tokenizer, the methods of [ParseData] and
    [SubPageData], and a cast library for strings, integers and booleans. *)

Module Example.

Definition is_space (a : Ascii.ascii) : bool :=
  let n := Ascii.nat_of_ascii a in
  Nat.eqb n 32 || (Nat.leb 9 n && Nat.leb n 13).

Fixpoint trim_left (s : string) : string :=
  match s with
  | String.String a r => if is_space a then trim_left r else s
  | EmptyString => EmptyString
  end.

Fixpoint rev_onto (s acc : string) : string :=
  match s with
  | String.String a r => rev_onto r (String.String a acc)
  | EmptyString => acc
  end.

Definition TrimSpace (s : string) : string :=
  rev_onto (trim_left (rev_onto (trim_left s) "")) "".

Fixpoint node_text (n : Node) : string :=
  match n with
  | TextNode d => d
  | Element _ _ kids =>
      (fix all (l : list Node) : string :=
         match l with
         | [] => ""
         | k :: r => String.append (node_text k) (all r)
         end) kids
  end.

Definition Text (s : Selection) : string :=
  foldr (fun n acc => String.append (node_text n) acc) "" s.

Definition has_tag (name : string) (n : Node) : list Node :=
  match n with
  | Element t _ _ => if String.eqb t name then [n] else []
  | TextNode _ => []
  end.

Fixpoint below (name : string) (n : Node) : list Node :=
  match n with
  | TextNode _ => []
  | Element _ _ kids =>
      (fix all (l : list Node) : list Node :=
         match l with
         | [] => []
         | k :: r => has_tag name k ++ below name k ++ all r
         end) kids
  end.

Definition Find (s : Selection) (selector : string) : Selection :=
  concat (map (below selector) s).

Definition tags : list (string * tagTokenizer) :=
  [ ("h1", mkTag "h1" "" []);
    ("li", mkTag "li" "" []);
    ("p", mkTag "p" "" []);
    ("h1->SameFunc()", mkTag "h1" "SameFunc" []);
    ("h1->MyGlobFunc()", mkTag "h1" "MyGlobFunc" []);
    ("h1->FillFieldFunc()", mkTag "h1" "FillFieldFunc" []);
    ("h1->NoSuchFunc()", mkTag "h1" "NoSuchFunc" []);
    ("li->size()", mkTag "li" "size" []);
    ("li->first()", mkTag "li" "first" []);
    ("->text()", mkTag "" "text" []);
    ("->SubFunc()", mkTag "" "SubFunc" []);
    ("->ParentFunc()", mkTag "" "ParentFunc" []);
    ("->SameFunc()", mkTag "" "SameFunc" []) ].

Fixpoint assoc {A} (l : list (string * A)) (k : string) : option A :=
  match l with
  | [] => None
  | (k', v) :: r => if String.eqb k' k then Some v else assoc r k
  end.

Definition newTag (tagValue : string) : tagTokenizer + error :=
  match assoc tags tagValue with
  | Some t => inl t
  | None => inr (ErrInvalidTag tagValue (ErrExternal "syntax error"))
  end.

Definition str (s : string) : iface := IValue (TBasic String) (VString s).

Definition prefixed (prefix : string) : ValueMethodFn :=
  fun _ node => [str (String.append prefix (Text node)); INil].

Definition value_methods (type method : string) : option ValueMethodFn :=
  if String.eqb type "ParseData" then
    if String.eqb method "MyStructFunc" then Some (prefixed "Struct-")
    else if String.eqb method "ParentFunc" then Some (prefixed "ParentFunc-")
    else None
  else if String.eqb type "SubPageData" then
    if String.eqb method "SubFunc" then Some (prefixed "SubFunc-")
    else if String.eqb method "SameFunc" then Some (prefixed "Sub-Struct-Same-Func-")
    else None
  else None.

(** [FillFieldFunc] also fills the field after its own, number 4. *)
Definition FillFieldFunc : PointerMethodFn :=
  fun self node =>
    ([str (String.append "FillFieldFunc-" (Text node)); INil],
     match self with
     | VStruct fs =>
         VStruct (<[4%nat := VString (String.append "set by FillFieldFunc -" (Text node))]> fs)
     | _ => self
     end).

Definition pointer_methods (type method : string) : option PointerMethodFn :=
  if String.eqb type "ParseData" then
    if String.eqb method "FillFieldFunc" then Some FillFieldFunc
    else if String.eqb method "SameFunc" then
      Some (fun self node => (prefixed "Struct-Same-Func-" self node, self))
    else None
  else None.

Definition mapFuncs : gmap string CallFunc :=
  list_to_map
    [ ("MyGlobFunc", (fun node _ => (str (String.append "Global-" (Text node)), None)) : CallFunc);
      ("SameFunc", fun node _ => (str (String.append "Global-Same-Func-" (Text node)), None));
      ("text", fun node _ => (str (TrimSpace (Text node)), None));
      ("size", fun node _ => (IValue (TBasic Int) (VInt (Z.of_nat (length node))), None));
      ("first", fun node _ => (ISelection (take 1 node), None)) ].

Definition digit (a : Ascii.ascii) : option Z :=
  let n := Ascii.nat_of_ascii a in
  if Nat.leb 48 n && Nat.leb n 57 then Some (Z.of_nat n - 48) else None.

Fixpoint digits (s : string) (acc : Z) : option Z :=
  match s with
  | EmptyString => Some acc
  | String.String a r => match digit a with
                  | Some d => digits r (10 * acc + d)
                  | None => None
                  end
  end.

Definition cannot (what : string) : option error :=
  Some (ErrExternal (String.append "unable to cast to " what)).

Definition toInt (i : iface) : Z * option error :=
  match i with
  | INil => (0, None)
  | IValue _ (VInt z) | IValue _ (VUint z) => (z, None)
  | IValue _ (VString (String.String a r)) =>
      match digits (String.String a r) 0 with
      | Some z => (z, None)
      | None => (0, cannot "int64")
      end
  | _ => (0, cannot "int64")
  end.

(** The results as an int64 and as a uint64. *)
Definition toInt64 (i : iface) : Z * option error :=
  (wrap_signed 64 (toInt i).1, (toInt i).2).

Definition toUint64 (i : iface) : Z * option error :=
  (wrap_unsigned 64 (toInt i).1, (toInt i).2).

Definition toBool (i : iface) : bool * option error :=
  match i with
  | INil => (false, None)
  | IValue _ (VBool b) => (b, None)
  | IValue _ (VString s) =>
      if String.eqb s "true" then (true, None)
      else if String.eqb s "false" then (false, None)
      else (false, cannot "bool")
  | _ => (false, cannot "bool")
  end.

Definition toStr (i : iface) : string * option error :=
  match i with
  | INil => ("", None)
  | IValue _ (VString s) => (s, None)
  | _ => ("", cannot "string")
  end.

Definition toFloat (i : iface) : Z * option error :=
  match i with
  | INil => (0, None)
  | IValue _ (VFloat z) => (z, None)
  | _ => (0, cannot "float64")
  end.

Definition toSlice {A} (pick : Val -> option A) (what : string) (i : iface)
    : option (list A) * option error :=
  match i with
  | IValue (TSlice _) (VSlice (Some l)) =>
      match mapM pick l with
      | Some l' => (Some l', None)
      | None => (None, cannot what)
      end
  | _ => (None, cannot what)
  end.

Definition pick_with {A} (f : iface -> A * option error) (v : Val) : option A :=
  match f (IValue TInterface v) with
  | (x, None) => Some x
  | (_, Some _) => None
  end.

Definition cast : Caster := {|
  ToBoolE := toBool;
  ToInt64E := toInt64;
  ToUint64E := toUint64;
  ToFloat64E := toFloat;
  ToStringE := toStr;
  ToBoolSliceE := toSlice (pick_with toBool) "[]bool";
  ToIntSliceE := toSlice (pick_with toInt) "[]int";
  toInt32SliceE := toSlice (pick_with toInt) "[]int32";
  toInt64SliceE := toSlice (pick_with toInt) "[]int64";
  toFloat32SliceE := toSlice (pick_with toFloat) "[]float32";
  toFloat64SliceE := toSlice (pick_with toFloat) "[]float64";
  ToStringSliceE := toSlice (pick_with toStr) "[]string";
  ToBool := fun i => (toBool i).1;
  ToInt64 := fun i => (toInt64 i).1;
  ToUint64 := fun i => (toUint64 i).1;
  ToFloat64 := fun i => (toFloat i).1;
  ToString := fun i => (toStr i).1;
  ToBoolSlice := fun i => (toSlice (pick_with toBool) "[]bool" i).1;
  ToIntSlice := fun i => (toSlice (pick_with toInt) "[]int" i).1;
  toInt32Slice := fun i => (toSlice (pick_with toInt) "[]int32" i).1;
  toInt64Slice := fun i => (toSlice (pick_with toInt) "[]int64" i).1;
  toFloat32Slice := fun i => (toSlice (pick_with toFloat) "[]float32" i).1;
  toFloat64Slice := fun i => (toSlice (pick_with toFloat) "[]float64" i).1;
  ToStringSlice := fun i => (toSlice (pick_with toStr) "[]string" i).1
|}.

Definition ext : Externals := {|
  ext_Find := Find;
  ext_Text := Text;
  ext_TrimSpace := TrimSpace;
  ext_newTag := newTag;
  ext_value_methods := value_methods;
  ext_pointer_methods := pointer_methods;
  ext_cast := cast;
  ext_to_float32 := fun z => z;
  ext_Convert_other := fun _ _ _ => None
|}.

Definition config (strict : bool) : Config := mkConfig "pagser" "->" strict false.

(** The engine, with lenient or strict casts. *)
Definition engine (strict : bool) : Pagser := mkPagser (config strict) mapFuncs.

Definition tagged (tagValue : string) : list (string * string) := [("pagser", tagValue)].

Definition tstring : GoType := TBasic String.

Definition SubPageData : GoType :=
  TStruct "SubPageData"
    [ mkField "Text" (tagged "->text()") tstring;
      mkField "SubFuncValue" (tagged "->SubFunc()") tstring;
      mkField "ParentFuncValue" (tagged "->ParentFunc()") tstring;
      mkField "SameFuncValue" (tagged "->SameFunc()") tstring ].

Definition ParseData : GoType :=
  TStruct "ParseData"
    [ mkField "H1" (tagged "h1") tstring;
      mkField "SameFuncValue" (tagged "h1->SameFunc()") tstring;
      mkField "MyGlobalFuncValue" (tagged "h1->MyGlobFunc()") tstring;
      mkField "FillFieldFuncValue" (tagged "h1->FillFieldFunc()") tstring;
      mkField "FillFieldOtherValue" [] tstring;
      mkField "Ignored" (tagged "-") tstring;
      mkField "NavTextList" (tagged "li") (TSlice tstring);
      mkField "NavSize" (tagged "li->size()") (TBasic Int);
      mkField "NavFirst" (tagged "li->first()") SubPageData;
      mkField "SubPageDataList" (tagged "li") (TSlice (TPointer SubPageData)) ].

Definition li (id text : string) : Node :=
  Element "li" [("id", id)] [Element "a" [("href", "/")] [TextNode text]].

Definition document : Selection :=
  [ Element "html" []
      [ Element "h1" [] [TextNode " Pagser H1 Title "];
        Element "ul" [] [li "" "Index"; li "2" "Web page"; li "3" "Pc Page"] ] ].

(** [&data] for a zero [data]. *)
Definition target (t : GoType) : Val := VPtr (Some (zero t)).

End Example.

(** Further targets for the examples. *)


(** A struct whose second field names a function that does not exist. *)
Definition Broken : GoType :=
  TStruct "Broken"
    [ mkField "Title" (Example.tagged "h1") Example.tstring;
      mkField "X" (Example.tagged "h1->NoSuchFunc()") Example.tstring;
      mkField "After" (Example.tagged "h1") Example.tstring ].

(** A struct with one slice field. *)
Definition Nav : GoType :=
  TStruct "Nav" [ mkField "Items" (Example.tagged "li") (TSlice Example.tstring) ].

(** Five strings. *)
Definition five : list Val :=
  [VString "a"; VString "b"; VString "c"; VString "d"; VString "e"].

(** * Properties *)

(** ** Kinds *)

Lemma kind_num_inj a b : kind_num a = kind_num b -> a = b.
Proof. destruct a, b; simpl; congruence. Qed.

Lemma kind_eqb_eq a b : kind_eqb a b = true <-> a = b.
Proof.
  unfold kind_eqb. rewrite Nat.eqb_eq. split.
  - apply kind_num_inj.
  - now intros ->.
Qed.

(** ** Running the monad *)

Lemma bind_Ok {A B} (m : M A) (k : A -> M B) st a st' :
  m st = Ok a st' -> bind m k st = k a st'.
Proof. unfold bind. now intros ->. Qed.

Lemma bind_Fail {A B} (m : M A) (k : A -> M B) st e st' :
  m st = Fail e st' -> bind m k st = Fail e st'.
Proof. unfold bind. now intros ->. Qed.


Lemma catch_Ok {A} (m : M A) h st a st' :
  m st = Ok a st' -> catch m h st = Ok a st'.
Proof. unfold catch. now intros ->. Qed.

Lemma catch_Fail {A} (m : M A) h st e st' :
  m st = Fail e st' -> catch m h st = h e st'.
Proof. unfold catch. now intros ->. Qed.

Lemma catch_Panic {A} (m : M A) h st :
  m st = Panic -> catch m h st = Panic.
Proof. unfold catch. now intros ->. Qed.

(** ** Function resolution *)

Section Resolution.

Context (ext : Externals) (p : Pagser).

(** [findMethod] in terms of the declared methods: a value receiver first,
    then a pointer receiver. *)
Lemma findMethod_declared (val : Value) (funcName : string) :
  findMethod ext val funcName =
    match struct_name (rv_type val) with
    | None => None
    | Some name =>
        match ext_value_methods ext name funcName with
        | Some m => Some (ValueMethod (rv_place val) m)
        | None =>
            match ext_pointer_methods ext name funcName with
            | Some m => Some (PointerMethod (rv_place val) m)
            | None => None
            end
        end
    end.
Proof.
  unfold findMethod, MethodByName, Addr_MethodByName.
  destruct (struct_name (rv_type val)) as [name|]; simpl; [|reflexivity].
  destruct (ext_value_methods ext name funcName); simpl; [reflexivity|].
  destruct (ext_pointer_methods ext name funcName); reflexivity.
Qed.

(** The ancestor loop returns the method of the entry with the greatest
    index below [n] that has one. *)
Lemma findInStack_nearest (stackValues : list Value) (funcName : string) :
  forall (n i : nat) (ancestor : Value) (m : Callable),
    (i < n)%nat ->
    stackValues !! i = Some ancestor ->
    findMethod ext ancestor funcName = Some m ->
    (forall (j : nat) (nearer : Value),
        (i < j)%nat -> (j < n)%nat -> stackValues !! j = Some nearer ->
        findMethod ext nearer funcName = None) ->
    findInStack ext stackValues funcName n = Some m.
Proof.
  induction n as [|n IH]; intros i ancestor m Hi Hanc Hm Hnear; [lia|].
  simpl. destruct (decide (i = n)) as [->|Hne].
  - rewrite Hanc, Hm. reflexivity.
  - destruct (stackValues !! n) as [top|] eqn:Htop.
    + rewrite (Hnear n top) by (lia || assumption).
      apply (IH i ancestor m); try assumption; [lia|].
      intros j nearer ? ? ?. apply (Hnear j nearer); (lia || assumption).
    + apply (IH i ancestor m); try assumption; [lia|].
      intros j nearer ? ? ?. apply (Hnear j nearer); (lia || assumption).
Qed.

Lemma findInStack_none (stackValues : list Value) (funcName : string) :
  (forall (i : nat) (ancestor : Value),
      stackValues !! i = Some ancestor ->
      findMethod ext ancestor funcName = None) ->
  forall n : nat, findInStack ext stackValues funcName n = None.
Proof.
  intros Hnone. induction n as [|n IH]; simpl; [reflexivity|].
  destruct (stackValues !! n) as [top|] eqn:Htop; [|exact IH].
  now rewrite (Hnone n top Htop).
Qed.

End Resolution.

(** ** The loop of doParseStruct, one field at a time *)

Section Fields.

Context (ext : Externals) (p : Pagser).

Lemma doParseStruct_cons doParse val selection fieldType rest i stackValues :
  doParseStruct ext p doParse val selection (fieldType :: rest) i stackValues =
  (stackValues' <- doParseField ext p doParse val i fieldType stackValues selection ;;
   doParseStruct ext p doParse val selection rest (S i) stackValues').
Proof. reflexivity. Qed.

(** An error in one iteration is the result of the loop. *)
Lemma doParseStruct_abort doParse val selection fieldType rest i stackValues st e st' :
  doParseField ext p doParse val i fieldType stackValues selection st = Fail e st' ->
  doParseStruct ext p doParse val selection (fieldType :: rest) i stackValues st
  = Fail e st'.
Proof. intros H. rewrite doParseStruct_cons. now apply bind_Fail. Qed.

Lemma doParseStruct_continue doParse val selection fieldType rest i stackValues st
    stackValues' st' :
  doParseField ext p doParse val i fieldType stackValues selection st
  = Ok stackValues' st' ->
  doParseStruct ext p doParse val selection (fieldType :: rest) i stackValues st
  = doParseStruct ext p doParse val selection rest (S i) stackValues' st'.
Proof. intros H. rewrite doParseStruct_cons. now apply bind_Ok. Qed.

(** The iteration for a field with a tag that is not the ignore marker and
    whose expression is [tag]. *)
Lemma doParseField_tagged doParse val i fieldType stackValues selection
    tagValue tag st st1 :
  Tag_Lookup (f_tag fieldType) (TagName (Config_of p)) = Some tagValue ->
  tagValue <> ignoreSymbol ->
  loadTag ext tagValue st = Ok tag st1 ->
  doParseField ext p doParse val i fieldType stackValues selection st =
  (if String.eqb (FuncName tag) "" then
     descend_into doParse val i fieldType tagValue stackValues (node_of ext tag selection)
   else
     callOutValue <- catch (findAndExecFunc ext p val stackValues tag
                                            (node_of ext tag selection))
                           (fun callErr => fail (ErrParseFunc tagValue callErr)) ;;
     match callOutValue with
     | ISelection subNode =>
         descend_into doParse val i fieldType tagValue stackValues subNode
     | _ =>
         catch (setRefectValue ext p (Kind_of (f_type fieldType))
                  (mkValue (child (rv_place val) i) (f_type fieldType)) callOutValue)
               (fun svErr => fail (ErrSetValue tagValue svErr)) ;;;
         ret stackValues
     end) (after_find tag selection st1).
Proof.
  intros Htag Hign Hload. unfold doParseField. rewrite Htag.
  destruct (String.eqb tagValue ignoreSymbol) eqn:E.
  { apply String.eqb_eq in E. contradiction. }
  rewrite (bind_Ok _ _ _ _ _ Hload).
  unfold node_of, after_find.
  destruct (String.eqb (Selector tag) ""); reflexivity.
Qed.

Lemma doParseField_malformed doParse val i fieldType stackValues selection
    tagValue e st st1 :
  Tag_Lookup (f_tag fieldType) (TagName (Config_of p)) = Some tagValue ->
  tagValue <> ignoreSymbol ->
  loadTag ext tagValue st = Fail e st1 ->
  doParseField ext p doParse val i fieldType stackValues selection st = Fail e st1.
Proof.
  intros Htag Hign Hload. unfold doParseField. rewrite Htag.
  destruct (String.eqb tagValue ignoreSymbol) eqn:E.
  { apply String.eqb_eq in E. contradiction. }
  now apply bind_Fail.
Qed.

End Fields.

(** ** C1: the order in which a function name is resolved *)

Section ResolutionOrder.

Context (ext : Externals) (p : Pagser).

(** C1.  For a tag that names a function, [findAndExecFunc] calls, first
    match wins: the method of that name of the struct being populated (a
    value receiver, else a pointer receiver); else the method of the
    ancestor with the greatest index in [stackValues] that has one, that is
    the nearest enclosing one; else the entry of the registry; and when
    there is none it returns the error "method not found", with which the
    iteration of the field and with it the loop over the fields of the
    struct return.  So a method of the struct itself is chosen whatever the
    registry holds, and of two ancestors the nearer one is chosen. *)
Theorem C1_resolution_order (val : Value) (stackValues : list Value)
    (selTag : tagTokenizer) (node : Selection) :
  FuncName selTag <> "" ->
  let funcName := FuncName selTag in
  let ancestors_have_none :=
    forall (i : nat) (ancestor : Value),
      stackValues !! i = Some ancestor -> findMethod ext ancestor funcName = None in
  (* the methods of the struct itself: value receiver, else pointer receiver *)
  (forall name : string, struct_name (rv_type val) = Some name ->
     findMethod ext val funcName =
       match ext_value_methods ext name funcName with
       | Some m => Some (ValueMethod (rv_place val) m)
       | None => option_map (PointerMethod (rv_place val))
                            (ext_pointer_methods ext name funcName)
       end)
  (* 1. its own method, whatever the ancestors and the registry hold *)
  /\ (forall own : Callable,
        findMethod ext val funcName = Some own ->
        findAndExecFunc ext p val stackValues selTag node = execMethod own selTag node)
  (* 2. else the nearest ancestor that has the method *)
  /\ (forall (i : nat) (ancestor : Value) (m : Callable),
        findMethod ext val funcName = None ->
        stackValues !! i = Some ancestor ->
        findMethod ext ancestor funcName = Some m ->
        (forall (j : nat) (nearer : Value),
            (i < j)%nat -> stackValues !! j = Some nearer ->
            findMethod ext nearer funcName = None) ->
        findAndExecFunc ext p val stackValues selTag node = execMethod m selTag node)
  (* 3. else the registry *)
  /\ (forall cfn : CallFunc,
        findMethod ext val funcName = None ->
        ancestors_have_none ->
        mapFuncs_of p !! funcName = Some cfn ->
        findAndExecFunc ext p val stackValues selTag node =
          match cfn node (FuncParams selTag) with
          | (_, Some err) => fail (ErrCallRegistered funcName err)
          | (outValue, None) => ret outValue
          end)
  (* 4. else the error, which ends the loop over the fields *)
  /\ (findMethod ext val funcName = None ->
      ancestors_have_none ->
      mapFuncs_of p !! funcName = None ->
      (forall st : State,
          findAndExecFunc ext p val stackValues selTag node st
          = Fail (ErrMethodNotFound funcName) st)
      /\ (forall (doParse : Rec) (selection : Selection) (i : nat) (fieldType : Field)
                 (rest : list Field) (tagValue : string) (st st1 : State),
             Tag_Lookup (f_tag fieldType) (TagName (Config_of p)) = Some tagValue ->
             tagValue <> ignoreSymbol ->
             loadTag ext tagValue st = Ok selTag st1 ->
             node = node_of ext selTag selection ->
             doParseStruct ext p doParse val selection (fieldType :: rest) i stackValues st
             = Fail (ErrParseFunc tagValue (ErrMethodNotFound funcName))
                    (after_find selTag selection st1))).
Proof.
  intros Hname funcName ancestors_have_none.
  assert (Hne : String.eqb (FuncName selTag) "" = false)
    by (now apply String.eqb_neq).
  assert (Hnone : findMethod ext val funcName = None -> ancestors_have_none ->
                  mapFuncs_of p !! funcName = None ->
                  forall st : State,
                    findAndExecFunc ext p val stackValues selTag node st
                    = Fail (ErrMethodNotFound funcName) st).
  { intros Hval Hstack Hreg st. unfold findAndExecFunc. rewrite Hne.
    fold funcName. rewrite Hval.
    rewrite (findInStack_none ext stackValues funcName Hstack).
    now rewrite Hreg. }
  split; [|split; [|split; [|split]]].
  - intros name Hs. rewrite findMethod_declared, Hs.
    destruct (ext_value_methods ext name funcName); [reflexivity|].
    destruct (ext_pointer_methods ext name funcName); reflexivity.
  - intros own Hown. unfold findAndExecFunc. rewrite Hne.
    fold funcName. now rewrite Hown.
  - intros i ancestor m Hval Hanc Hm Hnear.
    unfold findAndExecFunc. rewrite Hne. fold funcName. rewrite Hval.
    rewrite (findInStack_nearest ext stackValues funcName
               (length stackValues) i ancestor m); try assumption.
    + reflexivity.
    + now apply lookup_lt_Some in Hanc.
    + intros j nearer Hij _ Hj. now apply (Hnear j nearer).
  - intros cfn Hval Hstack Hreg.
    unfold findAndExecFunc. rewrite Hne. fold funcName. rewrite Hval.
    rewrite (findInStack_none ext stackValues funcName Hstack).
    rewrite Hreg. reflexivity.
  - intros Hval Hstack Hreg. split; [now apply Hnone|].
    intros doParse selection i fieldType rest tagValue st st1 Htag Hign Hload ->.
    apply doParseStruct_abort.
    rewrite (doParseField_tagged ext p doParse val i fieldType stackValues
               selection tagValue selTag st st1 Htag Hign Hload).
    rewrite Hne. apply bind_Fail.
    rewrite (catch_Fail _ _ _ (ErrMethodNotFound funcName)
               (after_find selTag selection st1)); [reflexivity|].
    now apply Hnone.
Qed.

End ResolutionOrder.

(** A witness of C1 in the example program: [SameFunc] is a method of
    [ParseData] and an entry of the registry, and the method is called. *)
Lemma C1_resolution_order_witness :
  let val := mkValue (mkPlace Root [0%nat]) Example.ParseData in
  let selTag := mkTag "h1" "SameFunc" [] in
  is_Some (mapFuncs_of (Example.engine false) !! "SameFunc")
  /\ exists own : Callable,
       findMethod Example.ext val "SameFunc" = Some own
       /\ findAndExecFunc Example.ext (Example.engine false) val [] selTag Example.document
          = execMethod own selTag Example.document.
Proof.
  intros val selTag. split.
  - vm_compute. eexists. reflexivity.
  - eexists. split; [reflexivity|].
    apply (C1_resolution_order Example.ext (Example.engine false) val [] selTag
             Example.document); [discriminate | reflexivity].
Defined.

(** ** C2: what the iteration does with the value a function returns *)

Section FunctionOutcome.

Context (ext : Externals) (p : Pagser).


End FunctionOutcome.


(** ** Reading after writing *)

Lemma read_write_val (path : list nat) (new : Val) :
  forall v v' : Val, write_val path new v = Some v' -> read_val path v' = Some new.
Proof.
  induction path as [|i r IH]; intros v v' Hw; simpl in *.
  - congruence.
  - destruct v as [| | | | |[x|]|[l|]|l|fs| | |]; try discriminate.
    + destruct i; [|discriminate].
      destruct (write_val r new x) as [x'|] eqn:E; [|discriminate].
      simpl in Hw. injection Hw as <-. now apply (IH x).
    + destruct (l !! i) as [x|] eqn:Hx; [|discriminate]. simpl in Hw.
      destruct (write_val r new x) as [x'|] eqn:E; [|discriminate].
      simpl in Hw. injection Hw as <-. simpl.
      rewrite list_lookup_insert_eq by (now apply lookup_lt_Some in Hx).
      simpl. now apply (IH x).
    + destruct (l !! i) as [x|] eqn:Hx; [|discriminate]. simpl in Hw.
      destruct (write_val r new x) as [x'|] eqn:E; [|discriminate].
      simpl in Hw. injection Hw as <-. simpl.
      rewrite list_lookup_insert_eq by (now apply lookup_lt_Some in Hx).
      simpl. now apply (IH x).
    + destruct (fs !! i) as [x|] eqn:Hx; [|discriminate]. simpl in Hw.
      destruct (write_val r new x) as [x'|] eqn:E; [|discriminate].
      simpl in Hw. injection Hw as <-. simpl.
      rewrite list_lookup_insert_eq by (now apply lookup_lt_Some in Hx).
      simpl. now apply (IH x).
Qed.

(** A place that can be read can be written. *)
Lemma write_val_total (path : list nat) (new : Val) :
  forall v old : Val, read_val path v = Some old ->
                      exists v' : Val, write_val path new v = Some v'.
Proof.
  induction path as [|i r IH]; intros v old Hr; simpl in *.
  - eauto.
  - destruct v as [| | | | |[x|]|[l|]|l|fs| | |]; try discriminate.
    + destruct i; [|discriminate].
      destruct (IH x old Hr) as [x' ->]. simpl. eauto.
    + destruct (l !! i) as [x|] eqn:Hx; [|discriminate]. simpl in *.
      destruct (IH x old Hr) as [x' ->]. simpl. eauto.
    + destruct (l !! i) as [x|] eqn:Hx; [|discriminate]. simpl in *.
      destruct (IH x old Hr) as [x' ->]. simpl. eauto.
    + destruct (fs !! i) as [x|] eqn:Hx; [|discriminate]. simpl in *.
      destruct (IH x old Hr) as [x' ->]. simpl. eauto.
Qed.

Lemma base_val_set_base (b : Base) (v old : Val) (st : State) :
  base_val b st = Some old -> base_val b (set_base b v st) = Some v.
Proof.
  destruct b as [|k]; simpl; [reflexivity|]. intros H.
  apply list_lookup_insert_eq. now apply lookup_lt_Some in H.
Qed.

Lemma read_write (pl : Place) (new : Val) (st st' : State) :
  write pl new st = Some st' -> read pl st' = Some new.
Proof.
  unfold write, read. intros H.
  destruct (base_val (p_base pl) st) as [b|] eqn:Hb; [|discriminate]. simpl in H.
  destruct (write_val (p_path pl) new b) as [b'|] eqn:Hw; [|discriminate].
  simpl in H. injection H as <-.
  rewrite (base_val_set_base _ _ _ _ Hb). simpl.
  now apply (read_write_val _ _ b).
Qed.

Lemma write_total (pl : Place) (new old : Val) (st : State) :
  read pl st = Some old -> exists st' : State, write pl new st = Some st'.
Proof.
  unfold write, read. intros H.
  destruct (base_val (p_base pl) st) as [b|] eqn:Hb; [|discriminate]. simpl in *.
  destruct (write_val_total _ new _ _ H) as [b' ->]. simpl. eauto.
Qed.

(** A write changes the target or the slices under construction, nothing
    else. *)
Lemma write_keeps (pl : Place) (new : Val) (st st' : State) :
  write pl new st = Some st' ->
  st_mapTags st' = st_mapTags st /\ st_finds st' = st_finds st
  /\ st_out st' = st_out st.
Proof.
  unfold write. intros H.
  destruct (base_val (p_base pl) st) as [b|]; [|discriminate]. simpl in H.
  destruct (write_val (p_path pl) new b) as [b'|]; [|discriminate].
  simpl in H. injection H as <-. now destruct (p_base pl).
Qed.

(** ** C7: fields without tag, fields with the ignore marker *)

Section Skip.

Context (ext : Externals) (p : Pagser).

(** C7.  For a field that has no tag under the configured tag name, or
    whose tag is the ignore marker "-", the iteration returns without
    error: the target, the slices under construction, the tag cache and the
    list of [Find] calls are as before (only the Debug output gains the
    name of a field without tag), so the field keeps its value, the
    ancestor stack is unchanged, and the loop goes on with the next field
    from there. *)
Theorem C7_skipped_field (doParse : Rec) (val : Value) (i : nat)
    (fieldType : Field) (rest : list Field) (stackValues : list Value)
    (selection : Selection) (st : State) :
  let missing := Tag_Lookup (f_tag fieldType) (TagName (Config_of p)) = None in
  let ignored := Tag_Lookup (f_tag fieldType) (TagName (Config_of p)) = Some ignoreSymbol in
  missing \/ ignored ->
  exists st' : State,
    doParseField ext p doParse val i fieldType stackValues selection st
    = Ok stackValues st'
    /\ st_root st' = st_root st
    /\ st_temps st' = st_temps st
    /\ st_mapTags st' = st_mapTags st
    /\ st_finds st' = st_finds st
    /\ (ignored \/ Debug (Config_of p) = false -> st' = st)
    /\ read (child (rv_place val) i) st' = read (child (rv_place val) i) st
    /\ doParseStruct ext p doParse val selection (fieldType :: rest) i stackValues st
       = doParseStruct ext p doParse val selection rest (S i) stackValues st'.
Proof.
  intros missing ignored Hskip.
  assert (Hstep : exists st' : State,
    doParseField ext p doParse val i fieldType stackValues selection st
    = Ok stackValues st'
    /\ st_root st' = st_root st /\ st_temps st' = st_temps st
    /\ st_mapTags st' = st_mapTags st /\ st_finds st' = st_finds st
    /\ (ignored \/ Debug (Config_of p) = false -> st' = st)).
  { unfold doParseField. destruct Hskip as [Hm | Hi].
    - unfold missing in Hm. rewrite Hm.
      destruct (Debug (Config_of p)) eqn:Hd.
      + eexists. split; [reflexivity|]. repeat split.
        intros [Hi | Hf]; [|discriminate].
        unfold ignored in Hi. congruence.
      + exists st. repeat split.
    - unfold ignored in Hi. rewrite Hi. rewrite String.eqb_refl.
      exists st. repeat split. }
  destruct Hstep as (st' & Hrun & Hroot & Htemps & Htags & Hfinds & Hsame).
  exists st'. repeat split; try assumption.
  - unfold read. destruct (p_base (child (rv_place val) i)); simpl;
      now rewrite ?Hroot, ?Htemps.
  - now apply doParseStruct_continue.
Qed.

End Skip.

(** A witness of C7: the field [Ignored string `pagser:"-"`] of the
    example. *)
Lemma C7_skipped_field_witness :
  let val := mkValue (mkPlace Root [0%nat]) Example.ParseData in
  let fieldType := mkField "Ignored" (Example.tagged "-") Example.tstring in
  let st := start (Example.target Example.ParseData) ∅ in
  exists st' : State,
    doParseField Example.ext (Example.engine false) (doParseT Example.ext (Example.engine false))
                 val 5 fieldType [] Example.document st = Ok [] st'
    /\ st' = st.
Proof.
  intros val fieldType st.
  destruct (C7_skipped_field Example.ext (Example.engine false)
              (doParseT Example.ext (Example.engine false)) val 5 fieldType []
              [] Example.document st)
    as (st' & Hrun & _ & _ & _ & _ & Hsame & _).
  - right. reflexivity.
  - exists st'. split; [exact Hrun|]. apply Hsame. left. reflexivity.
Defined.

(** ** C5: the checks of the entry point *)

Section EntryPoint.

Context (ext : Externals) (p : Pagser).


(** The nil interface is no value of any kind: [reflect.ValueOf(nil)] is
    the zero Value, the first check sends it to the branch of the
    non-pointer error, and there [val.Type()] panics. *)
Remark ParseSelection_nil_interface (selection : Selection) (st : State) :
  ParseSelection ext p None selection st = Panic.
Proof. reflexivity. Qed.

End EntryPoint.


(** ** C8: a field that is a leaf *)

Section Leaf.

Context (ext : Externals) (p : Pagser).



End Leaf.



(** ** The casters *)

Section Casters.
Context (ext : Externals) (p : Pagser).

Lemma wrap_signed_64_id z : - 2 ^ 63 <= z < 2 ^ 63 -> wrap_signed 64 z = z.
Proof.
  intros H. unfold wrap_signed.
  change (64 - 1) with 63.
  rewrite Z.mod_small; [lia|].
  change (2 ^ 64) with (2 * 2 ^ 63). lia.
Qed.

Lemma wrap_unsigned_64_id z : 0 <= z < 2 ^ 64 -> wrap_unsigned 64 z = z.
Proof. intros H. unfold wrap_unsigned. now apply Z.mod_small. Qed.

Lemma casters_agree (fieldValue : Value) (v : iface) :
  lenient_drops_error (ext_cast ext) ->
  integers_in_range (ext_cast ext) ->
  handled (rv_type fieldValue) = true ->
  forall st : State,
    setRefectValue ext p (Kind_of (rv_type fieldValue)) fieldValue v st
    = setFieldValue ext p fieldValue v st.
Proof.
  intros Hdrop Hrange Hh st.
  pose proof (ToInt64E_range _ Hrange v) as Hi.
  pose proof (ToUint64E_range _ Hrange v) as Hu.
  destruct fieldValue as [pl t]. simpl in *.
  destruct t as [k| | | | | | |elem|]; simpl in Hh; try discriminate.
  - destruct k; simpl in Hh; try discriminate;
      unfold setRefectValue, setFieldValue, castFor, strictly; simpl.
    all: rewrite ?(ToBool_E _ Hdrop), ?(ToInt64_E _ Hdrop), ?(ToUint64_E _ Hdrop),
           ?(ToFloat64_E _ Hdrop), ?(ToString_E _ Hdrop).
    all: unfold SetBool, SetInt, SetUint, SetFloat, SetString; simpl.
    all: rewrite ?(wrap_signed_64_id _ Hi), ?(wrap_unsigned_64_id _ Hu).
    all: destruct (CastError (Config_of p)).
    all: try (destruct (ToBoolE (ext_cast ext) v) as [x [e|]]; reflexivity).
    all: try (destruct (ToInt64E (ext_cast ext) v) as [x [e|]]; reflexivity).
    all: try (destruct (ToUint64E (ext_cast ext) v) as [x [e|]]; reflexivity).
    all: try (destruct (ToFloat64E (ext_cast ext) v) as [x [e|]]; reflexivity).
    all: try (destruct (ToStringE (ext_cast ext) v) as [x [e|]]; reflexivity).
  - destruct elem as [k| | | | | | | |]; simpl in Hh; try discriminate.
    destruct k; simpl in Hh; try discriminate;
      unfold setRefectValue, setFieldValue, castFor, strictly; simpl.
    all: rewrite ?(ToBoolSlice_E _ Hdrop), ?(ToIntSlice_E _ Hdrop),
           ?(toInt32Slice_E _ Hdrop), ?(toInt64Slice_E _ Hdrop),
           ?(toFloat32Slice_E _ Hdrop), ?(toFloat64Slice_E _ Hdrop),
           ?(ToStringSlice_E _ Hdrop).
    all: destruct (CastError (Config_of p)).
    all: try (destruct (ToBoolSliceE (ext_cast ext) v) as [x [e|]]; reflexivity).
    all: try (destruct (ToIntSliceE (ext_cast ext) v) as [x [e|]]; reflexivity).
    all: try (destruct (toInt32SliceE (ext_cast ext) v) as [x [e|]]; reflexivity).
    all: try (destruct (toInt64SliceE (ext_cast ext) v) as [x [e|]]; reflexivity).
    all: try (destruct (toFloat32SliceE (ext_cast ext) v) as [x [e|]]; reflexivity).
    all: try (destruct (toFloat64SliceE (ext_cast ext) v) as [x [e|]]; reflexivity).
    all: try (destruct (ToStringSliceE (ext_cast ext) v) as [x [e|]]; reflexivity).
Qed.

Lemma store_reads (pl : Place) (new old : Val) (st : State) :
  read pl st = Some old ->
  exists st' : State, store pl new st = Ok tt st' /\ read pl st' = Some new.
Proof.
  intros H. destruct (write_total pl new old st H) as [st' Hw].
  exists st'. unfold store. rewrite Hw. split; [reflexivity|].
  now apply (read_write _ _ st).
Qed.

Lemma store_not_Fail (pl : Place) (new : Val) (st : State) e st' :
  store pl new st <> Fail e st'.
Proof. unfold store. now destruct (write pl new st). Qed.






(** C9.  On a field of a handled kind (bool, the integers, the floats,
    string, and the slices of bool, int, int32, int64, float32, float64 and
    string) [setRefectValue], called with the kind of the field as in
    [doParseStruct], and [setFieldValue] have the same outcome for every
    value, with strict casts and without: the same error, the same state
    with the same value in the field, or both panic.  The cast library
    enters with its contract: the function without [E] returns the value
    of the one with [E], and its integers are int64 and uint64 values. *)
Theorem C9_casters_equivalent (fieldValue : Value) (v : iface) (st : State) :
  lenient_drops_error (ext_cast ext) ->
  integers_in_range (ext_cast ext) ->
  handled (rv_type fieldValue) = true ->
  let old := setRefectValue ext p (Kind_of (rv_type fieldValue)) fieldValue v st in
  let new := setFieldValue ext p fieldValue v st in
  old = new
  /\ (forall (e : error) (st' : State), old = Fail e st' <-> new = Fail e st')
  /\ (forall st' : State,
        old = Ok tt st' <-> new = Ok tt st')
  /\ (old = Panic <-> new = Panic).
Proof.
  intros Hdrop Hrange Hh old new.
  assert (Heq : old = new) by (now apply casters_agree).
  split; [exact Heq|]. rewrite Heq. repeat split; trivial.
Qed.

End Casters.

(** The cast library of the example keeps the contract. *)
Lemma Example_cast_drops_error : lenient_drops_error Example.cast.
Proof. split; intros i; reflexivity. Qed.

Lemma Example_cast_in_range : integers_in_range Example.cast.
Proof.
  split; intros i; simpl.
  - unfold wrap_signed.
    pose proof (Z.mod_pos_bound ((Example.toInt i).1 + 2 ^ (64 - 1)) (2 ^ 64)) as H.
    change (64 - 1) with 63 in *. change (2 ^ 64) with (2 * 2 ^ 63) in *. lia.
  - unfold wrap_unsigned. apply Z.mod_pos_bound. lia.
Qed.


(** A witness of C9: the text "300" for a field of kind int8; both casters
    store 44. *)
Lemma C9_casters_equivalent_witness :
  let fieldValue := mkValue (mkPlace Root []) (TBasic Int8) in
  let st := start (VInt 0) ∅ in
  setRefectValue Example.ext (Example.engine false) Int8 fieldValue (Example.str "300") st
  = setFieldValue Example.ext (Example.engine false) fieldValue (Example.str "300") st
  /\ exists st' : State,
       setFieldValue Example.ext (Example.engine false) fieldValue (Example.str "300") st
       = Ok tt st'
       /\ st_root st' = VInt 44.
Proof.
  intros fieldValue st. split.
  - apply (C9_casters_equivalent Example.ext (Example.engine false) fieldValue
             (Example.str "300") st Example_cast_drops_error Example_cast_in_range).
    reflexivity.
  - eexists. split; [vm_compute; reflexivity | reflexivity].
Defined.

(** Outside the handled kinds the two casters differ: into a field of type
    [2]string, [setRefectValue] panics on a []string (a slice is not
    assignable to an array) while [setFieldValue] converts it. *)
Remark casters_differ_on_arrays :
  let fieldValue := mkValue (mkPlace Root []) (TArray 2 Example.tstring) in
  let v := IValue (TSlice Example.tstring) (VSlice (Some [VString "a"; VString "b"])) in
  let st := start (zero (TArray 2 Example.tstring)) ∅ in
  setRefectValue Example.ext (Example.engine false) Array fieldValue v st = Panic
  /\ exists st' : State,
       setFieldValue Example.ext (Example.engine false) fieldValue v st = Ok tt st'
       /\ st_root st' = VArray [VString "a"; VString "b"].
Proof.
  intros fieldValue v st. split; [reflexivity|].
  eexists. split; [vm_compute; reflexivity | reflexivity].
Qed.

(** ** Induction on types, through the fields of structs *)

Section GoType_induction.

Variable P : GoType -> Prop.
Hypothesis P_basic : forall k, P (TBasic k).
Hypothesis P_array : forall n e, P e -> P (TArray n e).
Hypothesis P_chan : forall e, P e -> P (TChan e).
Hypothesis P_func : P TFunc.
Hypothesis P_interface : P TInterface.
Hypothesis P_map : forall k e, P k -> P e -> P (TMap k e).
Hypothesis P_pointer : forall e, P e -> P (TPointer e).
Hypothesis P_slice : forall e, P e -> P (TSlice e).
Hypothesis P_struct :
  forall name fields, Forall (fun f => P (f_type f)) fields -> P (TStruct name fields).

Lemma GoType_fields_ind : forall t : GoType, P t.
Proof.
  fix IH 1. intros [k|n e|e| | |k e|e|e|name fields].
  - apply P_basic.
  - apply P_array, IH.
  - apply P_chan, IH.
  - apply P_func.
  - apply P_interface.
  - apply P_map; apply IH.
  - apply P_pointer, IH.
  - apply P_slice, IH.
  - apply P_struct.
    induction fields as [|[fn ft ty] r IHr]; constructor; [apply IH | exact IHr].
Qed.

End GoType_induction.

(** ** Taking a run apart *)

Lemma bind_Fail_inv {A B} (m : M A) (k : A -> M B) st e st' :
  bind m k st = Fail e st' ->
  m st = Fail e st' \/ exists a st1, m st = Ok a st1 /\ k a st1 = Fail e st'.
Proof.
  unfold bind. destruct (m st) as [a st1|e1 st1|]; intros H.
  - right. eauto.
  - left. now injection H as -> ->.
  - discriminate.
Qed.

Lemma bind_Ok_inv {A B} (m : M A) (k : A -> M B) st b st' :
  bind m k st = Ok b st' ->
  exists a st1, m st = Ok a st1 /\ k a st1 = Ok b st'.
Proof.
  unfold bind. destruct (m st) as [a st1|e1 st1|]; intros H;
    [eauto | discriminate | discriminate].
Qed.

Lemma catch_Fail_inv {A} (m : M A) h st e st' :
  catch m h st = Fail e st' ->
  exists e0 st0, m st = Fail e0 st0 /\ h e0 st0 = Fail e st'.
Proof.
  unfold catch. destruct (m st) as [a st1|e1 st1|]; intros H;
    [discriminate | eauto | discriminate].
Qed.

Lemma catch_Ok_inv {A} (m : M A) h st a st' :
  (forall e0 st0, h e0 st0 <> Ok a st') ->
  catch m h st = Ok a st' -> m st = Ok a st'.
Proof.
  unfold catch. intros Hh. destruct (m st) as [a1 st1|e1 st1|]; intros H;
    [exact H | now destruct (Hh e1 st1) | discriminate].
Qed.

(** ** C6: fatal errors *)

Section Fatal.

Context (ext : Externals) (p : Pagser).

Lemma loadTag_Fail (tagValue : string) (st : State) (e : error) (st' : State) :
  loadTag ext tagValue st = Fail e st' ->
  ext_newTag ext tagValue = inr e /\ st' = st.
Proof.
  unfold loadTag. destruct (st_mapTags st !! tagValue); [discriminate|].
  destruct (ext_newTag ext tagValue); [discriminate|].
  intros H. now injection H as -> ->.
Qed.

Lemma descend_into_Fail (doParse : Rec) val i fieldType tagValue stackValues node
    st e st' :
  descend_into doParse val i fieldType tagValue stackValues node st = Fail e st' ->
  exists e0 : error,
    doParse (f_type fieldType) (child (rv_place val) i) (stackValues ++ [val]) node st
    = Fail e0 st'
    /\ e = ErrParser tagValue (default VOpaque (read (child (rv_place val) i) st')) e0.
Proof.
  unfold descend_into. intros H.
  apply bind_Fail_inv in H as [H | (a & st1 & _ & H)]; [|discriminate].
  apply catch_Fail_inv in H as (e0 & st0 & Hrec & H).
  unfold bind, snapshot, fail in H. injection H as <- <-.
  exists e0. split; [exact Hrec | reflexivity].
Qed.

(** The ways in which the iteration of a field returns an error. *)
Lemma doParseField_Fail (doParse : Rec) val i fieldType stackValues selection
    st e st' :
  doParseField ext p doParse val i fieldType stackValues selection st = Fail e st' ->
  exists tagValue : string,
    Tag_Lookup (f_tag fieldType) (TagName (Config_of p)) = Some tagValue
    /\ tagValue <> ignoreSymbol
    /\ ((* the tag is malformed *)
        ext_newTag ext tagValue = inr e
        \/ (* the function is not found, or fails *)
           (exists (tag : tagTokenizer) (node : Selection) (st1 : State) (e0 : error),
               findAndExecFunc ext p val stackValues tag node st1 = Fail e0 st'
               /\ e = ErrParseFunc tagValue e0)
        \/ (* the strict cast fails *)
           (exists (v : iface) (st1 : State) (e0 : error),
               setRefectValue ext p (Kind_of (f_type fieldType))
                 (mkValue (child (rv_place val) i) (f_type fieldType)) v st1
               = Fail e0 st'
               /\ e = ErrSetValue tagValue e0)
        \/ (* the error comes from inside the field *)
           (exists (node : Selection) (st1 : State) (e0 : error) (fv : Val),
               doParse (f_type fieldType) (child (rv_place val) i)
                       (stackValues ++ [val]) node st1 = Fail e0 st'
               /\ e = ErrParser tagValue fv e0)).
Proof.
  intros H.
  destruct (Tag_Lookup (f_tag fieldType) (TagName (Config_of p)))
    as [tagValue|] eqn:Htag.
  2:{ unfold doParseField in H. rewrite Htag in H.
      destruct (Debug (Config_of p)); discriminate. }
  destruct (String.eqb tagValue ignoreSymbol) eqn:Hign.
  { unfold doParseField in H. rewrite Htag, Hign in H. discriminate. }
  apply String.eqb_neq in Hign.
  exists tagValue. split; [reflexivity|]. split; [exact Hign|].
  destruct (loadTag ext tagValue st) as [tag st1|e1 st1|] eqn:Hload.
  - rewrite (doParseField_tagged ext p doParse val i fieldType stackValues
               selection tagValue tag st st1 Htag Hign Hload) in H.
    destruct (String.eqb (FuncName tag) "").
    + apply descend_into_Fail in H as (e0 & Hrec & ->).
      right. right. right.
      exists (node_of ext tag selection), (after_find tag selection st1), e0.
      eexists. split; [exact Hrec | reflexivity].
    + apply bind_Fail_inv in H as [H | (v & st2 & Hcall & H)].
      * apply catch_Fail_inv in H as (e0 & st0 & Hcall & H).
        injection H as <- <-. right. left.
        exists tag, (node_of ext tag selection), (after_find tag selection st1), e0.
        split; [exact Hcall | reflexivity].
      * destruct v as [|subNode|err|t x].
        2:{ apply descend_into_Fail in H as (e0 & Hrec & ->).
            right. right. right. exists subNode, st2, e0.
            eexists. split; [exact Hrec | reflexivity]. }
        all: apply bind_Fail_inv in H as [H | (a & st3 & _ & H)]; [|discriminate].
        all: apply catch_Fail_inv in H as (e0 & st0 & Hset & H).
        all: injection H as <- <-.
        all: right; right; left.
        all: eexists; exists st2, e0; split; [exact Hset | reflexivity].
  - rewrite (doParseField_malformed ext p doParse val i fieldType stackValues
               selection tagValue e1 st st1 Htag Hign Hload) in H.
    injection H as <- <-. left. now apply loadTag_Fail in Hload.
  - unfold doParseField in H. rewrite Htag in H.
    destruct (String.eqb tagValue ignoreSymbol); [discriminate|].
    unfold bind in H. now rewrite Hload in H.
Qed.

(** An error of the loop over the fields is the error of one of them. *)
Lemma doParseStruct_Fail (doParse : Rec) val selection :
  forall (fields : list Field) (i : nat) (stackValues : list Value)
         (st : State) (e : error) (st' : State),
    doParseStruct ext p doParse val selection fields i stackValues st = Fail e st' ->
    exists (fieldType : Field) (j : nat) (stack : list Value) (st0 : State),
      fieldType ∈ fields
      /\ doParseField ext p doParse val j fieldType stack selection st0 = Fail e st'.
Proof.
  induction fields as [|fieldType rest IH]; intros i stackValues st e st' H.
  - discriminate.
  - rewrite doParseStruct_cons in H.
    apply bind_Fail_inv in H as [H | (stack' & st1 & _ & H)].
    + exists fieldType, i, stackValues, st. split; [left | exact H].
    + apply IH in H as (f & j & stack & st0 & Hin & H).
      exists f, j, stack, st0. split; [now right | exact H].
Qed.

Lemma EachWithBreak_Fail (f : nat -> Selection -> M unit) :
  forall (nodes : list Node) (i : nat) (st : State) (e : error) (st' : State),
    EachWithBreak f nodes i st = Fail e st' ->
    exists (j : nat) (n : Node) (st0 : State), f j [n] st0 = Fail e st'.
Proof.
  induction nodes as [|n rest IH]; intros i st e st' H; simpl in H.
  - discriminate.
  - apply bind_Fail_inv in H as [H | (a & st1 & _ & H)]; eauto.
Qed.

Lemma load_not_Fail (pl : Place) (st : State) e st' : load pl st <> Fail e st'.
Proof. unfold load. now destruct (read pl st). Qed.

Lemma Index_not_Fail (pl : Place) (i : nat) (st : State) e st' :
  Index pl i st <> Fail e st'.
Proof.
  unfold Index, bind, load. destruct (read pl st) as [v|]; [|discriminate].
  destruct v as [| | | | | |[l|]| | | | |]; try discriminate.
  now destruct (i <? length l)%nat.
Qed.

Lemma SetString_not_Fail (fv : Value) (s : string) (st : State) e st' :
  SetString fv s st <> Fail e st'.
Proof.
  unfold SetString. destruct (Kind_of (rv_type fv)); try discriminate.
  apply store_not_Fail.
Qed.

Section Blame.

(** Modelled from the spec: the error of [newTag] for a malformed tag
    carries the raw tag text (section 7 of the specification); the
    tokenizer is outside parse.go. *)
Hypothesis newTag_names_tag :
  forall (raw : string) (e : error),
    ext_newTag ext raw = inr e -> exists cause : error, e = ErrInvalidTag raw cause.

Lemma doParseField_wrapped (doParse : Rec) val i fieldType stackValues selection
    st e st' :
  doParseField ext p doParse val i fieldType stackValues selection st = Fail e st' ->
  exists tagValue : string,
    Tag_Lookup (f_tag fieldType) (TagName (Config_of p)) = Some tagValue
    /\ wrapped_with tagValue e.
Proof.
  intros H. apply doParseField_Fail in H as (tagValue & Htag & _ & H).
  exists tagValue. split; [exact Htag|].
  destruct H as [H | [H | [H | H]]].
  - apply newTag_names_tag in H as [cause ->]. reflexivity.
  - destruct H as (_ & _ & _ & e0 & _ & ->). reflexivity.
  - destruct H as (_ & _ & e0 & _ & ->). reflexivity.
  - destruct H as (_ & _ & e0 & fv & _ & ->). reflexivity.
Qed.

(** Every error of [doParse] blames a field. *)
Lemma doParseT_blames (t : GoType) :
  forall (pl : Place) (stackValues : list Value) (selection : Selection)
         (st : State) (e : error) (st' : State),
    doParseT ext p t pl stackValues selection st = Fail e st' -> blames e.
Proof.
  induction t as [k|n elem IH|elem IH| | |k elem IHk IH|elem IH|elem IH|name fields IH]
    using GoType_fields_ind;
    intros pl stackValues selection st e st' H; simpl in H;
    try (now apply SetString_not_Fail in H).
  - (* pointer *)
    unfold doParsePointer in H. simpl in H.
    apply bind_Fail_inv in H as [H | (ptr & st1 & _ & H)];
      [now apply load_not_Fail in H|].
    apply bind_Fail_inv in H as [H | (a & st2 & _ & H)].
    + destruct ptr as [| | | | |[x|]| | | | | |]; try discriminate.
      now apply store_not_Fail in H.
    + now apply IH in H.
  - (* slice *)
    unfold doParseSlice in H. simpl in H.
    apply bind_Fail_inv in H as [H | (slice & st1 & _ & H)];
      [now apply load_not_Fail in H|].
    destruct slice as [| | | | | |[l|]| | | | |]; try discriminate.
    + apply EachWithBreak_Fail in H as (j & n & st0 & H).
      apply bind_Fail_inv in H as [H | (item & st2 & _ & H)];
        [now apply Index_not_Fail in H | now apply IH in H].
    + apply bind_Fail_inv in H as [H | (k & st2 & _ & H)]; [discriminate|].
      apply bind_Fail_inv in H as [H | (a & st3 & _ & H)].
      * apply EachWithBreak_Fail in H as (j & n & st0 & H).
        apply bind_Fail_inv in H as [H | (item & st4 & _ & H)];
          [now apply Index_not_Fail in H | now apply IH in H].
      * apply bind_Fail_inv in H as [H | (made & st4 & _ & H)];
          [now apply load_not_Fail in H | now apply store_not_Fail in H].
  - (* struct *)
    apply doParseStruct_Fail in H as (fieldType & j & stack & st0 & Hin & H).
    apply doParseField_Fail in H as (tagValue & _ & _ & H).
    destruct H as [H | [H | [H | H]]].
    + apply newTag_names_tag in H as [cause ->]. constructor.
    + destruct H as (_ & _ & _ & e0 & _ & ->). constructor.
    + destruct H as (_ & _ & e0 & _ & ->). constructor.
    + destruct H as (node & st1 & e0 & fv & H & ->). constructor.
      rewrite Forall_forall in IH. now apply (IH fieldType Hin) in H.
Qed.

(** C6.  An error in the iteration of a field carries the raw tag text of
    that field and is, with the state in which it arose, the result of the
    loop over the fields: no later field is looked at.  This holds for a
    malformed tag (the error of the tokenizer is returned as it is), for a
    function that is not found or fails, and for a failed strict cast.  An
    error from inside a field goes up in the same way: it ends the
    iteration of the enclosing field, wrapped with the tag of that field,
    the loop over the nodes of a slice and the step through a pointer, each
    time with the state in which it arose.  So an error of the whole bind
    is an error of the entry checks or a chain of wrappers, one with the
    tag of each enclosing field, down to the field at which the bind
    failed. *)
Theorem C6_fatal_errors :
  (forall (doParse : Rec) (val : Value) (selection : Selection) (i : nat)
          (fieldType : Field) (rest : list Field) (stackValues : list Value)
          (st : State) (e : error) (st' : State),
      doParseField ext p doParse val i fieldType stackValues selection st = Fail e st' ->
      (exists tagValue : string,
          Tag_Lookup (f_tag fieldType) (TagName (Config_of p)) = Some tagValue
          /\ wrapped_with tagValue e)
      /\ doParseStruct ext p doParse val selection (fieldType :: rest) i stackValues st
         = Fail e st')
  /\ (forall (doParse : Rec) (val : Value) (selection : Selection) (i : nat)
             (fieldType : Field) (stackValues : list Value) (tagValue : string)
             (st : State),
        Tag_Lookup (f_tag fieldType) (TagName (Config_of p)) = Some tagValue ->
        tagValue <> ignoreSymbol ->
        let fieldValue := mkValue (child (rv_place val) i) (f_type fieldType) in
        let run := doParseField ext p doParse val i fieldType stackValues selection st in
        (forall (e : error) (st1 : State),
            loadTag ext tagValue st = Fail e st1 -> run = Fail e st1)
        /\ (forall (tag : tagTokenizer) (st1 : State),
              loadTag ext tagValue st = Ok tag st1 ->
              FuncName tag <> "" ->
              let call := findAndExecFunc ext p val stackValues tag
                            (node_of ext tag selection) (after_find tag selection st1) in
              (forall (e : error) (st2 : State),
                  call = Fail e st2 -> run = Fail (ErrParseFunc tagValue e) st2)
              /\ (forall (v : iface) (st2 : State) (e : error) (st3 : State),
                    call = Ok v st2 ->
                    (forall subNode : Selection, v <> ISelection subNode) ->
                    setRefectValue ext p (Kind_of (f_type fieldType)) fieldValue v st2
                    = Fail e st3 ->
                    run = Fail (ErrSetValue tagValue e) st3)))
  /\ (forall (doParse : Rec) (val : Value) (elem : GoType) (i : nat)
             (fieldType : Field) (tagValue : string) (stackValues : list Value)
             (node : Selection) (f : nat -> Selection -> M unit) (n : Node)
             (rest : list Node) (st : State) (e : error) (st' : State),
        (doParse (f_type fieldType) (child (rv_place val) i) (stackValues ++ [val])
                 node st = Fail e st' ->
         descend_into doParse val i fieldType tagValue stackValues node st
         = Fail (ErrParser tagValue
                   (default VOpaque (read (child (rv_place val) i) st')) e) st')
        /\ (f i [n] st = Fail e st' ->
            EachWithBreak f (n :: rest) i st = Fail e st')
        /\ (forall pointee : Val,
              read (rv_place val) st = Some (VPtr (Some pointee)) ->
              doParse elem (child (rv_place val) 0) stackValues node st = Fail e st' ->
              doParsePointer doParse val elem stackValues node st = Fail e st'))
  /\ (forall (t : GoType) (selection : Selection) (st : State) (e : error)
             (st' : State),
        ParseSelection ext p (Some t) selection st = Fail e st' ->
        (e = ErrNonPointer t \/ e = ErrNilTarget t
         \/ exists elem : GoType, e = ErrNotStruct elem)
        \/ blames e).
Proof.
  split; [|split; [|split]].
  - intros doParse val selection i fieldType rest stackValues st e st' H.
    split; [now apply doParseField_wrapped in H | now apply doParseStruct_abort].
  - intros doParse val selection i fieldType stackValues tagValue st Htag Hign
           fieldValue run.
    split.
    + intros e st1 Hload. now apply doParseField_malformed with (tagValue := tagValue).
    + intros tag st1 Hload Hname call.
      assert (Hne : String.eqb (FuncName tag) "" = false)
        by (now apply String.eqb_neq).
      unfold run.
      rewrite (doParseField_tagged ext p doParse val i fieldType stackValues
                 selection tagValue tag st st1 Htag Hign Hload).
      rewrite Hne. fold call. split.
      * intros e st2 Hcall. apply bind_Fail.
        now rewrite (catch_Fail _ _ _ e st2 Hcall).
      * intros v st2 e st3 Hcall Hterminal Hset.
        rewrite (bind_Ok _ _ _ v st2) by (now apply catch_Ok).
        destruct v as [|s| |]; try (now destruct (Hterminal s));
          (apply bind_Fail; now rewrite (catch_Fail _ _ _ e st3 Hset)).
  - intros doParse val elem i fieldType tagValue stackValues node f n rest st e st'.
    split; [|split].
    + intros H. unfold descend_into. apply bind_Fail.
      now rewrite (catch_Fail _ _ _ e st' H).
    + intros H. simpl. now apply bind_Fail.
    + intros pointee Hptr H. unfold doParsePointer.
      rewrite (bind_Ok _ _ _ (VPtr (Some pointee)) st)
        by (unfold load; now rewrite Hptr).
      now rewrite (bind_Ok _ _ _ tt st).
  - intros t selection st e st' H. unfold ParseSelection in H.
    destruct (negb (kind_eqb (Kind_of t) Pointer)).
    { injection H as <- _. left. now left. }
    apply bind_Fail_inv in H as [H | (ptr & st1 & _ & H)];
      [now apply load_not_Fail in H|].
    destruct ptr as [| | | | |[x|]| | | | | |]; try discriminate.
    + destruct (Elem_of t) as [elem|]; [|discriminate].
      destruct (negb (kind_eqb (Kind_of elem) Struct)).
      * injection H as <- _. left. right. right. now exists elem.
      * right. now apply doParseT_blames in H.
    + injection H as <- _. left. right. now left.
Qed.

End Blame.

End Fatal.

Lemma Example_newTag_names_tag (raw : string) (e : error) :
  ext_newTag Example.ext raw = inr e -> exists cause : error, e = ErrInvalidTag raw cause.
Proof.
  simpl. unfold Example.newTag. destruct (Example.assoc Example.tags raw).
  - discriminate.
  - intros H. injection H as <-. eauto.
Qed.

(** A witness of C6: the bind into [Broken] returns an error that blames a
    field; the field before the failing one is filled, the one after it is
    not. *)
Lemma C6_fatal_errors_witness :
  exists (e : error) (st' : State),
    ParseSelection Example.ext (Example.engine true) (Some (TPointer Broken))
                   Example.document (start (Example.target Broken) ∅) = Fail e st'
    /\ blames e
    /\ st_root st' = VPtr (Some (VStruct [VString "Pagser H1 Title"; VString ""; VString ""])).
Proof.
  destruct (ParseSelection Example.ext (Example.engine true) (Some (TPointer Broken))
              Example.document (start (Example.target Broken) ∅))
    as [a st'|e st'|] eqn:Hrun.
  - vm_compute in Hrun. discriminate.
  - exists e, st'. split; [reflexivity|].
    destruct (C6_fatal_errors Example.ext (Example.engine true)
                Example_newTag_names_tag) as (_ & _ & _ & Hwhole).
    split.
    + destruct (Hwhole _ _ _ _ _ Hrun) as [[-> | [-> | [elem ->]]] | Hb];
        [vm_compute in Hrun; discriminate .. | exact Hb].
    + vm_compute in Hrun. now injection Hrun as _ <-.
  - vm_compute in Hrun. discriminate.
Defined.

(** ** The slices under construction keep their length *)

Lemma temps_kept_refl st : temps_kept st st.
Proof. now intros k n. Qed.

Lemma temps_kept_trans st1 st2 st3 :
  temps_kept st1 st2 -> temps_kept st2 st3 -> temps_kept st1 st3.
Proof. intros H12 H23 k n H. now apply H23, H12. Qed.

Lemma keeps_ret {A} (Q : A -> Prop) (a : A) : Q a -> keeps Q (ret a).
Proof. intros HQ st. simpl. split; [apply temps_kept_refl | exact HQ]. Qed.

Lemma keeps_fail {A} (Q : A -> Prop) (e : error) : keeps Q (fail e).
Proof. intros st. apply temps_kept_refl. Qed.

Lemma keeps_panic {A} (Q : A -> Prop) : keeps Q (@panic A).
Proof. now intros st. Qed.

Lemma keeps_bind {A B} (Q : A -> Prop) (R : B -> Prop) (m : M A) (k : A -> M B) :
  keeps Q m -> (forall a, Q a -> keeps R (k a)) -> keeps R (bind m k).
Proof.
  intros Hm Hk st. unfold bind. specialize (Hm st).
  destruct (m st) as [a st1|e st1|]; [|exact Hm|exact I].
  destruct Hm as [H1 HQ]. specialize (Hk a HQ st1).
  destruct (k a st1) as [b st2|e st2|]; [|now apply (temps_kept_trans _ st1)|exact I].
  destruct Hk as [H2 HR]. split; [now apply (temps_kept_trans _ st1) | exact HR].
Qed.

Lemma keeps_catch {A} (Q : A -> Prop) (m : M A) (h : error -> M A) :
  keeps Q m -> (forall e, keeps Q (h e)) -> keeps Q (catch m h).
Proof.
  intros Hm Hh st. unfold catch. specialize (Hm st).
  destruct (m st) as [a st1|e st1|]; [exact Hm| |exact I].
  specialize (Hh e st1).
  destruct (h e st1) as [b st2|e2 st2|]; [|now apply (temps_kept_trans _ st1)|exact I].
  destruct Hh as [H2 HQ]. split; [now apply (temps_kept_trans _ st1) | exact HQ].
Qed.

Lemma keeps_weaken {A} (Q R : A -> Prop) (m : M A) :
  (forall a, Q a -> R a) -> keeps Q m -> keeps R m.
Proof.
  intros HQR Hm st. specialize (Hm st).
  destruct (m st) as [a st1|e st1|]; [|exact Hm|exact I].
  destruct Hm. split; auto.
Qed.

Lemma keeps_load (pl : Place) : keeps (fun _ => True) (load pl).
Proof.
  intros st. unfold load. destruct (read pl st); [|exact I].
  split; [apply temps_kept_refl | exact I].
Qed.

Lemma write_val_slice_len (i : nat) (r : list nat) (new v v' : Val) (n : nat) :
  write_val (i :: r) new v = Some v' ->
  slice_len (Some v) = Some n -> slice_len (Some v') = Some n.
Proof.
  simpl. destruct v as [| | | | | |[l|]| | | | |]; try discriminate.
  destruct (l !! i) as [x|]; [|discriminate]. simpl.
  destruct (write_val r new x) as [x'|]; [|discriminate]. simpl.
  intros H. injection H as <-. simpl. now rewrite length_insert.
Qed.

Lemma write_kept (pl : Place) (new : Val) (st st' : State) :
  proper pl -> write pl new st = Some st' -> temps_kept st st'.
Proof.
  unfold proper, write. destruct pl as [[|k0] path]; simpl; intros Hp H.
  - destruct (write_val path new (st_root st)); [|discriminate].
    simpl in H. injection H as <-. now intros k n.
  - destruct (st_temps st !! k0) as [b|] eqn:Hb; [|discriminate]. simpl in H.
    destruct (write_val path new b) as [b'|] eqn:Hw; [|discriminate].
    simpl in H. injection H as <-. intros k n. simpl.
    destruct (decide (k = k0)) as [->|Hne].
    + rewrite Hb. rewrite list_lookup_insert_eq by (now apply lookup_lt_Some in Hb).
      destruct path as [|i r]; [contradiction|].
      now apply write_val_slice_len with (1 := Hw).
    + now rewrite list_lookup_insert_ne.
Qed.

Lemma keeps_store (pl : Place) (new : Val) :
  proper pl -> keeps (fun _ => True) (store pl new).
Proof.
  intros Hp st. unfold store. destruct (write pl new st) as [st'|] eqn:Hw; [|exact I].
  split; [now apply (write_kept pl new) | exact I].
Qed.

Lemma proper_child (pl : Place) (i : nat) : proper (child pl i).
Proof.
  unfold proper, child. simpl. destruct (p_base pl); [exact I|].
  now destruct (p_path pl).
Qed.

Section Keeps.

Context (ext : Externals) (p : Pagser).

Lemma keeps_find (selection : Selection) (selector : string) :
  keeps (fun _ => True) (find ext selection selector).
Proof. intros st. simpl. split; [now intros k n | exact I]. Qed.

Lemma keeps_printMissingTag (name : string) :
  keeps (fun _ => True) (printMissingTag name).
Proof. intros st. simpl. split; [now intros k n | exact I]. Qed.

Lemma keeps_loadTag (tagValue : string) :
  keeps (fun _ => True) (loadTag ext tagValue).
Proof.
  intros st. unfold loadTag. destruct (st_mapTags st !! tagValue).
  - split; [apply temps_kept_refl | exact I].
  - destruct (ext_newTag ext tagValue); simpl.
    + split; [now intros k n | exact I].
    + apply temps_kept_refl.
Qed.

Lemma keeps_snapshot (pl : Place) : keeps (fun _ => True) (snapshot pl).
Proof. intros st. simpl. split; [apply temps_kept_refl | exact I]. Qed.

Lemma keeps_MakeSlice (elem : GoType) (len : nat) :
  keeps (fun _ => True) (MakeSlice elem len).
Proof.
  intros st. simpl. split; [|exact I]. intros k n H. simpl.
  destruct (st_temps st !! k) as [v|] eqn:Hk; [|discriminate].
  now rewrite (lookup_app_l_Some _ _ _ _ Hk).
Qed.

Lemma keeps_Index (pl : Place) (i : nat) : keeps proper (Index pl i).
Proof.
  unfold Index. apply (keeps_bind (fun _ => True)); [apply keeps_load|].
  intros s _. destruct s as [| | | | | |[l|]| | | | |]; try apply keeps_panic.
  destruct (i <? length l)%nat; [|apply keeps_panic].
  apply keeps_ret, proper_child.
Qed.

Lemma keeps_SetValue (fv : Value) (v : iface) :
  proper (rv_place fv) -> keeps (fun _ => True) (SetValue fv v).
Proof.
  intros Hp. unfold SetValue. destruct v as [|s|e|t x]; try apply keeps_panic.
  - destruct (rv_type fv); try apply keeps_panic. now apply keeps_store.
  - destruct (rv_type fv); try apply keeps_panic. now apply keeps_store.
  - destruct (type_eqb t (rv_type fv)); [now apply keeps_store|].
    destruct (rv_type fv); try apply keeps_panic. now apply keeps_store.
Qed.

Lemma keeps_strictly {A} (r : A * option error) (k : A -> M unit) :
  (forall a, keeps (fun _ => True) (k a)) -> keeps (fun _ => True) (strictly r k).
Proof. intros Hk. unfold strictly. destruct r.2; [apply keeps_fail | apply Hk]. Qed.

Lemma keeps_setRefectValue (kind : Kind) (fv : Value) (v : iface) :
  proper (rv_place fv) -> keeps (fun _ => True) (setRefectValue ext p kind fv v).
Proof.
  intros Hp.
  assert (HB : forall x, keeps (fun _ => True) (SetBool fv x)).
  { intros x. unfold SetBool.
    destruct (Kind_of (rv_type fv)); try apply keeps_panic. now apply keeps_store. }
  assert (HI : forall x, keeps (fun _ => True) (SetInt fv x)).
  { intros x. unfold SetInt.
    destruct (int_bits (Kind_of (rv_type fv))); [now apply keeps_store | apply keeps_panic]. }
  assert (HU : forall x, keeps (fun _ => True) (SetUint fv x)).
  { intros x. unfold SetUint.
    destruct (uint_bits (Kind_of (rv_type fv))); [now apply keeps_store | apply keeps_panic]. }
  assert (HF : forall x, keeps (fun _ => True) (SetFloat ext fv x)).
  { intros x. unfold SetFloat.
    destruct (Kind_of (rv_type fv)); try apply keeps_panic; now apply keeps_store. }
  assert (HS : forall x, keeps (fun _ => True) (SetString fv x)).
  { intros x. unfold SetString.
    destruct (Kind_of (rv_type fv)); try apply keeps_panic. now apply keeps_store. }
  assert (HV : forall x, keeps (fun _ => True) (SetValue fv x))
    by (intros x; now apply keeps_SetValue).
  unfold setRefectValue.
  repeat match goal with
         | |- keeps _ (if ?c then _ else _) => destruct c
         end;
    try apply keeps_strictly; auto.
  destruct (Elem_of (rv_type fv)); [|apply keeps_panic].
  destruct (Kind_of g); destruct (CastError (Config_of p));
    try apply keeps_strictly; auto.
Qed.

Lemma findMethod_proper (val : Value) (funcName : string) (c : Callable) :
  proper (rv_place val) -> findMethod ext val funcName = Some c -> proper_callable c.
Proof.
  intros Hp. rewrite findMethod_declared.
  destruct (struct_name (rv_type val)); [|discriminate].
  destruct (ext_value_methods ext s funcName).
  - intros H. now injection H as <-.
  - destruct (ext_pointer_methods ext s funcName); [|discriminate].
    intros H. now injection H as <-.
Qed.

Lemma findInStack_proper (stackValues : list Value) (funcName : string) (c : Callable) :
  proper_stack stackValues ->
  forall n : nat,
    findInStack ext stackValues funcName n = Some c -> proper_callable c.
Proof.
  intros Hs. induction n as [|n IH]; simpl; [discriminate|].
  destruct (stackValues !! n) as [ancestor|] eqn:Hn; [|exact IH].
  destruct (findMethod ext ancestor funcName) as [c'|] eqn:Hm; [|exact IH].
  intros H. injection H as <-.
  apply (findMethod_proper ancestor funcName); [|exact Hm].
  unfold proper_stack in Hs. rewrite Forall_lookup in Hs. now apply (Hs n).
Qed.

Lemma keeps_checkReturns (funcName : string) (callReturns : list iface) :
  keeps (fun _ => True) (checkReturns funcName callReturns).
Proof.
  unfold checkReturns. destruct callReturns as [|first rest]; [apply keeps_fail|].
  destruct rest; [now apply keeps_ret|].
  destruct (last (first :: i :: rest)) as [[| | |]|];
    (now apply keeps_ret) || apply keeps_fail.
Qed.

Lemma keeps_execMethod (c : Callable) (selTag : tagTokenizer) (node : Selection) :
  proper_callable c -> keeps (fun _ => True) (execMethod c selTag node).
Proof.
  intros Hp. destruct c as [recv m|recv m]; simpl in *.
  - apply (keeps_bind (fun _ => True)); [apply keeps_load|].
    intros self _. apply keeps_checkReturns.
  - apply (keeps_bind (fun _ => True)); [apply keeps_load|].
    intros self _. apply (keeps_bind (fun _ => True)); [now apply keeps_store|].
    intros _ _. apply keeps_checkReturns.
Qed.

Lemma keeps_findAndExecFunc (val : Value) (stackValues : list Value)
    (selTag : tagTokenizer) (node : Selection) :
  proper (rv_place val) -> proper_stack stackValues ->
  keeps (fun _ => True) (findAndExecFunc ext p val stackValues selTag node).
Proof.
  intros Hp Hs. unfold findAndExecFunc.
  destruct (String.eqb (FuncName selTag) ""); [now apply keeps_ret|].
  destruct (findMethod ext val (FuncName selTag)) as [c|] eqn:Hown.
  { apply keeps_execMethod. now apply (findMethod_proper val (FuncName selTag)). }
  destruct (findInStack ext stackValues (FuncName selTag) (length stackValues))
    as [c|] eqn:Hanc.
  { apply keeps_execMethod.
    now apply (findInStack_proper stackValues (FuncName selTag) c Hs
                 (length stackValues)). }
  destruct (mapFuncs_of p !! FuncName selTag) as [cfn|]; [|apply keeps_fail].
  destruct (cfn node (FuncParams selTag)) as [out [err|]];
    [apply keeps_fail | now apply keeps_ret].
Qed.

Lemma proper_stack_push (stackValues : list Value) (val : Value) :
  proper_stack stackValues -> proper (rv_place val) ->
  proper_stack (stackValues ++ [val]).
Proof.
  intros Hs Hp. unfold proper_stack. rewrite Forall_app. split; [exact Hs|].
  now constructor.
Qed.

Lemma keeps_doParseField (doParse : Rec) (val : Value) (i : nat) (fieldType : Field)
    (stackValues : list Value) (selection : Selection) :
  rec_keeps doParse (f_type fieldType) ->
  proper (rv_place val) -> proper_stack stackValues ->
  keeps proper_stack
        (doParseField ext p doParse val i fieldType stackValues selection).
Proof.
  intros Hrec Hp Hs. unfold doParseField.
  destruct (Tag_Lookup (f_tag fieldType) (TagName (Config_of p))) as [tagValue|].
  2:{ apply (keeps_bind (fun _ => True)); [|intros _ _; now apply keeps_ret].
      destruct (Debug (Config_of p));
        [apply keeps_printMissingTag | now apply keeps_ret]. }
  destruct (String.eqb tagValue ignoreSymbol); [now apply keeps_ret|].
  apply (keeps_bind (fun _ => True)); [apply keeps_loadTag|]. intros tag _.
  apply (keeps_bind (fun _ => True)).
  { destruct (String.eqb (Selector tag) ""); [now apply keeps_ret | apply keeps_find]. }
  intros node _.
  assert (Hdescend : forall node' : Selection,
    keeps proper_stack
      (catch (doParse (f_type fieldType) (child (rv_place val) i)
                      (stackValues ++ [val]) node')
             (fun err => fv <- snapshot (child (rv_place val) i) ;;
                         fail (ErrParser tagValue fv err)) ;;;
       ret (stackValues ++ [val]))).
  { intros node'. apply (keeps_bind (fun _ => True)).
    - apply keeps_catch.
      + apply Hrec; [apply proper_child | now apply proper_stack_push].
      + intros e. apply (keeps_bind (fun _ => True)); [apply keeps_snapshot|].
        intros fv _. apply keeps_fail.
    - intros _ _. apply keeps_ret. now apply proper_stack_push. }
  destruct (String.eqb (FuncName tag) ""); [apply Hdescend|].
  apply (keeps_bind (fun _ => True)).
  { apply keeps_catch; [now apply keeps_findAndExecFunc|].
    intros e. apply keeps_fail. }
  intros callOutValue _.
  destruct callOutValue as [|subNode|e|t x]; try apply Hdescend.
  all: apply (keeps_bind (fun _ => True)); [|intros _ _; now apply keeps_ret].
  all: apply keeps_catch; [|intros e'; apply keeps_fail].
  all: apply keeps_setRefectValue; apply proper_child.
Qed.

Lemma keeps_doParseStruct (doParse : Rec) (val : Value) (selection : Selection) :
  proper (rv_place val) ->
  forall (fields : list Field) (i : nat) (stackValues : list Value),
    Forall (fun f => rec_keeps doParse (f_type f)) fields ->
    proper_stack stackValues ->
    keeps (fun _ => True)
          (doParseStruct ext p doParse val selection fields i stackValues).
Proof.
  intros Hp. induction fields as [|fieldType rest IH]; intros i stackValues Hf Hs.
  - now apply keeps_ret.
  - rewrite doParseStruct_cons. inversion Hf as [|? ? Hhead Hrest]; subst.
    apply (keeps_bind proper_stack).
    + now apply keeps_doParseField.
    + intros stack' Hs'. now apply IH.
Qed.

Lemma keeps_EachWithBreak (f : nat -> Selection -> M unit) :
  (forall i sub, keeps (fun _ => True) (f i sub)) ->
  forall (nodes : list Node) (i : nat),
    keeps (fun _ => True) (EachWithBreak f nodes i).
Proof.
  intros Hf. induction nodes as [|n rest IH]; intros i; simpl.
  - now apply keeps_ret.
  - apply (keeps_bind (fun _ => True)); [apply Hf|]. intros _ _. apply IH.
Qed.

Lemma keeps_items (doParse : Rec) (slice : Place) (elem : GoType)
    (stackValues : list Value) (i : nat) (subNode : Selection) :
  rec_keeps doParse elem -> proper_stack stackValues ->
  keeps (fun _ => True)
        (itemValue <- Index slice i ;; doParse elem itemValue stackValues subNode).
Proof.
  intros Hrec Hs. apply (keeps_bind proper); [apply keeps_Index|].
  intros item Hitem. now apply Hrec.
Qed.

(** [doParse] keeps the length of every slice under construction. *)
Lemma doParseT_keeps (t : GoType) : rec_keeps (doParseT ext p) t.
Proof.
  induction t as [k|n elem IH|elem IH| | |k elem IHk IH|elem IH|elem IH|name fields IH]
    using GoType_fields_ind;
    intros pl stackValues selection Hp Hs; simpl.
  1-6: unfold SetString; simpl;
       first [ apply keeps_panic
             | destruct k; simpl; try apply keeps_panic; now apply keeps_store ].
  - (* pointer *)
    unfold doParsePointer. simpl.
    apply (keeps_bind (fun _ => True)); [apply keeps_load|]. intros ptr _.
    apply (keeps_bind (fun _ => True)).
    + destruct ptr as [| | | | |[x|]| | | | | |]; try apply keeps_panic;
        [now apply keeps_ret | now apply keeps_store].
    + intros _ _. apply IH; [apply proper_child | exact Hs].
  - (* slice *)
    unfold doParseSlice. simpl.
    apply (keeps_bind (fun _ => True)); [apply keeps_load|]. intros slice _.
    destruct slice as [| | | | | |[l|]| | | | |]; try apply keeps_panic.
    + apply keeps_EachWithBreak. intros i sub. now apply keeps_items.
    + apply (keeps_bind (fun _ => True)); [apply keeps_MakeSlice|]. intros k _.
      apply (keeps_bind (fun _ => True)).
      * apply keeps_EachWithBreak. intros i sub. now apply keeps_items.
      * intros _ _. apply (keeps_bind (fun _ => True)); [apply keeps_load|].
        intros made _. now apply keeps_store.
  - (* struct *)
    now apply keeps_doParseStruct.
Qed.

End Keeps.

(** ** Writing an element of a slice *)

Lemma write_val_child (path : list nat) (i : nat) (new : Val) :
  forall (b : Val) (l : list Val),
    read_val path b = Some (VSlice (Some l)) ->
    (i < length l)%nat ->
    exists b' : Val,
      write_val (path ++ [i]) new b = Some b'
      /\ read_val path b' = Some (VSlice (Some (<[i := new]> l))).
Proof.
  induction path as [|j r IH]; intros b l Hr Hi; simpl in *.
  - injection Hr as ->. destruct (lookup_lt_is_Some_2 l i Hi) as [x Hx].
    rewrite Hx. simpl. eauto.
  - destruct b as [| | | | |[x|]|[l0|]|l0|fs| | |]; try discriminate.
    + destruct j; [|discriminate].
      destruct (IH x l Hr Hi) as (x' & -> & Hx'). simpl. eexists. split; [reflexivity|].
      exact Hx'.
    + destruct (l0 !! j) as [x|] eqn:Hx; [|discriminate]. simpl in *.
      destruct (IH x l Hr Hi) as (x' & -> & Hx'). simpl. eexists. split; [reflexivity|].
      simpl. rewrite list_lookup_insert_eq by (now apply lookup_lt_Some in Hx).
      exact Hx'.
    + destruct (l0 !! j) as [x|] eqn:Hx; [|discriminate]. simpl in *.
      destruct (IH x l Hr Hi) as (x' & -> & Hx'). simpl. eexists. split; [reflexivity|].
      simpl. rewrite list_lookup_insert_eq by (now apply lookup_lt_Some in Hx).
      exact Hx'.
    + destruct (fs !! j) as [x|] eqn:Hx; [|discriminate]. simpl in *.
      destruct (IH x l Hr Hi) as (x' & -> & Hx'). simpl. eexists. split; [reflexivity|].
      simpl. rewrite list_lookup_insert_eq by (now apply lookup_lt_Some in Hx).
      exact Hx'.
Qed.

Lemma base_val_set_other (b b' : Base) (v : Val) (st : State) :
  b' <> b -> base_val b' (set_base b v st) = base_val b' st.
Proof.
  intros Hne. destruct b as [|k], b' as [|k']; simpl; try reflexivity; try contradiction.
  apply list_lookup_insert_ne. congruence.
Qed.

(** A write at a place leaves what hangs from another base as it was. *)
Lemma write_other_base (pl pl' : Place) (new : Val) (st st' : State) :
  write pl new st = Some st' -> p_base pl' <> p_base pl ->
  read pl' st' = read pl' st.
Proof.
  unfold write, read. intros H Hne.
  destruct (base_val (p_base pl) st) as [b|]; [|discriminate]. simpl in H.
  destruct (write_val (p_path pl) new b) as [b'|]; [|discriminate].
  simpl in H. injection H as <-. now rewrite base_val_set_other.
Qed.

Lemma write_keeps_temps_count (pl : Place) (new : Val) (st st' : State) :
  write pl new st = Some st' -> length (st_temps st') = length (st_temps st).
Proof.
  unfold write. intros H.
  destruct (base_val (p_base pl) st) as [b|]; [|discriminate]. simpl in H.
  destruct (write_val (p_path pl) new b) as [b'|]; [|discriminate].
  simpl in H. injection H as <-. destruct (p_base pl); simpl; [reflexivity|].
  apply length_insert.
Qed.

Lemma write_child (sp : Place) (i : nat) (new : Val) (st : State) (l : list Val) :
  read sp st = Some (VSlice (Some l)) ->
  (i < length l)%nat ->
  exists st' : State,
    write (child sp i) new st = Some st'
    /\ read sp st' = Some (VSlice (Some (<[i := new]> l))).
Proof.
  unfold read, write, child. simpl. intros Hr Hi.
  destruct (base_val (p_base sp) st) as [b|] eqn:Hb; [|discriminate]. simpl in *.
  destruct (write_val_child (p_path sp) i new b l Hr Hi) as (b' & -> & Hb').
  simpl. eexists. split; [reflexivity|].
  rewrite (base_val_set_base _ _ _ _ Hb). exact Hb'.
Qed.

(** ** Overwriting a slice from an index on *)

Lemma overwrite_length (vals : list Val) :
  forall (l : list Val) (i : nat), length (overwrite l i vals) = length l.
Proof.
  induction vals as [|v r IH]; intros l i; simpl; [reflexivity|].
  now rewrite IH, length_insert.
Qed.

Lemma overwrite_take_drop (vals : list Val) :
  forall (l : list Val) (i : nat),
    (i + length vals <= length l)%nat ->
    overwrite l i vals = take i l ++ vals ++ drop (i + length vals) l.
Proof.
  induction vals as [|v r IH]; intros l i Hlen; simpl in *.
  - rewrite Nat.add_0_r. now rewrite take_drop.
  - rewrite IH by (rewrite length_insert; lia).
    rewrite (take_S_r _ _ v) by (apply list_lookup_insert_eq; lia).
    rewrite take_insert_ge by lia.
    rewrite drop_insert_lt by lia.
    rewrite <- app_assoc. simpl.
    now replace (i + S (length r))%nat with (S (i + length r)) by lia.
Qed.

Lemma overwrite_all (vals : list Val) (z : Val) :
  overwrite (replicate (length vals) z) 0 vals = vals.
Proof.
  rewrite overwrite_take_drop by (rewrite length_replicate; lia).
  simpl. rewrite drop_ge by (rewrite length_replicate; lia).
  apply app_nil_r.
Qed.

(** ** The loop over the elements of a slice *)

Section Elements.

Context (ext : Externals) (p : Pagser).

Lemma Index_in_range (sp : Place) (i : nat) (st : State) (l : list Val) :
  read sp st = Some (VSlice (Some l)) -> (i < length l)%nat ->
  Index sp i st = Ok (child sp i) st.
Proof.
  intros Hr Hi. unfold Index, bind, load. rewrite Hr.
  apply Nat.ltb_lt in Hi. now rewrite Hi.
Qed.



Lemma parseItem_string (sp : Place) (stackValues : list Value) (i : nat) (n : Node)
    (st : State) (l : list Val) :
  read sp st = Some (VSlice (Some l)) -> (i < length l)%nat ->
  exists st' : State,
    parseItem (doParseT ext p) sp (TBasic String) stackValues i [n] st = Ok tt st'
    /\ write (child sp i) (element_text ext n) st = Some st'
    /\ read sp st' = Some (VSlice (Some (<[i := element_text ext n]> l))).
Proof.
  intros Hr Hi.
  destruct (write_child sp i (element_text ext n) st l Hr Hi) as (st' & Hw & Hr').
  exists st'. split; [|split; assumption].
  unfold parseItem. rewrite (bind_Ok _ _ _ _ _ (Index_in_range sp i st l Hr Hi)).
  simpl. unfold SetString, store. simpl. unfold element_text in Hw. now rewrite Hw.
Qed.

(** Elements of kind string, enough room: every node fills its element. *)
Lemma each_strings (sp : Place) (stackValues : list Value) :
  forall (nodes : list Node) (i : nat) (l : list Val) (st : State),
    read sp st = Some (VSlice (Some l)) ->
    (i + length nodes <= length l)%nat ->
    exists st' : State,
      EachWithBreak (parseItem (doParseT ext p) sp (TBasic String) stackValues)
                    nodes i st = Ok tt st'
      /\ read sp st' = Some (VSlice (Some (overwrite l i (map (element_text ext) nodes))))
      /\ (forall pl' : Place, p_base pl' <> p_base sp -> read pl' st' = read pl' st)
      /\ length (st_temps st') = length (st_temps st).
Proof.
  induction nodes as [|n rest IH]; intros i l st Hr Hlen; simpl in *.
  - exists st. repeat split. exact Hr.
  - destruct (parseItem_string sp stackValues i n st l Hr) as (st1 & Hstep & Hw & Hr1);
      [lia|].
    destruct (IH (S i) (<[i := element_text ext n]> l) st1 Hr1) as (st' & Hrun & Hr' & Hfr & Hc).
    { rewrite length_insert. lia. }
    exists st'. split; [|split; [exact Hr'|split]].
    + now rewrite (bind_Ok _ _ _ _ _ Hstep).
    + intros pl' Hne. rewrite (Hfr pl' Hne).
      now apply (write_other_base (child sp i) pl' (element_text ext n) st st1 Hw).
    + rewrite Hc.
      now apply (write_keeps_temps_count (child sp i) (element_text ext n) st st1).
Qed.



End Elements.

(** ** C4 and C10: slices *)

Section Slices.

Context (ext : Externals) (p : Pagser).

Lemma read_after_MakeSlice (elem : GoType) (len : nat) (st : State) (pl : Place) (v : Val) :
  read pl st = Some v -> read pl (after_MakeSlice elem len st) = Some v.
Proof.
  unfold read. destruct (p_base pl) as [|k]; simpl; [trivial|].
  destruct (st_temps st !! k) as [b|] eqn:Hb; [|discriminate].
  now rewrite (lookup_app_l_Some _ _ _ _ Hb).
Qed.

Lemma read_new_slice (elem : GoType) (len : nat) (st : State) :
  read (mkPlace (Temp (length (st_temps st))) []) (after_MakeSlice elem len st)
  = Some (VSlice (Some (replicate len (zero elem)))).
Proof. unfold read. simpl. now rewrite list_lookup_middle. Qed.

Lemma readable_base (pl : Place) (st : State) (v : Val) :
  read pl st = Some v ->
  p_base pl <> Temp (length (st_temps st)).
Proof.
  unfold read. destruct (p_base pl) as [|k]; simpl; [discriminate|].
  destruct (st_temps st !! k) as [b|] eqn:Hb; [|discriminate].
  apply lookup_lt_Some in Hb. intros _ H. injection H as ->. lia.
Qed.

Lemma read_temp (k : nat) (st : State) :
  read (mkPlace (Temp k) []) st = st_temps st !! k.
Proof. unfold read. simpl. now destruct (st_temps st !! k). Qed.

(** [doParseSlice] on a nil slice. *)
Lemma doParseSlice_nil (doParse : Rec) (val : Value) (elem : GoType)
    (stackValues : list Value) (selection : Selection) (st : State) :
  read (rv_place val) st = Some (VSlice None) ->
  let slice := mkPlace (Temp (length (st_temps st))) [] in
  doParseSlice doParse val elem stackValues selection st
  = (EachWithBreak (parseItem doParse slice elem stackValues) selection 0 ;;;
     made <- load slice ;;
     store (rv_place val) made) (after_MakeSlice elem (Size selection) st).
Proof.
  intros Hr slice. unfold doParseSlice.
  rewrite (bind_Ok _ _ _ (VSlice None) st) by (unfold load; now rewrite Hr).
  reflexivity.
Qed.

(** [doParseSlice] on a slice that is not nil. *)
Lemma doParseSlice_existing (doParse : Rec) (val : Value) (elem : GoType)
    (stackValues : list Value) (selection : Selection) (st : State) (l : list Val) :
  read (rv_place val) st = Some (VSlice (Some l)) ->
  doParseSlice doParse val elem stackValues selection st
  = EachWithBreak (parseItem doParse (rv_place val) elem stackValues) selection 0 st.
Proof.
  intros Hr. unfold doParseSlice.
  rewrite (bind_Ok _ _ _ (VSlice (Some l)) st) by (unfold load; now rewrite Hr).
  reflexivity.
Qed.

Lemma doParse_slice (val : Value) (elem : GoType) (stackValues : list Value)
    (selection : Selection) :
  rv_type val = TSlice elem ->
  doParse ext p val stackValues selection
  = doParseSlice (doParseT ext p) val elem stackValues selection.
Proof. intros Ht. unfold doParse. rewrite Ht. simpl. now destruct val. Qed.

(** C4, amended.  Binding a slice field that is nil: the binder makes a
    slice with one element for each node of the incoming selection, calls
    [doParse] for index 0, 1, ... in this order on the element with that
    index and the node with that index, and stores the slice in the field
    when no element returned an error.  So a bind that returns without
    error leaves in the field a slice that is not nil and has as many
    elements as the selection has nodes; for no node at all it is the
    empty slice, not nil; and for elements of kind string the elements are
    the trimmed texts of the nodes, in the order of the nodes. *)
Theorem C4_nil_slice (val : Value) (elem : GoType) (stackValues : list Value)
    (selection : Selection) (st : State) :
  rv_type val = TSlice elem ->
  read (rv_place val) st = Some (VSlice None) ->
  proper_stack stackValues ->
  let slice := mkPlace (Temp (length (st_temps st))) [] in
  let run := doParse ext p val stackValues selection st in
  run = (EachWithBreak (parseItem (doParseT ext p) slice elem stackValues) selection 0 ;;;
         made <- load slice ;;
         store (rv_place val) made) (after_MakeSlice elem (Size selection) st)
  /\ (forall st' : State,
        run = Ok tt st' ->
        exists l : list Val,
          read (rv_place val) st' = Some (VSlice (Some l))
          /\ length l = Size selection)
  /\ (selection = [] ->
      exists st' : State,
        run = Ok tt st' /\ read (rv_place val) st' = Some (VSlice (Some [])))
  /\ (elem = TBasic String ->
      exists st' : State,
        run = Ok tt st'
        /\ read (rv_place val) st'
           = Some (VSlice (Some (map (element_text ext) selection)))).
Proof.
  intros Ht Hnil Hstack slice run.
  assert (Hrun : run = (EachWithBreak (parseItem (doParseT ext p) slice elem stackValues)
                                      selection 0 ;;;
                        made <- load slice ;;
                        store (rv_place val) made)
                         (after_MakeSlice elem (Size selection) st)).
  { unfold run. rewrite (doParse_slice val elem stackValues selection Ht).
    now apply doParseSlice_nil. }
  split; [exact Hrun|]. rewrite Hrun. clear run Hrun.
  pose proof (read_new_slice elem (Size selection) st) as Hnew. fold slice in Hnew.
  pose proof (read_after_MakeSlice elem (Size selection) st _ _ Hnil) as Hfield.
  split; [|split].
  - (* the number of elements *)
    intros st' H.
    apply bind_Ok_inv in H as ([] & st2 & Heach & H).
    apply bind_Ok_inv in H as (made & st3 & Hload & Hstore).
    unfold load in Hload. destruct (read slice st2) as [v|] eqn:Hv; [|discriminate].
    injection Hload as E1 E2. subst v st3.
    unfold store in Hstore.
    destruct (write (rv_place val) made st2) as [st4|] eqn:Hw; [|discriminate].
    injection Hstore as E3. subst st4.
    rewrite (read_write _ _ _ _ Hw).
    assert (Hkept : temps_kept (after_MakeSlice elem (Size selection) st) st2).
    { pose proof (keeps_EachWithBreak
                    (parseItem (doParseT ext p) slice elem stackValues)) as Hk.
      specialize (Hk (fun i sub => keeps_items (doParseT ext p) slice elem stackValues
                                     i sub (doParseT_keeps ext p elem) Hstack)
                     selection 0%nat (after_MakeSlice elem (Size selection) st)).
      rewrite Heach in Hk. exact (proj1 Hk). }
    specialize (Hkept (length (st_temps st)) (Size selection)).
    unfold slice in Hnew, Hv. rewrite read_temp in Hnew, Hv.
    rewrite Hnew, Hv in Hkept. simpl in Hkept.
    rewrite length_replicate in Hkept. specialize (Hkept eq_refl).
    destruct made as [| | | | | |[l|]| | | | |]; try discriminate.
    exists l. split; [reflexivity|]. simpl in Hkept. congruence.
  - (* no node *)
    intros ->. simpl.
    destruct (write_total (rv_place val) (VSlice (Some []))
                (VSlice None) (after_MakeSlice elem 0 st) Hfield) as [st' Hw].
    exists st'. split; [|now apply (read_write _ _ _ _ Hw)].
    unfold bind, ret, load. simpl in Hnew. rewrite Hnew.
    unfold store. now rewrite Hw.
  - (* elements of kind string *)
    intros ->.
    destruct (each_strings ext p slice stackValues selection 0
                (replicate (Size selection) (zero (TBasic String)))
                (after_MakeSlice (TBasic String) (Size selection) st) Hnew)
      as (st2 & Heach & Hslice & Hframe & _).
    { rewrite length_replicate. unfold Size. lia. }
    assert (Hall : overwrite (replicate (Size selection) (zero (TBasic String))) 0
                             (map (element_text ext) selection)
                   = map (element_text ext) selection).
    { unfold Size. rewrite <- (length_map (element_text ext) selection).
      apply overwrite_all. }
    rewrite Hall in Hslice.
    assert (Hfield2 : read (rv_place val) st2 = Some (VSlice None)).
    { rewrite Hframe; [exact Hfield|]. simpl. now apply (readable_base _ _ _ Hnil). }
    destruct (write_total (rv_place val)
                (VSlice (Some (map (element_text ext) selection)))
                (VSlice None) st2 Hfield2) as [st' Hw].
    exists st'. split; [|now apply (read_write _ _ _ _ Hw)].
    rewrite (bind_Ok _ _ _ _ _ Heach).
    unfold bind, load. rewrite Hslice. unfold store. now rewrite Hw.
Qed.


End Slices.

(** A witness of C4: the field [NavTextList []string `pagser:"li"`] of the
    example, nil before the bind. *)
Lemma C4_nil_slice_witness :
  let val := mkValue (mkPlace Root [0; 6]%nat) (TSlice Example.tstring) in
  let st := start (Example.target Example.ParseData) ∅ in
  exists st' : State,
    doParse Example.ext (Example.engine false) val []
            (Example.Find Example.document "li") st = Ok tt st'
    /\ read (rv_place val) st'
       = Some (VSlice (Some [VString "Index"; VString "Web page"; VString "Pc Page"])).
Proof.
  intros val st.
  destruct (C4_nil_slice Example.ext (Example.engine false) val Example.tstring []
              (Example.Find Example.document "li") st eq_refl eq_refl
              (List.Forall_nil _))
    as (_ & _ & _ & Hstrings).
  destruct (Hstrings eq_refl) as (st' & Hrun & Hread).
  exists st'. split; [exact Hrun | exact Hread].
Defined.

(** C4 as it is stated fails for a slice field that is not nil: the
    selector matches three nodes, the field holds five elements before the
    bind and five after it. *)
Lemma C4_counterexample :
  Size (Example.Find Example.document "li") = 3%nat
  /\ exists st' : State,
       ParseSelection Example.ext (Example.engine false) (Some (TPointer Nav))
                      Example.document
                      (start (VPtr (Some (VStruct [VSlice (Some five)]))) ∅)
       = Ok tt st'
       /\ st_root st'
          = VPtr (Some (VStruct [VSlice (Some [VString "Index"; VString "Web page";
                                               VString "Pc Page"; VString "d";
                                               VString "e"])])).
Proof.
  split; [reflexivity|].
  eexists. split; [vm_compute; reflexivity | reflexivity].
Qed.


(** * Further properties *)

(** ** A relation kept by the steps is kept by the bind *)

Section Respects.

Context (ext : Externals) (p : Pagser).

Variable R : State -> State -> Prop.
Variable allowed : Place -> Prop.

Hypothesis R_refl : forall st, R st st.
Hypothesis R_trans : forall st1 st2 st3, R st1 st2 -> R st2 st3 -> R st1 st3.
Hypothesis R_write :
  forall pl v st st', allowed pl -> write pl v st = Some st' -> R st st'.
Hypothesis allowed_child : forall pl i, allowed pl -> allowed (child pl i).
Hypothesis allowed_item : forall k i, allowed (mkPlace (Temp k) [i]).
Hypothesis R_find :
  forall selection selector st,
    selector <> "" -> R st (record_find selection selector st).
Hypothesis R_out :
  forall fieldName st,
    Debug (Config_of p) = true -> R st (record_out fieldName st).
Hypothesis R_tag :
  forall tagValue tag st,
    st_mapTags st !! tagValue = None -> ext_newTag ext tagValue = inl tag ->
    R st (record_tag tagValue tag st).
Hypothesis R_MakeSlice : forall elem len st, R st (after_MakeSlice elem len st).

Lemma respects_ret {A} (Q : A -> Prop) (a : A) : Q a -> respects R Q (ret a).
Proof. intros HQ st. simpl. split; [apply R_refl | exact HQ]. Qed.

Lemma respects_fail {A} (Q : A -> Prop) (e : error) : respects R Q (fail e).
Proof. intros st. apply R_refl. Qed.

Lemma respects_panic {A} (Q : A -> Prop) : respects R Q (@panic A).
Proof. now intros st. Qed.

Lemma respects_bind {A B} (Q : A -> Prop) (S : B -> Prop) (m : M A) (k : A -> M B) :
  respects R Q m -> (forall a, Q a -> respects R S (k a)) -> respects R S (bind m k).
Proof.
  intros Hm Hk st. unfold bind. specialize (Hm st).
  destruct (m st) as [a st1|e st1|]; [|exact Hm|exact I].
  destruct Hm as [H1 HQ]. specialize (Hk a HQ st1).
  destruct (k a st1) as [b st2|e st2|]; [|now apply (R_trans _ st1)|exact I].
  destruct Hk as [H2 HS]. split; [now apply (R_trans _ st1) | exact HS].
Qed.

Lemma respects_catch {A} (Q : A -> Prop) (m : M A) (h : error -> M A) :
  respects R Q m -> (forall e, respects R Q (h e)) -> respects R Q (catch m h).
Proof.
  intros Hm Hh st. unfold catch. specialize (Hm st).
  destruct (m st) as [a st1|e st1|]; [exact Hm| |exact I].
  specialize (Hh e st1).
  destruct (h e st1) as [b st2|e2 st2|]; [|now apply (R_trans _ st1)|exact I].
  destruct Hh as [H2 HQ]. split; [now apply (R_trans _ st1) | exact HQ].
Qed.

Lemma respects_load (pl : Place) : respects R (fun _ => True) (load pl).
Proof.
  intros st. unfold load. destruct (read pl st); [|exact I].
  split; [apply R_refl | exact I].
Qed.

Lemma respects_store (pl : Place) (new : Val) :
  allowed pl -> respects R (fun _ => True) (store pl new).
Proof.
  intros Hp st. unfold store. destruct (write pl new st) as [st'|] eqn:Hw; [|exact I].
  split; [now apply (R_write pl new) | exact I].
Qed.

Lemma respects_find (selection : Selection) (selector : string) :
  selector <> "" -> respects R (fun _ => True) (find ext selection selector).
Proof. intros Hs st. simpl. split; [now apply R_find | exact I]. Qed.

Lemma respects_printMissingTag (name : string) :
  Debug (Config_of p) = true -> respects R (fun _ => True) (printMissingTag name).
Proof. intros Hd st. simpl. split; [now apply R_out | exact I]. Qed.

Lemma respects_loadTag (tagValue : string) :
  respects R (fun _ => True) (loadTag ext tagValue).
Proof.
  intros st. unfold loadTag. destruct (st_mapTags st !! tagValue) eqn:Hc.
  - split; [apply R_refl | exact I].
  - destruct (ext_newTag ext tagValue) eqn:Hn; simpl.
    + split; [now apply R_tag | exact I].
    + apply R_refl.
Qed.

Lemma respects_snapshot (pl : Place) : respects R (fun _ => True) (snapshot pl).
Proof. intros st. simpl. split; [apply R_refl | exact I]. Qed.

Lemma respects_MakeSlice (elem : GoType) (len : nat) :
  respects R (fun _ => True) (MakeSlice elem len).
Proof. intros st. simpl. split; [apply R_MakeSlice | exact I]. Qed.

Lemma respects_Index (pl : Place) (i : nat) :
  respects R (fun item => item = child pl i) (Index pl i).
Proof.
  unfold Index. apply (respects_bind (fun _ => True)); [apply respects_load|].
  intros s _. destruct s as [| | | | | |[l|]| | | | |]; try apply respects_panic.
  destruct (i <? length l)%nat; [|apply respects_panic].
  now apply respects_ret.
Qed.

Lemma respects_SetValue (fv : Value) (v : iface) :
  allowed (rv_place fv) -> respects R (fun _ => True) (SetValue fv v).
Proof.
  intros Hp. unfold SetValue. destruct v as [|s|e|t x]; try apply respects_panic.
  - destruct (rv_type fv); try apply respects_panic. now apply respects_store.
  - destruct (rv_type fv); try apply respects_panic. now apply respects_store.
  - destruct (type_eqb t (rv_type fv)); [now apply respects_store|].
    destruct (rv_type fv); try apply respects_panic. now apply respects_store.
Qed.

Lemma respects_strictly {A} (r : A * option error) (k : A -> M unit) :
  (forall a, respects R (fun _ => True) (k a)) ->
  respects R (fun _ => True) (strictly r k).
Proof. intros Hk. unfold strictly. destruct r.2; [apply respects_fail | apply Hk]. Qed.

Lemma respects_SetString (fv : Value) (x : string) :
  allowed (rv_place fv) -> respects R (fun _ => True) (SetString fv x).
Proof.
  intros Hp. unfold SetString.
  destruct (Kind_of (rv_type fv)); try apply respects_panic. now apply respects_store.
Qed.

Lemma respects_setRefectValue (kind : Kind) (fv : Value) (v : iface) :
  allowed (rv_place fv) ->
  respects R (fun _ => True) (setRefectValue ext p kind fv v).
Proof.
  intros Hp.
  assert (HB : forall x, respects R (fun _ => True) (SetBool fv x)).
  { intros x. unfold SetBool.
    destruct (Kind_of (rv_type fv)); try apply respects_panic. now apply respects_store. }
  assert (HI : forall x, respects R (fun _ => True) (SetInt fv x)).
  { intros x. unfold SetInt.
    destruct (int_bits (Kind_of (rv_type fv)));
      [now apply respects_store | apply respects_panic]. }
  assert (HU : forall x, respects R (fun _ => True) (SetUint fv x)).
  { intros x. unfold SetUint.
    destruct (uint_bits (Kind_of (rv_type fv)));
      [now apply respects_store | apply respects_panic]. }
  assert (HF : forall x, respects R (fun _ => True) (SetFloat ext fv x)).
  { intros x. unfold SetFloat.
    destruct (Kind_of (rv_type fv)); try apply respects_panic; now apply respects_store. }
  assert (HS : forall x, respects R (fun _ => True) (SetString fv x))
    by (intros x; now apply respects_SetString).
  assert (HV : forall x, respects R (fun _ => True) (SetValue fv x))
    by (intros x; now apply respects_SetValue).
  unfold setRefectValue.
  repeat match goal with
         | |- respects _ _ (if ?c then _ else _) => destruct c
         end;
    try apply respects_strictly; auto.
  destruct (Elem_of (rv_type fv)); [|apply respects_panic].
  destruct (Kind_of g); destruct (CastError (Config_of p));
    try apply respects_strictly; auto.
Qed.

Lemma findMethod_ok (val : Value) (funcName : string) (c : Callable) :
  receiver_ok allowed ext val ->
  findMethod ext val funcName = Some c -> callable_ok allowed c.
Proof.
  intros Hok. rewrite findMethod_declared.
  destruct (struct_name (rv_type val)) as [name|] eqn:Hn; [|discriminate].
  destruct (ext_value_methods ext name funcName).
  - intros H. now injection H as <-.
  - destruct (ext_pointer_methods ext name funcName) eqn:Hp; [|discriminate].
    intros H. injection H as <-. simpl.
    destruct Hok as [Ha | Hq]; [exact Ha|].
    rewrite (Hq name funcName Hn) in Hp. discriminate.
Qed.

Lemma findInStack_ok (stackValues : list Value) (funcName : string) (c : Callable) :
  Forall (receiver_ok allowed ext) stackValues ->
  forall n : nat,
    findInStack ext stackValues funcName n = Some c -> callable_ok allowed c.
Proof.
  intros Hs. induction n as [|n IH]; simpl; [discriminate|].
  destruct (stackValues !! n) as [ancestor|] eqn:Hn; [|exact IH].
  destruct (findMethod ext ancestor funcName) as [c'|] eqn:Hm; [|exact IH].
  intros H. injection H as <-.
  apply (findMethod_ok ancestor funcName); [|exact Hm].
  rewrite Forall_lookup in Hs. now apply (Hs n).
Qed.

Lemma respects_checkReturns (funcName : string) (callReturns : list iface) :
  respects R (fun _ => True) (checkReturns funcName callReturns).
Proof.
  unfold checkReturns. destruct callReturns as [|first rest]; [apply respects_fail|].
  destruct rest; [now apply respects_ret|].
  destruct (last (first :: i :: rest)) as [[| | |]|];
    (now apply respects_ret) || apply respects_fail.
Qed.

Lemma respects_execMethod (c : Callable) (selTag : tagTokenizer) (node : Selection) :
  callable_ok allowed c -> respects R (fun _ => True) (execMethod c selTag node).
Proof.
  intros Hp. destruct c as [recv m|recv m]; simpl in *.
  - apply (respects_bind (fun _ => True)); [apply respects_load|].
    intros self _. apply respects_checkReturns.
  - apply (respects_bind (fun _ => True)); [apply respects_load|].
    intros self _. apply (respects_bind (fun _ => True)); [now apply respects_store|].
    intros _ _. apply respects_checkReturns.
Qed.

Lemma respects_findAndExecFunc (val : Value) (stackValues : list Value)
    (selTag : tagTokenizer) (node : Selection) :
  receiver_ok allowed ext val -> Forall (receiver_ok allowed ext) stackValues ->
  respects R (fun _ => True) (findAndExecFunc ext p val stackValues selTag node).
Proof.
  intros Hp Hs. unfold findAndExecFunc.
  destruct (String.eqb (FuncName selTag) ""); [now apply respects_ret|].
  destruct (findMethod ext val (FuncName selTag)) as [c|] eqn:Hown.
  { apply respects_execMethod. now apply (findMethod_ok val (FuncName selTag)). }
  destruct (findInStack ext stackValues (FuncName selTag) (length stackValues))
    as [c|] eqn:Hanc.
  { apply respects_execMethod.
    now apply (findInStack_ok stackValues (FuncName selTag) c Hs (length stackValues)). }
  destruct (mapFuncs_of p !! FuncName selTag) as [cfn|]; [|apply respects_fail].
  destruct (cfn node (FuncParams selTag)) as [out [err|]];
    [apply respects_fail | now apply respects_ret].
Qed.

Lemma respects_doParseField (doParse : Rec) (val : Value) (i : nat) (fieldType : Field)
    (stackValues : list Value) (selection : Selection) :
  rec_respects R allowed ext doParse (f_type fieldType) ->
  allowed (child (rv_place val) i) ->
  receiver_ok allowed ext val -> Forall (receiver_ok allowed ext) stackValues ->
  respects R (Forall (receiver_ok allowed ext))
           (doParseField ext p doParse val i fieldType stackValues selection).
Proof.
  intros Hrec Hchild Hp Hs.
  assert (Hpush : Forall (receiver_ok allowed ext) (stackValues ++ [val])).
  { rewrite Forall_app. split; [exact Hs | now constructor]. }
  unfold doParseField.
  destruct (Tag_Lookup (f_tag fieldType) (TagName (Config_of p))) as [tagValue|].
  2:{ apply (respects_bind (fun _ => True)); [|intros _ _; now apply respects_ret].
      case_eq (Debug (Config_of p)); intros Hd;
        [now apply respects_printMissingTag | now apply respects_ret]. }
  destruct (String.eqb tagValue ignoreSymbol); [now apply respects_ret|].
  apply (respects_bind (fun _ => True)); [apply respects_loadTag|]. intros tag _.
  apply (respects_bind (fun _ => True)).
  { destruct (String.eqb (Selector tag) "") eqn:Hsel; [now apply respects_ret|].
    apply respects_find. now apply String.eqb_neq. }
  intros node _.
  assert (Hdescend : forall node' : Selection,
    respects R (Forall (receiver_ok allowed ext))
      (descend_into doParse val i fieldType tagValue stackValues node')).
  { intros node'. unfold descend_into. apply (respects_bind (fun _ => True)).
    - apply respects_catch.
      + now apply Hrec.
      + intros e. apply (respects_bind (fun _ => True)); [apply respects_snapshot|].
        intros fv _. apply respects_fail.
    - intros _ _. now apply respects_ret. }
  destruct (String.eqb (FuncName tag) ""); [apply Hdescend|].
  apply (respects_bind (fun _ => True)).
  { apply respects_catch; [now apply respects_findAndExecFunc|].
    intros e. apply respects_fail. }
  intros callOutValue _.
  destruct callOutValue as [|subNode|e|t x]; try apply Hdescend.
  all: apply (respects_bind (fun _ => True)); [|intros _ _; now apply respects_ret].
  all: apply respects_catch; [|intros e'; apply respects_fail].
  all: now apply respects_setRefectValue.
Qed.

Lemma respects_doParseStruct (doParse : Rec) (val : Value) (selection : Selection) :
  allowed (rv_place val) ->
  forall (fields : list Field) (i : nat) (stackValues : list Value),
    Forall (fun f => rec_respects R allowed ext doParse (f_type f)) fields ->
    Forall (receiver_ok allowed ext) stackValues ->
    respects R (fun _ => True)
             (doParseStruct ext p doParse val selection fields i stackValues).
Proof.
  intros Hp. induction fields as [|fieldType rest IH]; intros i stackValues Hf Hs.
  - now apply respects_ret.
  - rewrite doParseStruct_cons. inversion Hf as [|? ? Hhead Hrest]; subst.
    apply (respects_bind (Forall (receiver_ok allowed ext))).
    + apply respects_doParseField; try assumption;
        [now apply allowed_child | now left].
    + intros stack' Hs'. now apply IH.
Qed.

Lemma respects_EachWithBreak (f : nat -> Selection -> M unit) :
  (forall i sub, respects R (fun _ => True) (f i sub)) ->
  forall (nodes : list Node) (i : nat),
    respects R (fun _ => True) (EachWithBreak f nodes i).
Proof.
  intros Hf. induction nodes as [|n rest IH]; intros i; simpl.
  - now apply respects_ret.
  - apply (respects_bind (fun _ => True)); [apply Hf|]. intros _ _. apply IH.
Qed.

Lemma respects_parseItem (doParse : Rec) (slice : Place) (elem : GoType)
    (stackValues : list Value) (i : nat) (subNode : Selection) :
  rec_respects R allowed ext doParse elem ->
  allowed (child slice i) ->
  Forall (receiver_ok allowed ext) stackValues ->
  respects R (fun _ => True) (parseItem doParse slice elem stackValues i subNode).
Proof.
  intros Hrec Ha Hs. unfold parseItem.
  apply (respects_bind (fun item => item = child slice i)); [apply respects_Index|].
  intros item ->. now apply Hrec.
Qed.

(** The bind keeps [R], from a place that may be written and ancestors that
    may be written or have no method with a pointer receiver. *)
Lemma doParseT_respects (t : GoType) : rec_respects R allowed ext (doParseT ext p) t.
Proof.
  induction t as [k|n elem IH|elem IH| | |k elem IHk IH|elem IH|elem IH|name fields IH]
    using GoType_fields_ind;
    intros pl stackValues selection Hp Hs; simpl.
  1-6: now apply respects_SetString.
  - (* pointer *)
    unfold doParsePointer. simpl.
    apply (respects_bind (fun _ => True)); [apply respects_load|]. intros ptr _.
    apply (respects_bind (fun _ => True)).
    + destruct ptr as [| | | | |[x|]| | | | | |]; try apply respects_panic;
        [now apply respects_ret | now apply respects_store].
    + intros _ _. apply IH; [now apply allowed_child | exact Hs].
  - (* slice *)
    unfold doParseSlice. simpl.
    apply (respects_bind (fun _ => True)); [apply respects_load|]. intros slice _.
    destruct slice as [| | | | | |[l|]| | | | |]; try apply respects_panic.
    + apply respects_EachWithBreak. intros i sub.
      apply respects_parseItem; [exact IH | now apply allowed_child | exact Hs].
    + apply (respects_bind (fun _ => True)); [apply respects_MakeSlice|]. intros k _.
      apply (respects_bind (fun _ => True)).
      * apply respects_EachWithBreak. intros i sub.
        apply respects_parseItem; [exact IH | apply allowed_item | exact Hs].
      * intros _ _. apply (respects_bind (fun _ => True)); [apply respects_load|].
        intros made _. now apply respects_store.
  - (* struct *)
    now apply respects_doParseStruct.
Qed.

Lemma ParseSelection_respects (v : option GoType) (selection : Selection) :
  allowed rootPlace ->
  respects R (fun _ => True) (ParseSelection ext p v selection).
Proof.
  intros Hroot. unfold ParseSelection. destruct v as [t|]; [|apply respects_panic].
  destruct (negb (kind_eqb (Kind_of t) Pointer)); [apply respects_fail|].
  apply (respects_bind (fun _ => True)); [apply respects_load|]. intros ptr _.
  destruct ptr as [| | | | |[x|]| | | | | |]; try apply respects_panic.
  - destruct (Elem_of t) as [elem|]; [|apply respects_panic].
    destruct (negb (kind_eqb (Kind_of elem) Struct)); [apply respects_fail|].
    unfold doParse. simpl. apply doParseT_respects; [exact Hroot | constructor].
  - apply respects_fail.
Qed.

End Respects.

(** ** The tag cache during a bind *)

Section Cache.

Context (ext : Externals) (p : Pagser).

Lemma cache_grows_refl st : cache_grows ext st st.
Proof. split; intros k t H; [exact H | now left]. Qed.

Lemma cache_grows_trans st1 st2 st3 :
  cache_grows ext st1 st2 -> cache_grows ext st2 st3 -> cache_grows ext st1 st3.
Proof.
  intros [K12 N12] [K23 N23]. split.
  - intros k t H. now apply K23, K12.
  - intros k t H. destruct (N23 k t H) as [H2 | [H2 Hn]].
    + now apply N12.
    + destruct (st_mapTags st1 !! k) as [t1|] eqn:H1; [|now right].
      apply K12 in H1. congruence.
Qed.

Lemma cache_grows_same_cache st st' :
  st_mapTags st' = st_mapTags st -> cache_grows ext st st'.
Proof. intros E. split; intros k t H; rewrite ?E in *; [exact H | now left]. Qed.

Lemma cache_grows_consistent st st' :
  cache_grows ext st st' ->
  consistent ext (st_mapTags st) -> consistent ext (st_mapTags st').
Proof.
  intros [_ Hnew] Hc k t H. destruct (Hnew k t H) as [H0 | [_ Hn]];
    [now apply Hc | exact Hn].
Qed.

Lemma cache_grows_write pl x st st' :
  write pl x st = Some st' -> cache_grows ext st st'.
Proof.
  intros Hw. apply cache_grows_same_cache. now destruct (write_keeps pl x st st' Hw).
Qed.

Lemma cache_grows_tag tagValue tag st :
  st_mapTags st !! tagValue = None -> ext_newTag ext tagValue = inl tag ->
  cache_grows ext st (record_tag tagValue tag st).
Proof.
  intros Hnone Hnew. split; intros k' t' H; simpl in *.
  - destruct (decide (tagValue = k')) as [->|Hne]; [congruence|].
    now rewrite lookup_insert_ne.
  - destruct (decide (tagValue = k')) as [->|Hne].
    + rewrite lookup_insert_eq in H. injection H as <-. now right.
    + rewrite lookup_insert_ne in H by exact Hne. now left.
Qed.

Lemma doParseT_cache (t : GoType) :
  rec_respects (cache_grows ext) (fun _ => True) ext (doParseT ext p) t.
Proof.
  apply doParseT_respects; try (intros; exact I).
  - apply cache_grows_refl.
  - apply cache_grows_trans.
  - intros pl x st st' _ Hw. now apply (cache_grows_write pl x).
  - intros. now apply cache_grows_same_cache.
  - intros. now apply cache_grows_same_cache.
  - intros. now apply cache_grows_tag.
  - intros. now apply cache_grows_same_cache.
Qed.

Lemma ParseSelection_cache (v : option GoType) (selection : Selection) :
  respects (cache_grows ext) (fun _ => True) (ParseSelection ext p v selection).
Proof.
  apply ParseSelection_respects with (allowed := fun _ => True);
    try (intros; exact I).
  - apply cache_grows_refl.
  - apply cache_grows_trans.
  - intros pl x st st' _ Hw. now apply (cache_grows_write pl x).
  - intros. now apply cache_grows_same_cache.
  - intros. now apply cache_grows_same_cache.
  - intros. now apply cache_grows_tag.
  - intros. now apply cache_grows_same_cache.
Qed.

(** The cache of tags only grows during a bind, by results of [newTag]: an
    entry is never removed or replaced, whether the bind returns without
    error or with one; so a cache that agrees with the tokenizer still does
    after the bind. *)
Theorem cache_only_grows (v : option GoType) (selection : Selection)
    (st : State) (e : error) (st' : State) :
  ParseSelection ext p v selection st = Ok tt st'
  \/ ParseSelection ext p v selection st = Fail e st' ->
  cache_grows ext st st'
  /\ (consistent ext (st_mapTags st) -> consistent ext (st_mapTags st')).
Proof.
  intros Hrun. pose proof (ParseSelection_cache v selection st) as H.
  assert (Hg : cache_grows ext st st').
  { destruct Hrun as [Hrun | Hrun]; rewrite Hrun in H; [exact (proj1 H) | exact H]. }
  split; [exact Hg | now apply cache_grows_consistent].
Qed.

End Cache.

Lemma cache_only_grows_witness :
  exists (e : error) (st' : State),
    ParseSelection Example.ext (Example.engine true) (Some (TPointer Broken))
                   Example.document (start (Example.target Broken) ∅) = Fail e st'
    /\ st_mapTags st' !! "h1" = Some (mkTag "h1" "" [])
    /\ consistent Example.ext (st_mapTags st').
Proof.
  destruct (ParseSelection Example.ext (Example.engine true) (Some (TPointer Broken))
              Example.document (start (Example.target Broken) ∅))
    as [a st'|e st'|] eqn:Hrun.
  - vm_compute in Hrun. discriminate.
  - exists e, st'. split; [reflexivity|]. split.
    + vm_compute in Hrun. injection Hrun as _ <-. reflexivity.
    + apply (cache_only_grows Example.ext (Example.engine true) _ _ _ e st'
               (or_intror Hrun)).
      intros tagValue tag H. simpl in H. now rewrite lookup_empty in H.
  - vm_compute in Hrun. discriminate.
Defined.

(** ** The two logs: calls of [Find], and printed field names *)

Section Logs.

Context (ext : Externals) (p : Pagser).

Lemma logs_grow_refl st : logs_grow p st st.
Proof. split; exists []; split; auto. Qed.

Lemma logs_grow_trans st1 st2 st3 :
  logs_grow p st1 st2 -> logs_grow p st2 st3 -> logs_grow p st1 st3.
Proof.
  intros [(c1 & Hc1 & Hf1) (n1 & Hn1 & Hd1)] [(c2 & Hc2 & Hf2) (n2 & Hn2 & Hd2)].
  split.
  - exists (c2 ++ c1). split.
    + rewrite Hc2, Hc1. now rewrite app_assoc.
    + apply Forall_app. now split.
  - exists (n2 ++ n1). split.
    + rewrite Hn2, Hn1. now rewrite app_assoc.
    + intros Hd. now rewrite (Hd1 Hd), (Hd2 Hd).
Qed.

Lemma logs_grow_same_logs st st' :
  st_finds st' = st_finds st -> st_out st' = st_out st -> logs_grow p st st'.
Proof. intros Hf Ho. split; exists []; split; auto. Qed.

Lemma logs_grow_write pl x st st' :
  write pl x st = Some st' -> logs_grow p st st'.
Proof.
  intros Hw. destruct (write_keeps pl x st st' Hw) as (_ & Hf & Ho).
  now apply logs_grow_same_logs.
Qed.

Lemma logs_grow_find selection selector st :
  selector <> "" -> logs_grow p st (record_find selection selector st).
Proof.
  intros Hne. split.
  - exists [(selection, selector)]. split; [reflexivity|].
    apply Forall_cons. split; [exact Hne | apply List.Forall_nil].
  - exists []. split; auto.
Qed.

Lemma logs_grow_out fieldName st :
  Debug (Config_of p) = true -> logs_grow p st (record_out fieldName st).
Proof.
  intros Hd. split.
  - exists []. split; auto.
  - exists [fieldName]. split; [reflexivity|]. intros Hf. congruence.
Qed.

Lemma ParseSelection_logs (v : option GoType) (selection : Selection) :
  respects (logs_grow p) (fun _ => True) (ParseSelection ext p v selection).
Proof.
  apply ParseSelection_respects with (allowed := fun _ => True);
    try (intros; exact I).
  - apply logs_grow_refl.
  - apply logs_grow_trans.
  - intros pl x st st' _ Hw. now apply (logs_grow_write pl x).
  - intros. now apply logs_grow_find.
  - intros. now apply logs_grow_out.
  - intros. now apply logs_grow_same_logs.
  - intros. now apply logs_grow_same_logs.
Qed.

(** A bind never calls [Find] with an empty selector, and prints nothing
    unless [Debug] is set: whether it returns without error or with one, the
    list of [Find] calls has only been extended, by calls whose selector is
    not empty, and with [Debug] off the output is what it was. *)
Theorem Find_never_empty (v : option GoType) (selection : Selection)
    (st : State) (e : error) (st' : State) :
  ParseSelection ext p v selection st = Ok tt st'
  \/ ParseSelection ext p v selection st = Fail e st' ->
  (exists calls : list (Selection * string),
      st_finds st' = calls ++ st_finds st
      /\ Forall (fun call => call.2 <> "") calls)
  /\ (Debug (Config_of p) = false -> st_out st' = st_out st).
Proof.
  intros Hrun. pose proof (ParseSelection_logs v selection st) as H.
  assert (Hg : logs_grow p st st').
  { destruct Hrun as [Hrun | Hrun]; rewrite Hrun in H; [exact (proj1 H) | exact H]. }
  destruct Hg as [Hcalls (names & Hnames & Hd)].
  split; [exact Hcalls|]. intros Hoff. now rewrite Hnames, (Hd Hoff).
Qed.

End Logs.

Lemma Find_never_empty_witness :
  exists st' : State,
    ParseSelection Example.ext (Example.engine false) (Some (TPointer Nav))
                   Example.document (start (Example.target Nav) ∅) = Ok tt st'
    /\ st_finds st' = [(Example.document, "li")]
    /\ st_out st' = [].
Proof.
  destruct (ParseSelection Example.ext (Example.engine false) (Some (TPointer Nav))
              Example.document (start (Example.target Nav) ∅))
    as [[] st'|e st'|] eqn:Hrun.
  - exists st'. split; [reflexivity|].
    destruct (Find_never_empty Example.ext (Example.engine false) _ _ _
                (ErrExternal "") st' (or_introl Hrun)) as [_ Hout].
    split.
    + vm_compute in Hrun. injection Hrun as <-. reflexivity.
    + now rewrite Hout.
  - vm_compute in Hrun. discriminate.
  - vm_compute in Hrun. discriminate.
Defined.

(** ** What a bind leaves alone *)

Lemma write_val_apart (common : list nat) (i j : nat) (rest rest' : list nat)
    (new : Val) :
  i <> j ->
  forall b b' : Val,
    write_val (common ++ i :: rest) new b = Some b' ->
    read_val (common ++ j :: rest') b' = read_val (common ++ j :: rest') b.
Proof.
  intros Hne. induction common as [|c common IH]; intros b b' Hw; simpl in *.
  - destruct b as [| | | | |[x|]|[l|]|l|fs| | |]; try discriminate.
    + destruct i; [|discriminate].
      destruct (write_val rest new x); [|discriminate]. simpl in Hw.
      injection Hw as <-. now destruct j.
    + destruct (l !! i) as [x|]; [|discriminate]. simpl in Hw.
      destruct (write_val rest new x) as [x'|]; [|discriminate]. simpl in Hw.
      injection Hw as <-. now rewrite list_lookup_insert_ne.
    + destruct (l !! i) as [x|]; [|discriminate]. simpl in Hw.
      destruct (write_val rest new x) as [x'|]; [|discriminate]. simpl in Hw.
      injection Hw as <-. now rewrite list_lookup_insert_ne.
    + destruct (fs !! i) as [x|]; [|discriminate]. simpl in Hw.
      destruct (write_val rest new x) as [x'|]; [|discriminate]. simpl in Hw.
      injection Hw as <-. now rewrite list_lookup_insert_ne.
  - destruct b as [| | | | |[x|]|[l|]|l|fs| | |]; try discriminate.
    + destruct c; [|discriminate].
      destruct (write_val (common ++ i :: rest) new x) as [x'|] eqn:Hx; [|discriminate].
      simpl in Hw. injection Hw as <-. now apply IH.
    + destruct (l !! c) as [x|] eqn:Hc; [|discriminate]. simpl in Hw.
      destruct (write_val (common ++ i :: rest) new x) as [x'|] eqn:Hx; [|discriminate].
      simpl in Hw. injection Hw as <-.
      rewrite list_lookup_insert_eq by now apply lookup_lt_Some in Hc.
      simpl. now apply IH.
    + destruct (l !! c) as [x|] eqn:Hc; [|discriminate]. simpl in Hw.
      destruct (write_val (common ++ i :: rest) new x) as [x'|] eqn:Hx; [|discriminate].
      simpl in Hw. injection Hw as <-.
      rewrite list_lookup_insert_eq by now apply lookup_lt_Some in Hc.
      simpl. now apply IH.
    + destruct (fs !! c) as [x|] eqn:Hc; [|discriminate]. simpl in Hw.
      destruct (write_val (common ++ i :: rest) new x) as [x'|] eqn:Hx; [|discriminate].
      simpl in Hw. injection Hw as <-.
      rewrite list_lookup_insert_eq by now apply lookup_lt_Some in Hc.
      simpl. now apply IH.
Qed.

Lemma Base_same_or_not (b b' : Base) : b = b' \/ b <> b'.
Proof.
  destruct b as [|k], b' as [|k']; try (now left); try (now right).
  destruct (decide (k = k')) as [->|Hne]; [now left | right; congruence].
Qed.

Lemma write_apart (pl q : Place) (new : Val) (st st' : State) :
  apart pl q -> write pl new st = Some st' -> same_at q st st'.
Proof.
  intros [Hbase | (common & i & j & rest & rest' & Hne & Hpl & Hq)] Hw.
  - apply (write_other_base pl q new); [exact Hw | congruence].
  - destruct (Base_same_or_not (p_base q) (p_base pl)) as [Heq | Hbase];
      [|now apply (write_other_base pl q new)].
    unfold same_at, read, write in *. rewrite Heq.
    destruct (base_val (p_base pl) st) as [b|] eqn:Hb; [|discriminate]. simpl in Hw.
    destruct (write_val (p_path pl) new b) as [b'|] eqn:Hwv; [|discriminate].
    simpl in Hw. injection Hw as <-.
    rewrite (base_val_set_base _ _ b) by exact Hb. simpl.
    rewrite Hq. rewrite Hpl in Hwv. now apply (write_val_apart common i j rest rest' new).
Qed.

Lemma apart_child (pl q : Place) (i : nat) : apart pl q -> apart (child pl i) q.
Proof.
  intros [Hbase | (common & a & b & rest & rest' & Hne & Hpl & Hq)].
  - now left.
  - right. exists common, a, b, (rest ++ [i]), rest'. split; [exact Hne|].
    split; [|exact Hq]. simpl. rewrite Hpl. now rewrite <- app_assoc.
Qed.

Lemma apart_fields (s : Place) (i j : nat) : i <> j -> apart (child s i) (child s j).
Proof.
  intros Hne. right. exists (p_path s), i, j, [], []. now split.
Qed.

Section Frame.

Context (ext : Externals) (p : Pagser).

Variable q : Place.
Hypothesis q_in_target : p_base q = Root.

Lemma same_at_trans st1 st2 st3 :
  same_at q st1 st2 -> same_at q st2 st3 -> same_at q st1 st3.
Proof. unfold same_at. congruence. Qed.

Lemma same_at_same_values st st' :
  st_root st' = st_root st -> same_at q st st'.
Proof.
  intros Hr. unfold same_at, read. rewrite q_in_target. simpl. now rewrite Hr.
Qed.

Lemma apart_item (k i : nat) : apart (mkPlace (Temp k) [i]) q.
Proof. left. simpl. now rewrite q_in_target. Qed.

Lemma doParseT_frame (t : GoType) :
  rec_respects (same_at q) (fun pl => apart pl q) ext (doParseT ext p) t.
Proof.
  apply doParseT_respects.
  - intros st. reflexivity.
  - apply same_at_trans.
  - intros pl x st st' Ha Hw. now apply (write_apart pl q x).
  - intros pl i. apply apart_child.
  - apply apart_item.
  - intros. now apply same_at_same_values.
  - intros. now apply same_at_same_values.
  - intros. now apply same_at_same_values.
  - intros. now apply same_at_same_values.
Qed.

Lemma doParseField_frame (val : Value) (i : nat) (fieldType : Field)
    (stackValues : list Value) (selection : Selection) :
  apart (child (rv_place val) i) q ->
  receiver_ok (fun pl => apart pl q) ext val ->
  Forall (receiver_ok (fun pl => apart pl q) ext) stackValues ->
  respects (same_at q) (Forall (receiver_ok (fun pl => apart pl q) ext))
           (doParseField ext p (doParseT ext p) val i fieldType stackValues selection).
Proof.
  intros Hchild Hval Hs.
  apply (respects_doParseField ext p (same_at q) (fun pl => apart pl q)); try assumption.
  - intros st. reflexivity.
  - apply same_at_trans.
  - intros pl x st st' Ha Hw. now apply (write_apart pl q x).
  - intros. now apply same_at_same_values.
  - intros. now apply same_at_same_values.
  - intros. now apply same_at_same_values.
  - apply doParseT_frame.
Qed.




End Frame.




Lemma Broken_quiet (pl : Place) : quiet Example.ext (mkValue pl Broken).
Proof. intros name funcName H. simpl in H. now injection H as <-. Qed.





(** The proviso is needed: [FillFieldFunc] of [ParseData] has a pointer
    receiver, and the bind of field 3, which calls it, writes field 4. *)
Remark pointer_receiver_writes_sibling :
  let val := mkValue (mkPlace Root [0%nat]) Example.ParseData in
  let st := start (Example.target Example.ParseData) ∅ in
  exists (stack' : list Value) (st' : State),
    doParseField Example.ext (Example.engine false)
                 (doParseT Example.ext (Example.engine false)) val 3
                 (mkField "FillFieldFuncValue" (Example.tagged "h1->FillFieldFunc()")
                          Example.tstring)
                 [] Example.document st = Ok stack' st'
    /\ read (mkPlace Root [0; 4]%nat) st = Some (VString "")
    /\ read (mkPlace Root [0; 4]%nat) st'
       = Some (VString "set by FillFieldFunc - Pagser H1 Title ").
Proof.
  intros val st. eexists. eexists. split; [vm_compute; reflexivity|].
  split; reflexivity.
Qed.

(** ** Integers narrower than the cast *)

Lemma wrap_signed_range (bits x : Z) :
  0 < bits -> - 2 ^ (bits - 1) <= wrap_signed bits x < 2 ^ (bits - 1).
Proof.
  intros Hb. unfold wrap_signed.
  assert (H2 : 2 ^ bits = 2 * 2 ^ (bits - 1)).
  { replace bits with (Z.succ (bits - 1)) at 1 by lia. apply Z.pow_succ_r. lia. }
  pose proof (Z.mod_pos_bound (x + 2 ^ (bits - 1)) (2 ^ bits)) as H.
  assert (0 < 2 ^ bits) by (apply Z.pow_pos_nonneg; lia). lia.
Qed.

Lemma wrap_signed_id (bits x : Z) :
  0 < bits -> (wrap_signed bits x = x <-> - 2 ^ (bits - 1) <= x < 2 ^ (bits - 1)).
Proof.
  intros Hb. split.
  - intros <-. now apply wrap_signed_range.
  - intros Hx. unfold wrap_signed.
    assert (H2 : 2 ^ bits = 2 * 2 ^ (bits - 1)).
    { replace bits with (Z.succ (bits - 1)) at 1 by lia. apply Z.pow_succ_r. lia. }
    rewrite Z.mod_small; lia.
Qed.

Lemma wrap_unsigned_id (bits x : Z) :
  0 < bits -> (wrap_unsigned bits x = x <-> 0 <= x < 2 ^ bits).
Proof.
  intros Hb. assert (0 < 2 ^ bits) by (apply Z.pow_pos_nonneg; lia).
  unfold wrap_unsigned. split.
  - intros <-. apply Z.mod_pos_bound. lia.
  - intros Hx. now apply Z.mod_small.
Qed.

Lemma int_bits_pos k bits : int_bits k = Some bits -> 0 < bits.
Proof. destruct k; simpl; intros H; try discriminate; injection H as <-; lia. Qed.

Lemma uint_bits_pos k bits : uint_bits k = Some bits -> 0 < bits.
Proof. destruct k; simpl; intros H; try discriminate; injection H as <-; lia. Qed.

Section Narrow.

Context (ext : Externals) (p : Pagser).

(** A field of a signed integer kind receives the 64-bit result of the cast
    cut to the width of the field, and neither caster returns an error, with
    or without strict casts: a result outside the range of the field is
    stored as another number, not reported. *)
Theorem signed_field_wraps (fv : Value) (k : Kind) (bits : Z) (v : iface) (x : Z)
    (old : Val) (st : State) :
  lenient_drops_error (ext_cast ext) ->
  rv_type fv = TBasic k ->
  int_bits k = Some bits ->
  ToInt64E (ext_cast ext) v = (x, None) ->
  - 2 ^ 63 <= x < 2 ^ 63 ->
  read (rv_place fv) st = Some old ->
  exists st' : State,
    setRefectValue ext p k fv v st = Ok tt st'
    /\ setFieldValue ext p fv v st = Ok tt st'
    /\ read (rv_place fv) st' = Some (VInt (wrap_signed bits x))
    /\ - 2 ^ (bits - 1) <= wrap_signed bits x < 2 ^ (bits - 1)
    /\ (wrap_signed bits x = x <-> - 2 ^ (bits - 1) <= x < 2 ^ (bits - 1)).
Proof.
  intros Hdrop Ht Hbits Hcast Hx Hold.
  destruct (store_reads (rv_place fv) (VInt (wrap_signed bits x)) old st Hold)
    as (st' & Hstore & Hread).
  exists st'.
  assert (Hlen : ToInt64 (ext_cast ext) v = x).
  { rewrite (ToInt64_E _ Hdrop). now rewrite Hcast. }
  assert (H64 : wrap_signed 64 x = x) by now apply wrap_signed_64_id.
  destruct fv as [pl t]. simpl in *. subst t.
  split; [|split; [|split; [exact Hread|split]]].
  - unfold setRefectValue, strictly, SetInt.
    destruct k; simpl in Hbits; try discriminate; injection Hbits as <-; simpl;
      rewrite Hcast, Hlen; simpl; now destruct (CastError (Config_of p)).
  - unfold setFieldValue, castFor, convert_and_Set.
    destruct k; simpl in Hbits; try discriminate; injection Hbits as <-; simpl;
      rewrite Hcast; simpl; try exact Hstore.
    rewrite H64 in Hstore. exact Hstore.
  - apply wrap_signed_range. now apply (int_bits_pos k).
  - apply wrap_signed_id. now apply (int_bits_pos k).
Qed.

(** The same for a field of an unsigned integer kind. *)
Theorem unsigned_field_wraps (fv : Value) (k : Kind) (bits : Z) (v : iface) (x : Z)
    (old : Val) (st : State) :
  lenient_drops_error (ext_cast ext) ->
  rv_type fv = TBasic k ->
  uint_bits k = Some bits ->
  ToUint64E (ext_cast ext) v = (x, None) ->
  0 <= x < 2 ^ 64 ->
  read (rv_place fv) st = Some old ->
  exists st' : State,
    setRefectValue ext p k fv v st = Ok tt st'
    /\ setFieldValue ext p fv v st = Ok tt st'
    /\ read (rv_place fv) st' = Some (VUint (wrap_unsigned bits x))
    /\ 0 <= wrap_unsigned bits x < 2 ^ bits
    /\ (wrap_unsigned bits x = x <-> 0 <= x < 2 ^ bits).
Proof.
  intros Hdrop Ht Hbits Hcast Hx Hold.
  destruct (store_reads (rv_place fv) (VUint (wrap_unsigned bits x)) old st Hold)
    as (st' & Hstore & Hread).
  exists st'.
  assert (Hlen : ToUint64 (ext_cast ext) v = x).
  { rewrite (ToUint64_E _ Hdrop). now rewrite Hcast. }
  assert (H64 : wrap_unsigned 64 x = x) by now apply wrap_unsigned_64_id.
  assert (Hpos : 0 < bits) by now apply (uint_bits_pos k).
  destruct fv as [pl t]. simpl in *. subst t.
  split; [|split; [|split; [exact Hread|split]]].
  - unfold setRefectValue, strictly, SetUint.
    destruct k; simpl in Hbits; try discriminate; injection Hbits as <-; simpl;
      rewrite Hcast, Hlen; simpl; now destruct (CastError (Config_of p)).
  - unfold setFieldValue, castFor, convert_and_Set.
    destruct k; simpl in Hbits; try discriminate; injection Hbits as <-; simpl;
      rewrite Hcast; simpl; try exact Hstore.
    rewrite H64 in Hstore. exact Hstore.
  - unfold wrap_unsigned. apply Z.mod_pos_bound. apply Z.pow_pos_nonneg; lia.
  - now apply wrap_unsigned_id.
Qed.

End Narrow.

Lemma signed_field_wraps_witness :
  let fv := mkValue (mkPlace Root []) (TBasic Int8) in
  exists st' : State,
    setRefectValue Example.ext (Example.engine true) Int8 fv (Example.str "300")
                   (start (VInt 0) ∅) = Ok tt st'
    /\ setFieldValue Example.ext (Example.engine true) fv (Example.str "300")
                     (start (VInt 0) ∅) = Ok tt st'
    /\ st_root st' = VInt 44.
Proof.
  intros fv.
  destruct (signed_field_wraps Example.ext (Example.engine true) fv Int8 8
              (Example.str "300") 300 (VInt 0) (start (VInt 0) ∅)
              Example_cast_drops_error eq_refl eq_refl eq_refl)
    as (st' & Hold & Hnew & Hread & _); [lia | reflexivity |].
  exists st'. split; [exact Hold|]. split; [exact Hnew|].
  unfold read in Hread. simpl in Hread. now injection Hread as ->.
Defined.

Lemma unsigned_field_wraps_witness :
  let fv := mkValue (mkPlace Root []) (TBasic Uint8) in
  exists st' : State,
    setRefectValue Example.ext (Example.engine true) Uint8 fv (Example.str "300")
                   (start (VUint 0) ∅) = Ok tt st'
    /\ setFieldValue Example.ext (Example.engine true) fv (Example.str "300")
                     (start (VUint 0) ∅) = Ok tt st'
    /\ st_root st' = VUint 44.
Proof.
  intros fv.
  destruct (unsigned_field_wraps Example.ext (Example.engine true) fv Uint8 8
              (Example.str "300") 300 (VUint 0) (start (VUint 0) ∅)
              Example_cast_drops_error eq_refl eq_refl eq_refl)
    as (st' & Hold & Hnew & Hread & _); [lia | reflexivity |].
  exists st'. split; [exact Hold|]. split; [exact Hnew|].
  unfold read in Hread. simpl in Hread. now injection Hread as ->.
Defined.

(** ** What a function call may change *)

Section Calls.

Context (ext : Externals) (p : Pagser).


End Calls.


(** ** Pointers are allocated *)




Section Allocated.

Context (ext : Externals) (p : Pagser).

Variable pl : Place.
Hypothesis pl_in_target : p_base pl = Root.




End Allocated.



(** ** The bind of a struct of texts *)





Lemma read_same_values (q : Place) (st st' : State) :
  st_root st' = st_root st -> st_temps st' = st_temps st -> read q st' = read q st.
Proof.
  intros Hr Ht. unfold read. destruct (p_base q) as [|k]; simpl; now rewrite ?Hr, ?Ht.
Qed.

Section Texts.

Context (ext : Externals) (p : Pagser).





End Texts.


(** ** The cache does not change what a bind does *)

Section Transparent.

Context (ext : Externals) (p : Pagser).

Lemma sim_ret {A} (a : A) : sim ext (ret a).
Proof. intros sa sb H. simpl. now split. Qed.

Lemma sim_fail {A} (e : error) : sim ext (@fail A e).
Proof. intros sa sb H. simpl. now split. Qed.

Lemma sim_panic {A} : sim ext (@panic A).
Proof. now intros sa sb H. Qed.

Lemma sim_bind {A B} (m : M A) (k : A -> M B) :
  sim ext m -> (forall a, sim ext (k a)) -> sim ext (bind m k).
Proof.
  intros Hm Hk sa sb H. unfold bind. specialize (Hm sa sb H).
  destruct (m sa) as [a sa'|e sa'|], (m sb) as [b sb'|e' sb'|]; simpl in Hm;
    try contradiction; try exact Hm.
  destruct Hm as [<- H']. now apply Hk.
Qed.

Lemma sim_catch {A} (m : M A) (h : error -> M A) :
  sim ext m -> (forall e, sim ext (h e)) -> sim ext (catch m h).
Proof.
  intros Hm Hh sa sb H. unfold catch. specialize (Hm sa sb H).
  destruct (m sa) as [a sa'|e sa'|], (m sb) as [b sb'|e' sb'|]; simpl in Hm;
    try contradiction; try exact Hm.
  destruct Hm as [<- H']. now apply Hh.
Qed.

Lemma agree_read (pl : Place) (sa sb : State) :
  agree ext sa sb -> read pl sa = read pl sb.
Proof. intros (Hr & Ht & _). now apply read_same_values. Qed.

Lemma sim_load (pl : Place) : sim ext (load pl).
Proof.
  intros sa sb H. unfold load. rewrite (agree_read pl sa sb H).
  destruct (read pl sb); simpl; [now split | exact I].
Qed.

Lemma sim_store (pl : Place) (new : Val) : sim ext (store pl new).
Proof.
  intros sa sb H. unfold store, write.
  destruct H as (Hr & Ht & Hf & Ho & Ha & Hb).
  assert (Hbase : base_val (p_base pl) sa = base_val (p_base pl) sb).
  { destruct (p_base pl); simpl; congruence. }
  rewrite Hbase. destruct (base_val (p_base pl) sb) as [b|]; simpl; [|exact I].
  destruct (write_val (p_path pl) new b) as [b'|]; simpl; [|exact I].
  split; [reflexivity|].
  destruct (p_base pl); simpl; repeat split; simpl; first [assumption | congruence].
Qed.

Lemma sim_find (selection : Selection) (selector : string) :
  sim ext (find ext selection selector).
Proof.
  intros sa sb (Hr & Ht & Hf & Ho & Ha & Hb). simpl.
  split; [reflexivity|]. repeat split; simpl; first [assumption | congruence].
Qed.

Lemma sim_printMissingTag (name : string) : sim ext (printMissingTag name).
Proof.
  intros sa sb (Hr & Ht & Hf & Ho & Ha & Hb). simpl.
  split; [reflexivity|]. repeat split; simpl; first [assumption | congruence].
Qed.

Lemma agree_record_tag (tagValue : string) (tag : tagTokenizer) (st : State) :
  consistent ext (st_mapTags st) -> ext_newTag ext tagValue = inl tag ->
  consistent ext (st_mapTags (record_tag tagValue tag st)).
Proof.
  intros Hc Hnew k t. simpl. destruct (decide (tagValue = k)) as [->|Hne].
  - rewrite lookup_insert_eq. intros H. now injection H as <-.
  - rewrite lookup_insert_ne by exact Hne. apply Hc.
Qed.

(** The one step that reads the cache: a hit returns what the tokenizer
    would return. *)
Lemma sim_loadTag (tagValue : string) : sim ext (loadTag ext tagValue).
Proof.
  intros sa sb (Hr & Ht & Hf & Ho & Ha & Hb). unfold loadTag.
  destruct (st_mapTags sa !! tagValue) as [ta|] eqn:Hhit_a;
    destruct (st_mapTags sb !! tagValue) as [tb|] eqn:Hhit_b.
  - pose proof (Ha _ _ Hhit_a) as Hna. pose proof (Hb _ _ Hhit_b) as Hnb.
    simpl. split; [congruence | now repeat split].
  - pose proof (Ha _ _ Hhit_a) as Hna. rewrite Hna. simpl.
    split; [reflexivity|]. repeat split; simpl; try assumption.
    now apply (agree_record_tag tagValue ta sb).
  - pose proof (Hb _ _ Hhit_b) as Hnb. rewrite Hnb. simpl.
    split; [reflexivity|]. repeat split; simpl; try assumption.
    now apply (agree_record_tag tagValue tb sa).
  - destruct (ext_newTag ext tagValue) as [tag|e] eqn:Hnew; simpl.
    + split; [reflexivity|]. repeat split; simpl; try assumption.
      * now apply (agree_record_tag tagValue tag sa).
      * now apply (agree_record_tag tagValue tag sb).
    + split; [reflexivity | now repeat split].
Qed.

Lemma sim_snapshot (pl : Place) : sim ext (snapshot pl).
Proof.
  intros sa sb H. unfold snapshot. rewrite (agree_read pl sa sb H). simpl. now split.
Qed.

Lemma sim_MakeSlice (elem : GoType) (len : nat) : sim ext (MakeSlice elem len).
Proof.
  intros sa sb (Hr & Ht & Hf & Ho & Ha & Hb). unfold MakeSlice, after_MakeSlice. simpl.
  split; [congruence|]. repeat split; simpl; first [assumption | congruence].
Qed.

Lemma sim_Index (pl : Place) (i : nat) : sim ext (Index pl i).
Proof.
  unfold Index. apply sim_bind; [apply sim_load|].
  intros s. destruct s as [| | | | | |[l|]| | | | |]; try apply sim_panic.
  destruct (i <? length l)%nat; [apply sim_ret | apply sim_panic].
Qed.

Lemma sim_SetValue (fv : Value) (v : iface) : sim ext (SetValue fv v).
Proof.
  unfold SetValue. destruct v as [|s|e|t x]; try apply sim_panic.
  - destruct (rv_type fv); try apply sim_panic. apply sim_store.
  - destruct (rv_type fv); try apply sim_panic. apply sim_store.
  - destruct (type_eqb t (rv_type fv)); [apply sim_store|].
    destruct (rv_type fv); try apply sim_panic. apply sim_store.
Qed.

Lemma sim_strictly {A} (r : A * option error) (k : A -> M unit) :
  (forall a, sim ext (k a)) -> sim ext (strictly r k).
Proof. intros Hk. unfold strictly. destruct r.2; [apply sim_fail | apply Hk]. Qed.

Lemma sim_SetString (fv : Value) (x : string) : sim ext (SetString fv x).
Proof.
  unfold SetString. destruct (Kind_of (rv_type fv)); try apply sim_panic. apply sim_store.
Qed.

Lemma sim_setRefectValue (kind : Kind) (fv : Value) (v : iface) :
  sim ext (setRefectValue ext p kind fv v).
Proof.
  assert (HB : forall x, sim ext (SetBool fv x)).
  { intros x. unfold SetBool.
    destruct (Kind_of (rv_type fv)); try apply sim_panic. apply sim_store. }
  assert (HI : forall x, sim ext (SetInt fv x)).
  { intros x. unfold SetInt.
    destruct (int_bits (Kind_of (rv_type fv))); [apply sim_store | apply sim_panic]. }
  assert (HU : forall x, sim ext (SetUint fv x)).
  { intros x. unfold SetUint.
    destruct (uint_bits (Kind_of (rv_type fv))); [apply sim_store | apply sim_panic]. }
  assert (HF : forall x, sim ext (SetFloat ext fv x)).
  { intros x. unfold SetFloat.
    destruct (Kind_of (rv_type fv)); try apply sim_panic; apply sim_store. }
  assert (HS : forall x, sim ext (SetString fv x)) by (intros x; apply sim_SetString).
  assert (HV : forall x, sim ext (SetValue fv x)) by (intros x; apply sim_SetValue).
  unfold setRefectValue.
  repeat match goal with
         | |- sim _ (if ?c then _ else _) => destruct c
         end;
    try apply sim_strictly; auto.
  destruct (Elem_of (rv_type fv)); [|apply sim_panic].
  destruct (Kind_of g); destruct (CastError (Config_of p));
    try apply sim_strictly; auto.
Qed.

Lemma sim_checkReturns (funcName : string) (callReturns : list iface) :
  sim ext (checkReturns funcName callReturns).
Proof.
  unfold checkReturns. destruct callReturns as [|first rest]; [apply sim_fail|].
  destruct rest; [apply sim_ret|].
  destruct (last (first :: i :: rest)) as [[| | |]|];
    apply sim_ret || apply sim_fail.
Qed.

Lemma sim_execMethod (c : Callable) (selTag : tagTokenizer) (node : Selection) :
  sim ext (execMethod c selTag node).
Proof.
  destruct c as [recv m|recv m]; simpl.
  - apply sim_bind; [apply sim_load|]. intros self. apply sim_checkReturns.
  - apply sim_bind; [apply sim_load|]. intros self.
    apply sim_bind; [apply sim_store|]. intros _. apply sim_checkReturns.
Qed.

Lemma sim_findAndExecFunc (val : Value) (stackValues : list Value)
    (selTag : tagTokenizer) (node : Selection) :
  sim ext (findAndExecFunc ext p val stackValues selTag node).
Proof.
  unfold findAndExecFunc.
  destruct (String.eqb (FuncName selTag) ""); [apply sim_ret|].
  destruct (findMethod ext val (FuncName selTag)); [apply sim_execMethod|].
  destruct (findInStack ext stackValues (FuncName selTag) (length stackValues));
    [apply sim_execMethod|].
  destruct (mapFuncs_of p !! FuncName selTag) as [cfn|]; [|apply sim_fail].
  destruct (cfn node (FuncParams selTag)) as [out [err|]];
    [apply sim_fail | apply sim_ret].
Qed.

Lemma sim_doParseField (doParse : Rec) (val : Value) (i : nat) (fieldType : Field)
    (stackValues : list Value) (selection : Selection) :
  (forall pl stack node, sim ext (doParse (f_type fieldType) pl stack node)) ->
  sim ext (doParseField ext p doParse val i fieldType stackValues selection).
Proof.
  intros Hrec. unfold doParseField.
  destruct (Tag_Lookup (f_tag fieldType) (TagName (Config_of p))) as [tagValue|].
  2:{ apply sim_bind; [|intros _; apply sim_ret].
      destruct (Debug (Config_of p)); [apply sim_printMissingTag | apply sim_ret]. }
  destruct (String.eqb tagValue ignoreSymbol); [apply sim_ret|].
  apply sim_bind; [apply sim_loadTag|]. intros tag.
  apply sim_bind.
  { destruct (String.eqb (Selector tag) ""); [apply sim_ret | apply sim_find]. }
  intros node.
  assert (Hdescend : forall node' : Selection,
    sim ext (descend_into doParse val i fieldType tagValue stackValues node')).
  { intros node'. unfold descend_into. apply sim_bind.
    - apply sim_catch; [apply Hrec|].
      intros e. apply sim_bind; [apply sim_snapshot|]. intros fv. apply sim_fail.
    - intros _. apply sim_ret. }
  destruct (String.eqb (FuncName tag) ""); [apply Hdescend|].
  apply sim_bind.
  { apply sim_catch; [apply sim_findAndExecFunc|]. intros e. apply sim_fail. }
  intros callOutValue.
  destruct callOutValue as [|subNode|e|t x]; try apply Hdescend.
  all: apply sim_bind; [|intros _; apply sim_ret].
  all: apply sim_catch; [|intros e'; apply sim_fail].
  all: apply sim_setRefectValue.
Qed.

Lemma sim_doParseStruct (doParse : Rec) (val : Value) (selection : Selection) :
  forall (fields : list Field) (i : nat) (stackValues : list Value),
    Forall (fun f => forall pl stack node, sim ext (doParse (f_type f) pl stack node))
           fields ->
    sim ext (doParseStruct ext p doParse val selection fields i stackValues).
Proof.
  induction fields as [|fieldType rest IH]; intros i stackValues Hf.
  - apply sim_ret.
  - rewrite doParseStruct_cons. inversion Hf as [|? ? Hhead Hrest]; subst.
    apply sim_bind; [now apply sim_doParseField|]. intros stack'. now apply IH.
Qed.

Lemma sim_EachWithBreak (f : nat -> Selection -> M unit) :
  (forall i sub, sim ext (f i sub)) ->
  forall (nodes : list Node) (i : nat), sim ext (EachWithBreak f nodes i).
Proof.
  intros Hf. induction nodes as [|n rest IH]; intros i; simpl.
  - apply sim_ret.
  - apply sim_bind; [apply Hf|]. intros _. apply IH.
Qed.

Lemma sim_doParseT (t : GoType) :
  forall pl stackValues selection, sim ext (doParseT ext p t pl stackValues selection).
Proof.
  induction t as [k|n elem IH|elem IH| | |k elem IHk IH|elem IH|elem IH|name fields IH]
    using GoType_fields_ind;
    intros pl stackValues selection; simpl.
  1-6: apply sim_SetString.
  - unfold doParsePointer. simpl.
    apply sim_bind; [apply sim_load|]. intros ptr.
    apply sim_bind.
    + destruct ptr as [| | | | |[x|]| | | | | |]; try apply sim_panic;
        [apply sim_ret | apply sim_store].
    + intros _. apply IH.
  - unfold doParseSlice. simpl.
    apply sim_bind; [apply sim_load|]. intros slice.
    destruct slice as [| | | | | |[l|]| | | | |]; try apply sim_panic.
    + apply sim_EachWithBreak. intros i sub. unfold parseItem.
      apply sim_bind; [apply sim_Index|]. intros item. apply IH.
    + apply sim_bind; [apply sim_MakeSlice|]. intros k.
      apply sim_bind.
      * apply sim_EachWithBreak. intros i sub. unfold parseItem.
        apply sim_bind; [apply sim_Index|]. intros item. apply IH.
      * intros _. apply sim_bind; [apply sim_load|]. intros made. apply sim_store.
  - now apply sim_doParseStruct.
Qed.

(** Two binds of the same target with the same selection, started with
    different caches that both agree with the tokenizer, do the same: both
    return without error, or both return the same error, or both panic, and
    they leave the same target, the same slices and the same logs.  What the
    cache held makes no difference. *)
Theorem cache_is_transparent (v : option GoType) (selection : Selection)
    (sa sb : State) :
  agree ext sa sb ->
  alike ext (ParseSelection ext p v selection sa) (ParseSelection ext p v selection sb).
Proof.
  revert sa sb. change (sim ext (ParseSelection ext p v selection)).
  unfold ParseSelection. destruct v as [t|]; [|apply sim_panic].
  destruct (negb (kind_eqb (Kind_of t) Pointer)); [apply sim_fail|].
  apply sim_bind; [apply sim_load|]. intros ptr.
  destruct ptr as [| | | | |[x|]| | | | | |]; try apply sim_panic.
  - destruct (Elem_of t) as [elem|]; [|apply sim_panic].
    destruct (negb (kind_eqb (Kind_of elem) Struct)); [apply sim_fail|].
    unfold doParse. simpl. apply sim_doParseT.
  - apply sim_fail.
Qed.

End Transparent.

Lemma cache_is_transparent_witness :
  exists sa sb : State,
    ParseSelection Example.ext (Example.engine false)
                   (Some (TPointer Example.ParseData)) Example.document
                   (start (Example.target Example.ParseData) ∅) = Ok tt sa
    /\ ParseSelection Example.ext (Example.engine false)
                      (Some (TPointer Example.ParseData)) Example.document
                      (start (Example.target Example.ParseData)
                             {[ "h1" := mkTag "h1" "" [] ]}) = Ok tt sb
    /\ st_root sa = st_root sb.
Proof.
  assert (Hagree : agree Example.ext (start (Example.target Example.ParseData) ∅)
                         (start (Example.target Example.ParseData)
                                {[ "h1" := mkTag "h1" "" [] ]})).
  { repeat split.
    - intros k t H. simpl in H. now rewrite lookup_empty in H.
    - intros k t H. simpl in H. apply lookup_singleton_Some in H as [<- <-].
      reflexivity. }
  pose proof (cache_is_transparent Example.ext (Example.engine false)
                (Some (TPointer Example.ParseData)) Example.document _ _ Hagree)
    as H.
  destruct (ParseSelection Example.ext (Example.engine false)
              (Some (TPointer Example.ParseData)) Example.document
              (start (Example.target Example.ParseData) ∅)) as [[] sa|e sa|] eqn:Ha.
  - destruct (ParseSelection Example.ext (Example.engine false)
              (Some (TPointer Example.ParseData)) Example.document
              (start (Example.target Example.ParseData)
                     {[ "h1" := mkTag "h1" "" [] ]})) as [[] sb|e sb|] eqn:Hb.
    + exists sa, sb. split; [reflexivity|]. split; [reflexivity|].
      exact (proj1 (proj2 H)).
    + exact (match H with end).
    + exact (match H with end).
  - clear H. vm_compute in Ha. discriminate Ha.
  - clear H. vm_compute in Ha. discriminate Ha.
Defined.

(** ** Where a failed bind stops *)

Section Stops.

Context (ext : Externals) (p : Pagser).

(** The stack after an iteration: as before, or with the struct pushed. *)
Lemma doParseField_stack (doParse : Rec) (val : Value) (i : nat) (f : Field)
    (stackValues stack' : list Value) (selection : Selection) (st st' : State) :
  doParseField ext p doParse val i f stackValues selection st = Ok stack' st' ->
  stack' = stackValues \/ stack' = stackValues ++ [val].
Proof.
  unfold doParseField.
  assert (Hdescend : forall tagValue node st0,
    descend_into doParse val i f tagValue stackValues node st0 = Ok stack' st' ->
    stack' = stackValues ++ [val]).
  { intros tagValue node st0 H. unfold descend_into in H.
    apply bind_Ok_inv in H as (a & st1 & _ & H). now injection H as <- _. }
  destruct (Tag_Lookup (f_tag f) (TagName (Config_of p))) as [tagValue|].
  2:{ intros H. apply bind_Ok_inv in H as (a & st1 & _ & H). left.
      now injection H as <- _. }
  destruct (String.eqb tagValue ignoreSymbol).
  { intros H. left. now injection H as <- _. }
  intros H. apply bind_Ok_inv in H as (tag & st1 & _ & H).
  apply bind_Ok_inv in H as (node & st2 & _ & H).
  destruct (String.eqb (FuncName tag) ""); [right; now apply (Hdescend _ _ _ H)|].
  apply bind_Ok_inv in H as (callOutValue & st3 & _ & H).
  destruct callOutValue as [|subNode|e0|t x];
    try (right; now apply (Hdescend _ _ _ H)).
  all: apply bind_Ok_inv in H as (a & st4 & _ & H); left; now injection H as <- _.
Qed.

(** A loop over the fields that returns an error returns it from the
    iteration of one field, and has left every field after that one as it
    was: the loop stops at the first error.  With the fields before it
    ([bound_fields_stay] for the rest of the loop), the target holds the
    fields bound so far and nothing else.  The proviso is on methods with a
    pointer receiver, as before. *)
Theorem failed_bind_stops (val : Value) (selection : Selection) :
  p_base (rv_place val) = Root ->
  quiet ext val ->
  forall (fields : list Field) (i : nat) (stackValues : list Value)
         (st : State) (e : error) (st' : State),
    Forall (quiet ext) stackValues ->
    doParseStruct ext p (doParseT ext p) val selection fields i stackValues st
      = Fail e st' ->
    exists (k : nat) (f : Field) (stack0 : list Value) (st0 : State),
      fields !! k = Some f
      /\ doParseField ext p (doParseT ext p) val (i + k) f stack0 selection st0
         = Fail e st'
      /\ forall j : nat, (i + k < j)%nat ->
           read (child (rv_place val) j) st' = read (child (rv_place val) j) st.
Proof.
  intros Hroot Hval. induction fields as [|f rest IH];
    intros i stackValues st e st' Hs Hrun; [discriminate|].
  rewrite doParseStruct_cons in Hrun.
  assert (Hframe : forall j : nat, (i < j)%nat ->
    respects (same_at (child (rv_place val) j))
             (Forall (receiver_ok (fun pl => apart pl (child (rv_place val) j)) ext))
             (doParseField ext p (doParseT ext p) val i f stackValues selection)).
  { intros j Hj.
    apply (doParseField_frame ext p (child (rv_place val) j) Hroot);
      [apply apart_fields; lia | now right |].
    apply (Forall_impl _ _ _ Hs). intros v Hv. now right. }
  apply bind_Fail_inv in Hrun as [Hrun | (stack' & st1 & Hstep & Hrun)].
  - exists 0%nat, f, stackValues, st. rewrite Nat.add_0_r.
    split; [reflexivity|]. split; [exact Hrun|].
    intros j Hj. specialize (Hframe j Hj st). rewrite Hrun in Hframe. exact Hframe.
  - assert (Hs' : Forall (quiet ext) stack').
    { destruct (doParseField_stack _ _ _ _ _ _ _ _ _ Hstep) as [-> | ->];
        [exact Hs|]. apply Forall_app. split; [exact Hs | now constructor]. }
    destruct (IH (S i) stack' st1 e st' Hs' Hrun)
      as (k & f' & stack0 & st0 & Hk & Hfail & Hafter).
    exists (S k), f', stack0, st0. split; [exact Hk|].
    replace (i + S k)%nat with (S i + k)%nat by lia. split; [exact Hfail|].
    intros j Hj. rewrite (Hafter j Hj).
    assert (Hij : (i < j)%nat) by lia.
    specialize (Hframe j Hij st). rewrite Hstep in Hframe. exact (proj1 Hframe).
Qed.

End Stops.

Lemma failed_bind_stops_witness :
  let val := mkValue (mkPlace Root [0%nat]) Broken in
  let st := start (VPtr (Some (VStruct [VString ""; VString ""; VString "kept"]))) ∅ in
  let fields := [ mkField "Title" (Example.tagged "h1") Example.tstring;
                  mkField "X" (Example.tagged "h1->NoSuchFunc()") Example.tstring;
                  mkField "After" (Example.tagged "h1") Example.tstring ] in
  exists (e : error) (st' : State),
    doParseStruct Example.ext (Example.engine false)
                  (doParseT Example.ext (Example.engine false)) val Example.document
                  fields 0 [] st = Fail e st'
    /\ st_root st' = VPtr (Some (VStruct [VString "Pagser H1 Title"; VString "";
                                          VString "kept"]))
    /\ exists (k : nat) (f : Field),
         fields !! k = Some f
         /\ forall j : nat, (k < j)%nat ->
              read (child (rv_place val) j) st' = read (child (rv_place val) j) st.
Proof.
  intros val st fields.
  destruct (doParseStruct Example.ext (Example.engine false)
              (doParseT Example.ext (Example.engine false)) val Example.document
              fields 0 [] st) as [a st'|e st'|] eqn:Hrun.
  - vm_compute in Hrun. discriminate Hrun.
  - exists e, st'. split; [reflexivity|].
    destruct (failed_bind_stops Example.ext (Example.engine false) val Example.document
                eq_refl (Broken_quiet _) fields 0%nat [] st e st' (List.Forall_nil _) Hrun)
      as (k & f & stack0 & st0 & Hk & Hfail & Hafter).
    split.
    + clear Hfail Hafter. vm_compute in Hrun. now injection Hrun as _ <-.
    + exists k, f. split; [exact Hk | exact Hafter].
  - vm_compute in Hrun. discriminate Hrun.
Defined.

(** ** Fields the casters do not convert *)

Lemma type_eqb_refl (t : GoType) : type_eqb t t = true.
Proof.
  induction t as [k|n elem IH|elem IH| | |k elem IHk IH|elem IH|elem IH|name fields IH]
    using GoType_fields_ind; simpl; try reflexivity; try exact IH.
  - now apply kind_eqb_eq.
  - now rewrite Nat.eqb_refl, IH.
  - now rewrite IHk, IH.
  - rewrite String.eqb_refl. simpl.
    induction IH as [|[fn ft fty] r Hhead Hrest IHr]; [reflexivity|].
    simpl in Hhead. rewrite String.eqb_refl, bool_decide_eq_true_2 by reflexivity.
    rewrite Hhead. exact IHr.
Qed.

Section PassedOn.

Context (ext : Externals) (p : Pagser).

Lemma passed_on_casters (fv : Value) (v : iface) :
  passed_on (rv_type fv) = true ->
  setRefectValue ext p (Kind_of (rv_type fv)) fv v = SetValue fv v
  /\ setFieldValue ext p fv v = convert_and_Set ext fv v.
Proof.
  destruct fv as [pl t]. unfold passed_on, setRefectValue, setFieldValue, castFor. simpl.
  destruct t as [k|n elem|elem| | |k elem|elem|elem|name fields]; simpl;
    try (intros _; now destruct (CastError (Config_of p))).
  - destruct k; simpl; intros H; try discriminate;
      now destruct (CastError (Config_of p)).
  - destruct (Kind_of elem); simpl; intros H; try discriminate;
      now destruct (CastError (Config_of p)).
  - destruct (Kind_of elem); simpl; intros H; try discriminate;
      now destruct (CastError (Config_of p)).
Qed.

(** For a field of a kind that the casters do not convert (a struct, a
    pointer, a map, an interface, a slice of structs, ...), a function that
    returns nil makes both casters panic, and a function that returns a
    value of exactly the type of the field has it stored as it is; the cast
    library is not asked. *)
Theorem unconverted_field (fv : Value) (st : State) :
  passed_on (rv_type fv) = true ->
  setRefectValue ext p (Kind_of (rv_type fv)) fv INil st = Panic
  /\ setFieldValue ext p fv INil st = Panic
  /\ forall x old : Val,
       read (rv_place fv) st = Some old ->
       exists st' : State,
         setRefectValue ext p (Kind_of (rv_type fv)) fv (IValue (rv_type fv) x) st
           = Ok tt st'
         /\ setFieldValue ext p fv (IValue (rv_type fv) x) st = Ok tt st'
         /\ read (rv_place fv) st' = Some x.
Proof.
  intros Hp. split; [|split].
  - now rewrite (proj1 (passed_on_casters fv INil Hp)).
  - now rewrite (proj2 (passed_on_casters fv INil Hp)).
  - intros x old Hold.
    destruct (store_reads (rv_place fv) x old st Hold) as (st' & Hstore & Hread).
    exists st'.
    rewrite (proj1 (passed_on_casters fv _ Hp)), (proj2 (passed_on_casters fv _ Hp)).
    unfold convert_and_Set, SetValue. rewrite type_eqb_refl. simpl. now repeat split.
Qed.

End PassedOn.

Lemma unconverted_field_witness :
  let fv := mkValue (mkPlace Root []) Nav in
  let st := start (zero Nav) ∅ in
  let made := VStruct [VSlice (Some [VString "a"])] in
  setRefectValue Example.ext (Example.engine true) Struct fv INil st = Panic
  /\ exists st' : State,
       setFieldValue Example.ext (Example.engine true) fv (IValue Nav made) st = Ok tt st'
       /\ st_root st' = made.
Proof.
  intros fv st made.
  destruct (unconverted_field Example.ext (Example.engine true) fv st eq_refl)
    as (Hnil & _ & Hsame).
  split; [exact Hnil|].
  destruct (Hsame made (zero Nav) eq_refl) as (st' & _ & Hnew & Hread).
  exists st'. split; [exact Hnew|].
  unfold read in Hread. simpl in Hread. now injection Hread as ->.
Defined.

(** ** Where a failed bind of a slice stops *)

Section SliceStops.

Context (ext : Externals) (p : Pagser).

Lemma each_stops (slice : Place) (elem : GoType) (stackValues : list Value) :
  p_base slice = Root ->
  Forall (quiet ext) stackValues ->
  forall (nodes : list Node) (i : nat) (st : State) (e : error) (st' : State),
    EachWithBreak (parseItem (doParseT ext p) slice elem stackValues) nodes i st
      = Fail e st' ->
    exists (k : nat) (n : Node) (st0 : State),
      nodes !! k = Some n
      /\ parseItem (doParseT ext p) slice elem stackValues (i + k) [n] st0 = Fail e st'
      /\ forall j : nat, (i + k < j)%nat ->
           read (child slice j) st' = read (child slice j) st.
Proof.
  intros Hroot Hs. induction nodes as [|n rest IH]; intros i st e st' Hrun;
    [discriminate|].
  simpl in Hrun.
  assert (Hframe : forall j : nat, (i < j)%nat ->
    respects (same_at (child slice j)) (fun _ => True)
             (parseItem (doParseT ext p) slice elem stackValues i [n])).
  { intros j Hj.
    apply (respects_parseItem ext (same_at (child slice j))
             (fun pl => apart pl (child slice j))).
    - intros st0. reflexivity.
    - apply same_at_trans.
    - apply (doParseT_frame ext p (child slice j) Hroot).
    - apply apart_fields. lia.
    - apply (Forall_impl _ _ _ Hs). intros v Hv. now right. }
  apply bind_Fail_inv in Hrun as [Hrun | ([] & st1 & Hstep & Hrun)].
  - exists 0%nat, n, st. rewrite Nat.add_0_r. split; [reflexivity|].
    split; [exact Hrun|]. intros j Hj.
    specialize (Hframe j Hj st). rewrite Hrun in Hframe. exact Hframe.
  - destruct (IH (S i) st1 e st' Hrun) as (k & n' & st0 & Hk & Hfail & Hafter).
    exists (S k), n', st0. split; [exact Hk|].
    replace (i + S k)%nat with (S i + k)%nat by lia. split; [exact Hfail|].
    intros j Hj. rewrite (Hafter j Hj).
    assert (Hij : (i < j)%nat) by lia.
    specialize (Hframe j Hij st). rewrite Hstep in Hframe. exact (proj1 Hframe).
Qed.

(** The bind of a slice that is not nil stops at the first element whose
    bind returns an error: that error is the result, and the elements after
    that one are as they were.  The proviso is on the ancestors, whose
    pointer-receiver methods the elements may call. *)
Theorem failed_slice_stops (val : Value) (elem : GoType) (stackValues : list Value)
    (selection : Selection) (l : list Val) (st : State) (e : error) (st' : State) :
  p_base (rv_place val) = Root ->
  Forall (quiet ext) stackValues ->
  read (rv_place val) st = Some (VSlice (Some l)) ->
  doParseSlice (doParseT ext p) val elem stackValues selection st = Fail e st' ->
  exists (k : nat) (n : Node) (st0 : State),
    selection !! k = Some n
    /\ parseItem (doParseT ext p) (rv_place val) elem stackValues k [n] st0 = Fail e st'
    /\ forall j : nat, (k < j)%nat ->
         read (child (rv_place val) j) st' = read (child (rv_place val) j) st.
Proof.
  intros Hroot Hs Hr Hrun.
  rewrite (doParseSlice_existing _ _ _ _ _ _ l Hr) in Hrun.
  exact (each_stops (rv_place val) elem stackValues Hroot Hs selection 0%nat st e st' Hrun).
Qed.

End SliceStops.

Lemma failed_slice_stops_witness :
  let val := mkValue (mkPlace Root [0%nat]) (TSlice Broken) in
  let old := VStruct [VString "a"; VString "b"; VString "c"] in
  let st := start (VPtr (Some (VSlice (Some [old; old; old])))) ∅ in
  exists (e : error) (st' : State),
    doParseSlice (doParseT Example.ext (Example.engine false)) val Broken []
                 (Example.Find Example.document "li") st = Fail e st'
    /\ st_root st'
       = VPtr (Some (VSlice (Some [VStruct [VString ""; VString "b"; VString "c"];
                                   old; old])))
    /\ exists k : nat,
         forall j : nat, (k < j)%nat ->
           read (child (rv_place val) j) st' = read (child (rv_place val) j) st.
Proof.
  intros val old st.
  destruct (doParseSlice (doParseT Example.ext (Example.engine false)) val Broken []
              (Example.Find Example.document "li") st) as [a st'|e st'|] eqn:Hrun.
  - vm_compute in Hrun. discriminate Hrun.
  - exists e, st'. split; [reflexivity|].
    destruct (failed_slice_stops Example.ext (Example.engine false) val Broken []
                (Example.Find Example.document "li") [old; old; old] st e st'
                eq_refl (List.Forall_nil _) eq_refl Hrun)
      as (k & n & st0 & _ & _ & Hafter).
    split.
    + clear Hafter. vm_compute in Hrun. now injection Hrun as _ <-.
    + exists k. exact Hafter.
  - vm_compute in Hrun. discriminate Hrun.
Defined.
